(** * The autoregressive sampling engine of the dance generator (src/main.js)

    A shallow embedding of the sampling, window, smoothing and generation-loop
    code of [src/main.js], and the properties of it that the specification
    states.

    JavaScript numbers are IEEE-754 binary64 values, which is what Rocq's
    primitive [float] is: [+], [-], [*], [/], [sqrt], [<] and [===] below are
    the very operations the program performs.  The transcendental functions
    of the [Math] object ([Math.exp], [Math.log], [Math.cos], [Math.pow]) and
    the sequence of values [Math.random()] returns belong to the host; they
    are the variables of [Section Host], and so is the number of arguments
    the engine accepts in a call with a spread argument. *)

From Stdlib Require Import String.
From Stdlib Require Import Floats ZArith QArith Reals Lra List Bool Lia.
Import ListNotations.

Set Warnings "-inexact-float".

Local Open Scope float_scope.

(** ** JavaScript values and arrays *)

(** Reading an array past its end yields [undefined]; every use the program
    makes of such a read is arithmetic, a comparison with a number, or
    [Math.max]/[indexOf] against a number, and there [undefined] behaves as
    [NaN] does. *)
Definition undefined_num : float := nan.

(** [a[i]] *)
Definition idx (a : list float) (i : nat) : float := nth i a undefined_num.

(** [x === y] on numbers: IEEE equality ([NaN] differs from itself, [+0]
    equals [-0]). *)
Definition strict_eq (x y : float) : bool := (x =? y).

Definition is_pos_zero (x : float) : bool :=
  match classify x with PZero => true | _ => false end.

Definition is_neg_zero (x : float) : bool :=
  match classify x with NZero => true | _ => false end.

(** [Math.max(...args)] (ECMA-262, 21.3.2.24): start from -Infinity; a NaN
    argument makes the result NaN; [+0] is larger than [-0]. *)
Definition Math_max_step (highest number : float) : float :=
  if is_nan highest || is_nan number then nan
  else if is_pos_zero number && is_neg_zero highest then number
  else if highest <? number then number
  else highest.

Definition Math_max (args : list float) : float :=
  fold_left Math_max_step args neg_infinity.

(** [a.indexOf(v)]: the first index holding a value [=== v], or -1. *)
Fixpoint indexOfFrom (a : list float) (v : float) (i : Z) : Z :=
  match a with
  | [] => (-1)%Z
  | x :: rest => if strict_eq x v then i else indexOfFrom rest v (i + 1)%Z
  end.

Definition indexOf (a : list float) (v : float) : Z := indexOfFrom a v 0%Z.

(** [a.slice(start, end)] on a typed array: negative positions count from the
    end, both are clamped to [0, a.length]. *)
Definition relative_index (len pos : Z) : Z :=
  if (pos <? 0)%Z then Z.max (len + pos) 0 else Z.min pos len.

Definition slice (a : list float) (start stop : Z) : list float :=
  let len := Z.of_nat (length a) in
  let k := relative_index len start in
  let final := relative_index len stop in
  firstn (Z.to_nat (final - k)) (skipn (Z.to_nat k) a).

(** [Math.fround]: the rounding a [Float32Array] applies to every value stored
    in it (round to nearest binary32, ties to even; overflow to infinity). *)
Definition fround (x : float) : float :=
  match Prim2SF x with
  | S754_finite s m e =>
      SF2Prim (binary_normalize 24 128 (if s then Zneg m else Zpos m) e s)
  | _ => x
  end.

Definition Math_PI : float := 3.141592653589793.

(** ** Completions: a call returns or throws *)

Inductive jserror : Type :=
| TypeError
| RangeError
| InferenceFailure.

Inductive completion (A : Type) : Type :=
| Normal (a : A)
| Throw (e : jserror).
Arguments Normal {A} a.
Arguments Throw {A} e.

(** An effectful computation: it reads the number of [Math.random()] calls
    made so far, and returns its completion with the updated count. *)
Definition Eff (A : Type) : Type := nat -> completion A * nat.

Definition ret {A} (a : A) : Eff A := fun n => (Normal a, n).

Definition bind {A B} (c : Eff A) (k : A -> Eff B) : Eff B :=
  fun n => match c n with
           | (Normal a, n') => k a n'
           | (Throw e, n') => (Throw e, n')
           end.

Definition throw {A} (e : jserror) : Eff A := fun n => (Throw e, n).

(** [try { c } catch (error) { h }] *)
Definition try_catch {A} (c : Eff A) (h : jserror -> Eff A) : Eff A :=
  fun n => match c n with
           | (Normal a, n') => (Normal a, n')
           | (Throw e, n') => h e n'
           end.

Declare Scope eff_scope.
Delimit Scope eff_scope with eff.
Notation "x <- c ;; k" := (bind c (fun x => k))
  (at level 61, c at next level, right associativity) : eff_scope.

(** [for (let i = 0; i < n; i++) out[i] = body(i)] with an effectful body *)
Fixpoint for_each {A B} (body : A -> Eff B) (l : list A) : Eff (list B) :=
  match l with
  | [] => ret []
  | a :: rest =>
      (b <- body a ;;
       bs <- for_each body rest ;;
       ret (b :: bs))%eff
  end.

(** ** The softmax of [sampleFromMixture]

    main.js 376-387, written over the arithmetic it uses, so that the same
    text can be read over the doubles (as the program runs it) and over the
    real numbers.  [sumExp] starts from zero and adds the exponentials in
    index order. *)
Section Softmax.

Context {num : Type}.
Variables (plus minus divide : num -> num -> num) (zero : num).
Variables (exponential : num -> num) (maximum : list num -> num).

Definition expLogits_over (scaledPi : list num) : list num :=
  let maxLogit := maximum scaledPi in
  map (fun s => exponential (minus s maxLogit)) scaledPi.

Definition softmax_over (scaledPi : list num) : list num :=
  let exps := expLogits_over scaledPi in
  let sumExp := fold_left plus exps zero in
  map (fun w => divide w sumExp) exps.

End Softmax.

Section Host.

(** The host's [Math.exp], [Math.log], [Math.cos] and [Math.pow]. *)
Variables Math_exp Math_log Math_cos : float -> float.
Variable Math_pow : float -> float -> float.

(** [rand k] is the value the [k]-th call of [Math.random()] returns. *)
Variable rand : nat -> float.

Definition Math_random : Eff float := fun n => (Normal (rand n), S n).

(** *** MixtureSampler *)

(** [sampleFromGaussian(mean, stddev)], main.js 447-455. *)
Definition boxMuller (u1 u2 : float) : float :=
  PrimFloat.sqrt (-2.0 * Math_log u1) * Math_cos (2.0 * Math_PI * u2).

Definition sampleFromGaussian (mean stddev : float) : Eff float :=
  (u1 <- Math_random ;;
   u2 <- Math_random ;;
   ret (mean + stddev * boxMuller u1 u2))%eff.

(** The [for] loop of [sampleFromCategorical]: [Some i] when the loop
    returns [i], [None] when it runs to the end. *)
Fixpoint categoricalLoop (r : float) (probs : list float) (i : Z)
    (cumSum : float) : option Z :=
  match probs with
  | [] => None
  | p :: rest =>
      let cumSum := cumSum + p in
      if r <? cumSum then Some i
      else categoricalLoop r rest (i + 1)%Z cumSum
  end.

(** [sampleFromCategorical(probs)], main.js 426-439: the index it computes.
    (That the spread call of the fallback can throw on a long array is part
    of [sampleFromCategorical_limited] below.) *)
Definition categoricalChoice (r : float) (probs : list float) : Z :=
  match categoricalLoop r probs 0%Z 0 with
  | Some i => i
  | None => indexOf probs (Math_max probs)
  end.

Definition sampleFromCategorical (probs : list float) : Eff Z :=
  (r <- Math_random ;;
   ret (categoricalChoice r probs))%eff.

(** The temperature branch of [sampleFromMixture], main.js 367-393. *)
Definition scaleLogits (pi : list float) (numMixtures : nat)
    (temperature : float) : list float :=
  map (fun i => idx pi i / temperature) (seq 0 numMixtures).

Definition softmax (scaledPi : list float) : list float :=
  softmax_over add sub div 0 Math_exp Math_max scaledPi.

Definition mixtureWeights (pi : list float) (numMixtures : nat)
    (temperature : float) : list float :=
  if negb (strict_eq temperature 1.0)
  then softmax (scaleLogits pi numMixtures temperature)
  else map (idx pi) (seq 0 numMixtures).

(** [a.slice(componentIdx * outputSize, (componentIdx + 1) * outputSize)] *)
Definition componentSlice (a : list float) (componentIdx : Z)
    (outputSize : nat) : list float :=
  slice a (componentIdx * Z.of_nat outputSize)
          ((componentIdx + 1) * Z.of_nat outputSize).

(** [selectedSigma.map(s => s * temperature)]; the result is again a
    [Float32Array]. *)
Definition scaleSigma (selectedSigma : list float) (temperature : float)
    : list float :=
  map (fun s => fround (s * temperature)) selectedSigma.

(** [sampleFromMixture(pi, mu, sigma, outputSize, numMixtures, temperature)],
    main.js 365-419: the vector it computes.  (That [new Array] and the
    spread calls can throw for the sake of a size is part of
    [sampleFromMixture_limited] below.) *)
Definition sampleFromMixture (pi mu sigma : list float)
    (outputSize numMixtures : nat) (temperature : float)
    : Eff (list float) :=
  (let weights := mixtureWeights pi numMixtures temperature in
   componentIdx <- sampleFromCategorical weights ;;
   let selectedMu := componentSlice mu componentIdx outputSize in
   let selectedSigma := componentSlice sigma componentIdx outputSize in
   let scaledSigma := scaleSigma selectedSigma temperature in
   for_each (fun i => sampleFromGaussian (idx selectedMu i) (idx scaledSigma i))
            (seq 0 outputSize))%eff.

(** *** The sampler with the engine's limits

    The definitions above describe what the sampler computes.  Two kinds of
    statements in it can also throw, for the sake of a size alone:

    - [new Array(len)] (main.js 367, 371 and 413) throws a [RangeError]
      unless [len] is an array length, a whole number below 2^32
      (ECMA-262, 23.1.1.1);
    - a call with a spread argument, [Math.max(...scaledPi)] (main.js 377)
      and [Math.max(...probs)] (main.js 438), passes every entry of the
      array as an argument of its own, and an engine throws a [RangeError]
      when there are more of them than it accepts.  ECMA-262 sets no such
      bound; [argumentLimit] is the engine's, taken to be the same number
      at both calls.

    The definitions below are the sampler with these statements in their
    places; they agree with the definitions above on every input they
    return on ([sampleFromMixture_limited_agrees]). *)
Variable argumentLimit : nat.

Definition isArrayLength (len : nat) : bool := (Z.of_nat len <? 2 ^ 32)%Z.

(** [new Array(len)] *)
Definition newArray (len : nat) : Eff unit :=
  if isArrayLength len then ret tt else throw RangeError.

(** The spread [...args] in the arguments of a call. *)
Definition spreadArguments (args : list float) : Eff unit :=
  if (length args <=? argumentLimit)%nat then ret tt else throw RangeError.

(** [sampleFromCategorical(probs)], main.js 426-439. *)
Definition sampleFromCategorical_limited (probs : list float) : Eff Z :=
  (r <- Math_random ;;
   match categoricalLoop r probs 0%Z 0 with
   | Some i => ret i
   | None =>
       spread <- spreadArguments probs ;;
       ret (indexOf probs (Math_max probs))
   end)%eff.

(** The temperature branch of [sampleFromMixture], main.js 367-393. *)
Definition mixtureWeights_limited (pi : list float) (numMixtures : nat)
    (temperature : float) : Eff (list float) :=
  (weights <- newArray numMixtures ;;
   if negb (strict_eq temperature 1.0)
   then
     let scaledPi := scaleLogits pi numMixtures temperature in
     allocated <- newArray numMixtures ;;
     spread <- spreadArguments scaledPi ;;
     ret (softmax scaledPi)
   else ret (map (idx pi) (seq 0 numMixtures)))%eff.

(** [sampleFromMixture(pi, mu, sigma, outputSize, numMixtures, temperature)],
    main.js 365-419. *)
Definition sampleFromMixture_limited (pi mu sigma : list float)
    (outputSize numMixtures : nat) (temperature : float)
    : Eff (list float) :=
  (weights <- mixtureWeights_limited pi numMixtures temperature ;;
   componentIdx <- sampleFromCategorical_limited weights ;;
   let selectedMu := componentSlice mu componentIdx outputSize in
   let selectedSigma := componentSlice sigma componentIdx outputSize in
   let scaledSigma := scaleSigma selectedSigma temperature in
   sample <- newArray outputSize ;;
   for_each (fun i => sampleFromGaussian (idx selectedMu i) (idx scaledSigma i))
            (seq 0 outputSize))%eff.

(** *** TemporalSmoother *)

Definition keypoint : Type := (float * float)%type.
Definition pose : Type := list keypoint.

(** [reshapeKeypoints(flatKeypoints)], main.js 462-470: pairs taken two by
    two; an odd last value is paired with the out-of-range read. *)
Fixpoint reshapeKeypoints (flatKeypoints : list float) : pose :=
  match flatKeypoints with
  | [] => []
  | [x] => [(x, undefined_num)]
  | x :: y :: rest => (x, y) :: reshapeKeypoints rest
  end.

(** [kp[0] === 0 && kp[1] === 0] *)
Definition isMissing (kp : keypoint) : bool :=
  strict_eq (fst kp) 0 && strict_eq (snd kp) 0.

(** The loop counter [j] as the number handed to [Math.pow]. *)
Definition number_of_nat (j : nat) : float :=
  of_uint63 (Uint63.of_Z (Z.of_nat j)).

(** [0.6 * Math.pow(0.5, j)] *)
Definition historyWeight (j : nat) : float :=
  0.6 * Math_pow 0.5 (number_of_nat j).

(** One pass of the body of the inner loop of [smoothPose] (main.js
    250-265) that is not skipped. *)
Definition blend (weight : float) (smoothed historical : keypoint)
    : keypoint :=
  (fst smoothed * (1 - weight) + fst historical * weight,
   snd smoothed * (1 - weight) + snd historical * weight).

(** The inner loop, [for (let j = 0; j < poseHistory.length; j++)], from
    index [j] on, for keypoint [i]. *)
Fixpoint historyLoop (history : list pose) (j : nat) (i : nat)
    (smoothed : keypoint) : keypoint :=
  match history with
  | [] => smoothed
  | historicalPose :: rest =>
      match nth_error historicalPose i with
      | None => historyLoop rest (S j) i smoothed
      | Some historical =>
          if isMissing historical
          then historyLoop rest (S j) i smoothed
          else historyLoop rest (S j) i
                 (blend (historyWeight j) smoothed historical)
      end
  end.

(** The outer loop, [for (let i = 0; i < newPose.length; i++)], from
    keypoint [i] on. *)
Fixpoint keypointLoop (poseHistory : list pose) (i : nat) (rest : pose)
    : pose :=
  match rest with
  | [] => []
  | kp :: rest' =>
      (if isMissing kp then (0, 0)
       else historyLoop poseHistory 0 i kp)
      :: keypointLoop poseHistory (S i) rest'
  end.

(** [smoothPose(newPose)], main.js 226-272; the global [poseHistory] it
    reads is its first argument. *)
Definition smoothPose (poseHistory : list pose) (newPose : pose) : pose :=
  match poseHistory with
  | [] => newPose
  | _ :: _ => keypointLoop poseHistory 0 newPose
  end.

Definition MAX_HISTORY : nat := 5.

(** [poseHistory.unshift(newPose); if (poseHistory.length > MAX_HISTORY)
    poseHistory.pop();], main.js 317-320. *)
Definition pushHistory (newPose : pose) (poseHistory : list pose)
    : list pose :=
  let unshifted := newPose :: poseHistory in
  if (MAX_HISTORY <? length unshifted)%nat then removelast unshifted
  else unshifted.

(** main.js 316-323: the history is updated, then the pose is smoothed
    against the updated history. *)
Definition smoothStep (poseHistory : list pose) (newPose : pose)
    : list pose * pose :=
  let poseHistory' := pushHistory newPose poseHistory in
  (poseHistory', smoothPose poseHistory' newPose).

(** *** SequenceWindow *)

Definition window : Type := list (list float).

(** [inputSequence.shift(); inputSequence.push(nextPose);], main.js
    310-311. [shift] on an empty array does nothing. *)
Definition advance (inputSequence : window) (nextPose : list float)
    : window :=
  tl inputSequence ++ [nextPose].

(** *** GenerationLoop *)

(** What a step reads of the value [session.run] resolves to:
    [results.pi.data], [results.mu.data], [results.sigma.data] and
    [results.mu.dims[1]]. *)
Record Prediction : Type := {
  pi_data : list float;
  mu_data : list float;
  sigma_data : list float;
  mu_dims1 : nat
}.

(** The script's variables (main.js 17-22), what the page shows and holds,
    and the continuations the event loop has pending.  A continuation
    carries the [inputSequence] array of its closure: one chain of steps
    owns one array and has at most one continuation pending, so the array
    travels by value.  The buttons' [disabled] flags are presentation only
    and are left out. *)
Record App : Type := {
  session : bool;                  (* [session] is not [null] *)
  isGenerating : bool;
  animationFrameId : option nat;
  currentSequence : option pose;
  seedSequence : option window;
  poseHistory : list pose;
  temperatureSlider : float;       (* [parseFloat(temperatureSlider.value)] *)
  drawn : list pose;               (* arguments of [visualizer.drawPose], oldest first *)
  alerts : nat;                    (* calls of [showError] *)
  randomCalls : nat;               (* calls of [Math.random()] so far *)
  awaiting : list window;          (* steps suspended at [await session.run(feeds)] *)
  timers : list window;            (* pending [setTimeout] callbacks *)
  frames : list (nat * window);    (* pending [requestAnimationFrame] callbacks, by handle *)
  nextHandle : nat                 (* the handle [requestAnimationFrame] returns next *)
}.

Definition set_isGenerating (v : bool) (s : App) : App :=
  {| session := session s;
     isGenerating := v;
     animationFrameId := animationFrameId s;
     currentSequence := currentSequence s;
     seedSequence := seedSequence s;
     poseHistory := poseHistory s;
     temperatureSlider := temperatureSlider s;
     drawn := drawn s;
     alerts := alerts s;
     randomCalls := randomCalls s;
     awaiting := awaiting s;
     timers := timers s;
     frames := frames s;
     nextHandle := nextHandle s |}.

Definition set_animationFrameId (v : option nat) (s : App) : App :=
  {| session := session s;
     isGenerating := isGenerating s;
     animationFrameId := v;
     currentSequence := currentSequence s;
     seedSequence := seedSequence s;
     poseHistory := poseHistory s;
     temperatureSlider := temperatureSlider s;
     drawn := drawn s;
     alerts := alerts s;
     randomCalls := randomCalls s;
     awaiting := awaiting s;
     timers := timers s;
     frames := frames s;
     nextHandle := nextHandle s |}.

Definition set_currentSequence (v : option pose) (s : App) : App :=
  {| session := session s;
     isGenerating := isGenerating s;
     animationFrameId := animationFrameId s;
     currentSequence := v;
     seedSequence := seedSequence s;
     poseHistory := poseHistory s;
     temperatureSlider := temperatureSlider s;
     drawn := drawn s;
     alerts := alerts s;
     randomCalls := randomCalls s;
     awaiting := awaiting s;
     timers := timers s;
     frames := frames s;
     nextHandle := nextHandle s |}.

Definition set_poseHistory (v : list pose) (s : App) : App :=
  {| session := session s;
     isGenerating := isGenerating s;
     animationFrameId := animationFrameId s;
     currentSequence := currentSequence s;
     seedSequence := seedSequence s;
     poseHistory := v;
     temperatureSlider := temperatureSlider s;
     drawn := drawn s;
     alerts := alerts s;
     randomCalls := randomCalls s;
     awaiting := awaiting s;
     timers := timers s;
     frames := frames s;
     nextHandle := nextHandle s |}.

Definition set_temperatureSlider (v : float) (s : App) : App :=
  {| session := session s;
     isGenerating := isGenerating s;
     animationFrameId := animationFrameId s;
     currentSequence := currentSequence s;
     seedSequence := seedSequence s;
     poseHistory := poseHistory s;
     temperatureSlider := v;
     drawn := drawn s;
     alerts := alerts s;
     randomCalls := randomCalls s;
     awaiting := awaiting s;
     timers := timers s;
     frames := frames s;
     nextHandle := nextHandle s |}.

Definition set_drawn (v : list pose) (s : App) : App :=
  {| session := session s;
     isGenerating := isGenerating s;
     animationFrameId := animationFrameId s;
     currentSequence := currentSequence s;
     seedSequence := seedSequence s;
     poseHistory := poseHistory s;
     temperatureSlider := temperatureSlider s;
     drawn := v;
     alerts := alerts s;
     randomCalls := randomCalls s;
     awaiting := awaiting s;
     timers := timers s;
     frames := frames s;
     nextHandle := nextHandle s |}.

Definition set_alerts (v : nat) (s : App) : App :=
  {| session := session s;
     isGenerating := isGenerating s;
     animationFrameId := animationFrameId s;
     currentSequence := currentSequence s;
     seedSequence := seedSequence s;
     poseHistory := poseHistory s;
     temperatureSlider := temperatureSlider s;
     drawn := drawn s;
     alerts := v;
     randomCalls := randomCalls s;
     awaiting := awaiting s;
     timers := timers s;
     frames := frames s;
     nextHandle := nextHandle s |}.

Definition set_randomCalls (v : nat) (s : App) : App :=
  {| session := session s;
     isGenerating := isGenerating s;
     animationFrameId := animationFrameId s;
     currentSequence := currentSequence s;
     seedSequence := seedSequence s;
     poseHistory := poseHistory s;
     temperatureSlider := temperatureSlider s;
     drawn := drawn s;
     alerts := alerts s;
     randomCalls := v;
     awaiting := awaiting s;
     timers := timers s;
     frames := frames s;
     nextHandle := nextHandle s |}.

Definition set_awaiting (v : list window) (s : App) : App :=
  {| session := session s;
     isGenerating := isGenerating s;
     animationFrameId := animationFrameId s;
     currentSequence := currentSequence s;
     seedSequence := seedSequence s;
     poseHistory := poseHistory s;
     temperatureSlider := temperatureSlider s;
     drawn := drawn s;
     alerts := alerts s;
     randomCalls := randomCalls s;
     awaiting := v;
     timers := timers s;
     frames := frames s;
     nextHandle := nextHandle s |}.

Definition set_timers (v : list window) (s : App) : App :=
  {| session := session s;
     isGenerating := isGenerating s;
     animationFrameId := animationFrameId s;
     currentSequence := currentSequence s;
     seedSequence := seedSequence s;
     poseHistory := poseHistory s;
     temperatureSlider := temperatureSlider s;
     drawn := drawn s;
     alerts := alerts s;
     randomCalls := randomCalls s;
     awaiting := awaiting s;
     timers := v;
     frames := frames s;
     nextHandle := nextHandle s |}.

Definition set_frames (v : list (nat * window)) (s : App) : App :=
  {| session := session s;
     isGenerating := isGenerating s;
     animationFrameId := animationFrameId s;
     currentSequence := currentSequence s;
     seedSequence := seedSequence s;
     poseHistory := poseHistory s;
     temperatureSlider := temperatureSlider s;
     drawn := drawn s;
     alerts := alerts s;
     randomCalls := randomCalls s;
     awaiting := awaiting s;
     timers := timers s;
     frames := v;
     nextHandle := nextHandle s |}.

Definition set_nextHandle (v : nat) (s : App) : App :=
  {| session := session s;
     isGenerating := isGenerating s;
     animationFrameId := animationFrameId s;
     currentSequence := currentSequence s;
     seedSequence := seedSequence s;
     poseHistory := poseHistory s;
     temperatureSlider := temperatureSlider s;
     drawn := drawn s;
     alerts := alerts s;
     randomCalls := randomCalls s;
     awaiting := awaiting s;
     timers := timers s;
     frames := frames s;
     nextHandle := v |}.

Definition showError (s : App) : App := set_alerts (S (alerts s)) s.

Definition cancelAnimationFrame (id : nat) (pending : list (nat * window))
    : list (nat * window) :=
  filter (fun f => negb (Nat.eqb (fst f) id)) pending.

(** [stopGeneration()], main.js 344-353. *)
Definition stopGeneration (s : App) : App :=
  let s := set_isGenerating false s in
  match animationFrameId s with
  | Some id =>
      set_animationFrameId None
        (set_frames (cancelAnimationFrame id (frames s)) s)
  | None => s
  end.

(** The [catch] clause of [runGenerationStep], main.js 334-338. *)
Definition catchGenerationError (s : App) : App :=
  showError (stopGeneration s).

(** [runGenerationStep(inputSequence)] from its entry to the [await]
    (main.js 279-291).  [inputSequence[0].length] throws a [TypeError] on
    an empty array; otherwise the step is suspended on [session.run]. *)
Definition runGenerationStep (inputSequence : window) (s : App) : App :=
  if negb (isGenerating s) then s
  else match inputSequence with
       | [] => catchGenerationError s
       | _ :: _ => set_awaiting (awaiting s ++ [inputSequence]) s
       end.

(** main.js 294-307: the outputs are read and the next pose is sampled. *)
Definition sampleNext (inputSequence : window) (results : Prediction)
    (temperature : float) : Eff (list float) :=
  match inputSequence with
  | [] => throw TypeError
  | first :: _ =>
      sampleFromMixture (pi_data results) (mu_data results)
        (sigma_data results) (length first) (mu_dims1 results) temperature
  end.

(** The same lines with the sampler's [RangeError]s. *)
Definition sampleNext_limited (inputSequence : window) (results : Prediction)
    (temperature : float) : Eff (list float) :=
  match inputSequence with
  | [] => throw TypeError
  | first :: _ =>
      sampleFromMixture_limited (pi_data results) (mu_data results)
        (sigma_data results) (length first) (mu_dims1 results) temperature
  end.

(** main.js 309-333: what the step does with the sampled pose. *)
Definition applySample (inputSequence : window) (nextPose : list float)
    (s : App) : App :=
  let inputSequence := advance inputSequence nextPose in
  let newPose := reshapeKeypoints nextPose in
  let (poseHistory', smoothedPose) := smoothStep (poseHistory s) newPose in
  let s := set_poseHistory poseHistory' s in
  let s := set_currentSequence (Some smoothedPose) s in
  let s := set_drawn (drawn s ++ [smoothedPose]) s in
  set_timers (timers s ++ [inputSequence]) s.

(** [runGenerationStep] from the point where [session.run] settles (with a
    value or a rejection) to its end, main.js 291-338.  There is no test of
    [isGenerating] on this path. *)
Definition resumeGenerationStep (inputSequence : window)
    (settled : completion Prediction) (s : App) : App :=
  let step : Eff App :=
    try_catch
      (results <- (fun n => (settled, n)) ;;
       nextPose <- sampleNext inputSequence results (temperatureSlider s) ;;
       ret (applySample inputSequence nextPose s))%eff
      (fun _ => ret (catchGenerationError s)) in
  match step (randomCalls s) with
  | (Normal s', n) => set_randomCalls n s'
  | (Throw _, n) => set_randomCalls n s
  end.

(** The [setTimeout] callback, main.js 330-333. *)
Definition timerCallback (inputSequence : window) (s : App) : App :=
  let id := nextHandle s in
  set_animationFrameId (Some id)
    (set_frames (frames s ++ [(id, inputSequence)])
       (set_nextHandle (S id) s)).

(** [startGeneration()], main.js 204-219. *)
Definition startGeneration (s : App) : App :=
  match seedSequence s with
  | None => s
  | Some seed =>
      if negb (session s) || isGenerating s then s
      else
        let s := set_isGenerating true s in
        let s := set_poseHistory [] s in
        runGenerationStep seed s
  end.

(** The click handler of the generate button, main.js 68-79. *)
Definition generateClicked (s : App) : App :=
  if negb (session s) then showError s
  else if isGenerating s then s
  else startGeneration s.

Definition remove_nth {A} (k : nat) (l : list A) : list A :=
  firstn k l ++ skipn (S k) l.

(** [if (currentSequence) { visualizer.drawPose(currentSequence); }], the
    last statement of the handlers of the window's [resize] event (main.js
    37-42) and of the mode button (main.js 50-65).  Neither handler tests
    [isGenerating].  What they do to the visualizer itself (the size of the
    canvas, the mode and the label of the button) is the subject of
    [resize] and [vizModeClicked] further down; of the page's variables
    they only read [currentSequence]. *)
Definition redraw (s : App) : App :=
  match currentSequence s with
  | Some shown => set_drawn (drawn s ++ [shown]) s
  | None => s
  end.

(** What can happen to the page: a click, a move of the temperature
    slider, the [k]-th pending inference settling, the [k]-th pending timer
    or frame callback running, the window being resized, a click on the
    mode button. *)
Inductive event : Type :=
| GenerateClicked
| StopClicked
| TemperatureInput (t : float)
| InferenceSettled (k : nat) (settled : completion Prediction)
| TimerFired (k : nat)
| FrameFired (k : nat)
| WindowResized
| VizModeClicked.

Definition handle (s : App) (e : event) : App :=
  match e with
  | GenerateClicked => generateClicked s
  | StopClicked => stopGeneration s
  | TemperatureInput t => set_temperatureSlider t s
  | InferenceSettled k settled =>
      match nth_error (awaiting s) k with
      | Some inputSequence =>
          resumeGenerationStep inputSequence settled
            (set_awaiting (remove_nth k (awaiting s)) s)
      | None => s
      end
  | TimerFired k =>
      match nth_error (timers s) k with
      | Some inputSequence =>
          timerCallback inputSequence
            (set_timers (remove_nth k (timers s)) s)
      | None => s
      end
  | FrameFired k =>
      match nth_error (frames s) k with
      | Some (_, inputSequence) =>
          runGenerationStep inputSequence
            (set_frames (remove_nth k (frames s)) s)
      | None => s
      end
  | WindowResized => redraw s
  | VizModeClicked => redraw s
  end.

Definition run (s : App) (es : list event) : App := fold_left handle es s.

(** The page once [initialize()] has loaded the model and the seed
    (main.js 87-111): the last seed pose is drawn. *)
Definition initialized (seed : window) (temperature : float) : App :=
  let shown :=
    match seed with
    | [] => None
    | _ :: _ => Some (reshapeKeypoints (last seed []))
    end in
  {| session := true;
     isGenerating := false;
     animationFrameId := None;
     currentSequence := shown;
     seedSequence := Some seed;
     poseHistory := [];
     temperatureSlider := temperature;
     drawn := match shown with Some p => [p] | None => [] end;
     alerts := 0;
     randomCalls := 0;
     awaiting := [];
     timers := [];
     frames := [];
     nextHandle := 1 |}.

End Host.

(** ** A host for the examples

    ECMA-262 fixes [Math.exp], [Math.log] and [Math.cos] at a few arguments
    ([Math.exp(0)] is 1, [Math.log(0)] is -Infinity, [Math.cos(0)] is 1) and
    lets an engine approximate them elsewhere.  The examples of this file
    call them at those arguments and at [Math.log(0.5)], whose correctly
    rounded value is listed; the host below is [NaN] at every other
    argument, and no example reaches one.  [Math.pow(b, e)] is the repeated
    product for an exponent that is a small natural number, which is exact
    for the powers of 0.5 the smoother asks for. *)
Module Tabulated.

Definition Math_exp (x : float) : float :=
  if x =? 0 then 1 else nan.

Definition Math_log (x : float) : float :=
  if x =? 0 then neg_infinity
  else if x =? 0.5 then -0.6931471805599453
  else nan.

Definition Math_cos (x : float) : float :=
  if x =? 0 then 1 else nan.

Fixpoint pow_iter (fuel : nat) (b e acc : float) : float :=
  match fuel with
  | O => nan
  | S fuel' => if e =? 0 then acc else pow_iter fuel' b (e - 1) (acc * b)
  end.

Definition Math_pow (b e : float) : float := pow_iter 64 b e 1.

(** A random source that repeats the given draws. *)
Definition cycle (draws : list float) (k : nat) : float :=
  nth (k mod length draws) draws 0.

(** An engine that accepts 65535 arguments in a call with a spread. *)
Definition argumentLimit : nat := N.to_nat 65535.

End Tabulated.

(** The inputs of the examples: a page whose seed is a window of two flat
    vectors (one keypoint each), an inference result with one component of
    weight 1, means (100, 200) and zero deviations, and a random source that
    returns 0.25 for the component draw and then (0.5, 0) for each Gaussian
    draw of a step. *)
Module Demo.

Definition draws : nat -> float :=
  Tabulated.cycle [0.25; 0.5; 0; 0.5; 0].

Definition sampleFromMixture :=
  sampleFromMixture Tabulated.Math_exp Tabulated.Math_log
    Tabulated.Math_cos draws.

Definition sampleFromMixture_limited :=
  sampleFromMixture_limited Tabulated.Math_exp Tabulated.Math_log
    Tabulated.Math_cos draws Tabulated.argumentLimit.

Definition handle :=
  handle Tabulated.Math_exp Tabulated.Math_log Tabulated.Math_cos
    Tabulated.Math_pow draws.

Definition run :=
  run Tabulated.Math_exp Tabulated.Math_log Tabulated.Math_cos
    Tabulated.Math_pow draws.

Definition seed : window := [[1; 2]; [3; 4]].

Definition prediction : Prediction :=
  {| pi_data := [1]; mu_data := [100; 200]; sigma_data := [0; 0];
     mu_dims1 := 1 |}.

(** The page after the generate button was clicked: the first step is
    suspended on the inference call, holding the seed window. *)
Definition started : App := run (initialized seed 1) [GenerateClicked].

End Demo.

(** ** Statements of the specification, in its own words *)


(** The running sum of the categorical draw when it has added entry [k]:
    [cumSum] starts at 0 and adds the entries in index order. *)
Definition cumulativeSum (probs : list float) (k : nat) : float :=
  fold_left add (firstn (S k) probs) 0.

(** A value that is not NaN, and an entry of a well-formed probability
    vector: a number that is not below zero (which NaN is not). *)
Definition is_number (x : float) : Prop := (x =? x) = true.

Definition nonNegative (p : float) : Prop := (0 <=? p) = true.

(** "A probability vector summing to 1": the sum of the entries as the
    doubles add them in index order, and their exact sum as rationals (every
    finite double is [m * 2^e]). *)
Definition doubleSum (weights : list float) : float :=
  fold_left add weights 0.

Definition exactValue (x : float) : Q :=
  match Prim2SF x with
  | S754_finite s m e =>
      ((if s then -1 else 1) * inject_Z (Zpos m) * Qpower 2 e)%Q
  | _ => 0%Q
  end.

Definition exactSum (weights : list float) : Q :=
  fold_right Qplus 0%Q (map exactValue weights).

Definition sumsToOne (weights : list float) : Prop :=
  doubleSum weights = 1 \/ (exactSum weights == 1)%Q.

(** What holds of the page at every moment: the history has at most
    [MAX_HISTORY] poses, and every step suspended on the inference call holds
    a window of at least one entry. *)
Definition wellFormed (s : App) : Prop :=
  (length (poseHistory s) <= MAX_HISTORY)%nat
  /\ Forall (fun w : window => w <> []) (awaiting s).

(** A computation fails when it completes by throwing. *)
Definition fails {A} (outcome : completion A * nat) : Prop :=
  exists e n, outcome = (Throw e, n).

(** "Fails with an InvalidDistribution condition if M == 0, D == 0, or any
    provided stddev (pre-scaling) is negative", and returns otherwise. *)
Definition malformedMixture (sigma : list float) (outputSize numMixtures : nat)
    : Prop :=
  numMixtures = 0%nat \/ outputSize = 0%nat \/
  exists s, In s sigma /\ (s <? 0) = true.

Section SmootherWords.

Variable Math_pow : float -> float -> float.

(** What the inner loop of [smoothPose] does to the running value of
    keypoint [i] at history entry [j]: nothing when the entry lacks the
    keypoint, a blend with weight [0.6 * 0.5^j] otherwise. *)
Definition historyStep (i : nat) (value : keypoint)
    (entry : nat * pose) : keypoint :=
  match nth_error (snd entry) i with
  | None => value
  | Some historical =>
      if isMissing historical then value
      else blend (historyWeight Math_pow (fst entry)) value historical
  end.

(** "Applied iteratively from oldest-considered to most-recent": the
    entries after [j] are applied before entry [j]. *)
Fixpoint historyLoop_oldest_first (history : list pose) (j i : nat)
    (value : keypoint) : keypoint :=
  match history with
  | [] => value
  | historicalPose :: rest =>
      historyStep i (historyLoop_oldest_first rest (S j) i value)
        (j, historicalPose)
  end.

(** "After smoothing, push the unsmoothed new pose onto the front of
    PoseHistory": the pose is smoothed against the history of the earlier
    steps, and pushed afterwards. *)
Definition smoothThenPush (poseHistory : list pose) (newPose : pose)
    : list pose * pose :=
  (pushHistory newPose poseHistory, smoothPose Math_pow poseHistory newPose).

End SmootherWords.

(** ** The renderer: [PoseVisualizer] of src/visualize.js

    The two versions of the class that the file holds share
    [normalizeCoordinates]; [drawPose], the mode setter and the skeleton
    drawing are those of the version with the modes 'skeleton' and 'sprite',
    the one the page script drives.  A call of a drawing method is recorded
    with its coordinates; the default radius, line width and colours are
    constants and are left out.  The sprite drawing is recorded as the call
    of [drawSprites] with its argument. *)

(** [Math.min(...args)] (ECMA-262, 21.3.2.25): start from +Infinity; a NaN
    argument makes the result NaN; [-0] is smaller than [+0]. *)
Definition Math_min_step (lowest number : float) : float :=
  if is_nan lowest || is_nan number then nan
  else if is_neg_zero number && is_pos_zero lowest then number
  else if number <? lowest then number
  else lowest.

Definition Math_min (args : list float) : float :=
  fold_left Math_min_step args infinity.

Record PoseVisualizer : Type := {
  width : float;
  height : float;
  _visualizationMode : string
}.

(** The setter of [visualizationMode], visualize.js 97-104. *)
Definition set_visualizationMode (newMode : string) (v : PoseVisualizer)
    : PoseVisualizer :=
  if (String.eqb newMode "skeleton" || String.eqb newMode "sprite")%bool
  then {| width := width v; height := height v;
          _visualizationMode := newMode |}
  else v.

(** [resize()], visualize.js 521-534: the canvas takes the width of its
    container and three quarters of it as height. *)
Definition resize (containerWidth : float) (v : PoseVisualizer)
    : PoseVisualizer :=
  let aspectRatio := 3 / 4 in
  let newHeight := containerWidth * aspectRatio in
  {| width := containerWidth; height := newHeight;
     _visualizationMode := _visualizationMode v |}.

(** The bounding box of [normalizeCoordinates], visualize.js 472-486. *)
Record Box : Type := {
  minX : float;
  minY : float;
  maxX : float;
  maxY : float
}.

Definition emptyBox : Box :=
  {| minX := infinity; minY := infinity;
     maxX := neg_infinity; maxY := neg_infinity |}.

Definition extendBox (box : Box) (kp : keypoint) : Box :=
  if isMissing kp then box
  else {| minX := Math_min [minX box; fst kp];
          minY := Math_min [minY box; snd kp];
          maxX := Math_max [maxX box; fst kp];
          maxY := Math_max [maxY box; snd kp] |}.

Definition boundingBox (keypoints : pose) : Box :=
  fold_left extendBox keypoints emptyBox.

(** [minX === Infinity || minY === Infinity || maxX === -Infinity ||
    maxY === -Infinity] *)
Definition noValidKeypoint (box : Box) : bool :=
  strict_eq (minX box) infinity || strict_eq (minY box) infinity
  || strict_eq (maxX box) neg_infinity || strict_eq (maxY box) neg_infinity.

(** The scale and the two translations, visualize.js 494-502. *)
Definition fitScale (v : PoseVisualizer) (box : Box) : float :=
  let boxWidth := maxX box - minX box in
  let boxHeight := maxY box - minY box in
  let scaleX := (width v * 0.8) / boxWidth in
  let scaleY := (height v * 0.8) / boxHeight in
  Math_min [scaleX; scaleY].

Definition fitTranslateX (v : PoseVisualizer) (box : Box) : float :=
  let boxWidth := maxX box - minX box in
  let scale := fitScale v box in
  (width v - boxWidth * scale) / 2 - minX box * scale.

Definition fitTranslateY (v : PoseVisualizer) (box : Box) : float :=
  let boxHeight := maxY box - minY box in
  let scale := fitScale v box in
  (height v - boxHeight * scale) / 2 - minY box * scale.

Definition normalizeKeypoint (scale translateX translateY : float)
    (kp : keypoint) : keypoint :=
  if isMissing kp then (0, 0)
  else (fst kp * scale + translateX, snd kp * scale + translateY).

(** [normalizeCoordinates(keypoints)], visualize.js 469-516. *)
Definition normalizeCoordinates (v : PoseVisualizer) (keypoints : pose)
    : pose :=
  match keypoints with
  | [] => []
  | _ :: _ =>
      let box := boundingBox keypoints in
      if noValidKeypoint box then keypoints
      else map (normalizeKeypoint (fitScale v box) (fitTranslateX v box)
                  (fitTranslateY v box))
               keypoints
  end.

(** The calls [drawPose] makes on the visualizer's drawing methods. *)
Inductive canvasCall : Type :=
| Clear (w h : float)
| DrawConnection (x1 y1 x2 y2 : float)
| DrawKeypoint (x y : float)
| DrawSprites (keypoints : pose).

(** [this.connections], visualize.js 76-83. *)
Definition connections : list (nat * nat) :=
  [(0, 1); (1, 2); (2, 3); (3, 7); (0, 4); (4, 5); (5, 6); (6, 8);
   (9, 10); (11, 12); (11, 13); (13, 15); (12, 14); (14, 16);
   (11, 23); (12, 24); (23, 25); (24, 26); (25, 27); (26, 28); (27, 29);
   (28, 30); (29, 31); (30, 32)]%nat.

(** One pass of the loop over the connections, visualize.js 439-449. *)
Definition drawConnectionOf (normalizedKeypoints : pose)
    (connection : nat * nat) : list canvasCall :=
  match nth_error normalizedKeypoints (fst connection),
        nth_error normalizedKeypoints (snd connection) with
  | Some p1, Some p2 =>
      if isMissing p1 then []
      else if isMissing p2 then []
      else [DrawConnection (fst p1) (snd p1) (fst p2) (snd p2)]
  | _, _ => []
  end.

(** One pass of the loop over the keypoints, visualize.js 452-457. *)
Definition drawKeypointOf (kp : keypoint) : list canvasCall :=
  if isMissing kp then [] else [DrawKeypoint (fst kp) (snd kp)].

Definition drawSkeleton (normalizedKeypoints : pose) : list canvasCall :=
  flat_map (drawConnectionOf normalizedKeypoints) connections
  ++ flat_map drawKeypointOf normalizedKeypoints.

(** [drawPose(keypoints, normalize)], visualize.js 421-462. *)
Definition drawPose (v : PoseVisualizer) (keypoints : pose)
    (normalize : bool) : list canvasCall :=
  match keypoints with
  | [] => []
  | _ :: _ =>
      let normalizedKeypoints :=
        if normalize then normalizeCoordinates v keypoints else keypoints in
      Clear (width v) (height v)
      :: (if String.eqb (_visualizationMode v) "skeleton"
          then drawSkeleton normalizedKeypoints
          else if String.eqb (_visualizationMode v) "sprite"
          then [DrawSprites normalizedKeypoints]
          else [])
  end.

(** The mode button of the page, main.js 25-34 and 49-65: the script's
    [currentModeIndex], the visualizer and the label; a click moves the
    index on, sets the mode and the label, and redraws the current pose when
    there is one. *)
Definition visualizationModes : list string := ["skeleton"; "sprite"]%string.

Record ModeButton : Type := {
  currentModeIndex : nat;
  visualizer : PoseVisualizer;
  vizModeLabel : string
}.

(** [newMode.charAt(0).toUpperCase() + newMode.slice(1)], for a name that
    starts with an ASCII letter. *)
Definition capitalize (name : string) : string :=
  match name with
  | EmptyString => EmptyString
  | String c rest =>
      let n := Ascii.nat_of_ascii c in
      String (if ((97 <=? n) && (n <=? 122))%nat
              then Ascii.ascii_of_nat (n - 32) else c) rest
  end.

(** The page as the script sets it up, main.js 27-34 (the visualizer is
    constructed in mode 'sprite' and set to 'skeleton' at once). *)
Definition initialModeButton (w h : float) : ModeButton :=
  {| currentModeIndex := 1;
     visualizer :=
       set_visualizationMode "skeleton"
         {| width := w; height := h; _visualizationMode := "sprite" |};
     vizModeLabel := "Mode: Skeleton" |}.

Definition vizModeClicked (currentSequence : option pose) (b : ModeButton)
    : ModeButton * list canvasCall :=
  let index := ((currentModeIndex b + 1) mod length visualizationModes)%nat in
  let newMode := nth index visualizationModes ""%string in
  let v := set_visualizationMode newMode (visualizer b) in
  ({| currentModeIndex := index; visualizer := v;
      vizModeLabel := ("Mode: " ++ capitalize newMode)%string |},
   match currentSequence with
   | Some keypoints => drawPose v keypoints true
   | None => []
   end).

(** The interleaved coordinates of a pose: [x0, y0, x1, y1, ...], the layout
    [reshapeKeypoints] reads. *)
Definition flattenKeypoints (keypoints : pose) : list float :=
  flat_map (fun kp : keypoint => [fst kp; snd kp]) keypoints.

(** The mode button after [n] clicks. *)
Definition modeClicks (n : nat) (currentSequence : option pose)
    (b : ModeButton) : ModeButton :=
  Nat.iter n (fun b' => fst (vizModeClicked currentSequence b')) b.

(** ** The windows of the loop *)

(** A window of [W] flat vectors of [D] values each, the shape the tensor of
    [runGenerationStep] is built for. *)
Definition rectangular (W D : nat) (w : window) : Prop :=
  length w = W /\ Forall (fun row : list float => length row = D) w.

(** The windows the event loop holds: those of the steps suspended on the
    inference call and of the pending timer and frame callbacks. *)
Definition pendingWindows (s : App) : list window :=
  awaiting s ++ timers s ++ map snd (frames s).

(** The events whose handlers draw the current pose again, and how many of
    them a sequence of events holds. *)
Definition isRedraw (e : event) : bool :=
  match e with
  | WindowResized | VizModeClicked => true
  | _ => false
  end.

Definition redraws (es : list event) : nat := length (filter isRedraw es).

(** * Properties *)

(** ** The effect monad *)

Lemma for_each_normal {A B} (body : A -> Eff B) :
  (forall a n, exists b n', body a n = (Normal b, n')) ->
  forall l n, exists bs n',
    for_each body l n = (Normal bs, n') /\ length bs = length l.
Proof.
  intros Hbody l.
  induction l as [|a rest IH]; intros n; simpl.
  - exists [], n. split; reflexivity.
  - unfold bind.
    destruct (Hbody a n) as (b & n1 & ->).
    destruct (IH n1) as (bs & n2 & -> & Hlen).
    exists (b :: bs), n2. simpl. split; [reflexivity | now rewrite Hlen].
Qed.

Lemma for_each_ext {A B} (f g : A -> Eff B) (l : list A) :
  (forall a, In a l -> f a = g a) -> for_each f l = for_each g l.
Proof.
  induction l as [|a rest IH]; intros Hfg; simpl; [reflexivity|].
  rewrite (Hfg a (or_introl eq_refl)), IH; [reflexivity|].
  intros a' Ha'. apply Hfg. now right.
Qed.

(** ** MixtureSampler *)

Section SamplerFacts.

Variables Math_exp Math_log Math_cos : float -> float.
Variable rand : nat -> float.

Let sampleFromGaussian' := sampleFromGaussian Math_log Math_cos rand.
Let sampleFromMixture' := sampleFromMixture Math_exp Math_log Math_cos rand.

(** The Gaussian draw consumes two values of the random source and hands
    the first one, as it is, to [Math.log]. *)
Lemma sampleFromGaussian_draws (mean stddev : float) (n : nat) :
  sampleFromGaussian' mean stddev n =
  (Normal (mean + stddev * (PrimFloat.sqrt (-2.0 * Math_log (rand n))
                            * Math_cos (2.0 * Math_PI * rand (S n)))),
   S (S n)).
Proof. reflexivity. Qed.

Lemma sampleFromCategorical_draw (probs : list float) (n : nat) :
  sampleFromCategorical rand probs n =
  (Normal (categoricalChoice (rand n) probs), S n).
Proof. reflexivity. Qed.

Lemma categoricalChoice_nil (r : float) : categoricalChoice r [] = (-1)%Z.
Proof. reflexivity. Qed.

Lemma mixtureWeights_no_component (pi : list float) (temperature : float) :
  mixtureWeights Math_exp pi 0 temperature = [].
Proof. unfold mixtureWeights. now destruct (negb _). Qed.

Lemma relative_index_nonneg (len pos : Z) :
  (0 <= len)%Z -> (0 <= relative_index len pos)%Z.
Proof. unfold relative_index. destruct (pos <? 0)%Z eqn:E; lia. Qed.

(** The slice taken for component -1 is empty, whatever the array. *)
Lemma componentSlice_minus_one (a : list float) (outputSize : nat) :
  componentSlice a (-1) outputSize = [].
Proof.
  unfold componentSlice, slice.
  replace ((-1 + 1) * Z.of_nat outputSize)%Z with 0%Z by lia.
  set (len := Z.of_nat (length a)).
  assert (Hk : (0 <= relative_index len (-1 * Z.of_nat outputSize))%Z)
    by (apply relative_index_nonneg; lia).
  assert (Hf : relative_index len 0 = 0%Z)
    by (unfold relative_index; simpl; lia).
  rewrite Hf.
  replace (Z.to_nat (0 - relative_index len (-1 * Z.of_nat outputSize)))
    with 0%nat by lia.
  reflexivity.
Qed.

Lemma sampleFromMixture_normal (pi mu sigma : list float)
    (outputSize numMixtures : nat) (temperature : float) (n : nat) :
  exists sample n',
    sampleFromMixture' pi mu sigma outputSize numMixtures temperature n
    = (Normal sample, n') /\ length sample = outputSize.
Proof.
  unfold sampleFromMixture', sampleFromMixture, bind.
  rewrite sampleFromCategorical_draw.
  match goal with
  | |- context [for_each ?body ?l ?m] =>
      destruct (for_each_normal body
                  (fun a k => ex_intro _ _ (ex_intro _ _ eq_refl)) l m)
        as (bs & n' & Hrun & Hlen)
  end.
  exists bs, n'. split; [exact Hrun|].
  now rewrite Hlen, length_seq.
Qed.

(** C10.  On an empty probability array [sampleFromCategorical] returns -1
    and throws nothing; [sampleFromMixture] called with zero components
    therefore goes on: both slices it takes are empty, and it returns the
    [outputSize] values that [sampleFromGaussian] draws from an out-of-range
    mean and standard deviation. *)
Theorem sampleFromCategorical_empty_proceeds (pi mu sigma : list float)
    (outputSize : nat) (temperature : float) (n : nat) :
  sampleFromCategorical rand [] n = (Normal (-1)%Z, S n)
  /\ componentSlice mu (-1) outputSize = []
  /\ componentSlice sigma (-1) outputSize = []
  /\ sampleFromMixture' pi mu sigma outputSize 0 temperature n
     = for_each (fun _ => sampleFromGaussian' undefined_num undefined_num)
         (seq 0 outputSize) (S n)
  /\ exists sample n',
       sampleFromMixture' pi mu sigma outputSize 0 temperature n
       = (Normal sample, n') /\ length sample = outputSize.
Proof.
  split; [reflexivity|].
  split; [apply componentSlice_minus_one|].
  split; [apply componentSlice_minus_one|].
  split; [|apply sampleFromMixture_normal].
  unfold sampleFromMixture', sampleFromMixture, bind.
  rewrite mixtureWeights_no_component, sampleFromCategorical_draw.
  rewrite categoricalChoice_nil, !componentSlice_minus_one.
  unfold sampleFromGaussian'.
  erewrite for_each_ext; [reflexivity|].
  intros i _. unfold idx, scaleSigma. simpl.
  now destruct i.
Qed.

(** C5.  No guard stands between the random source and the logarithm: when
    the draw is 0, which [Math.random()] may return, [Math.log] is
    evaluated at 0. *)
Theorem sampleFromGaussian_log_of_zero (mean stddev : float) (n : nat) :
  rand n = 0 ->
  sampleFromGaussian' mean stddev n =
  (Normal (mean + stddev * (PrimFloat.sqrt (-2.0 * Math_log 0)
                            * Math_cos (2.0 * Math_PI * rand (S n)))),
   S (S n)).
Proof. intros H0. rewrite sampleFromGaussian_draws. now rewrite H0. Qed.

End SamplerFacts.

(** ** The order of the doubles *)

Ltac sf_compare_cases :=
  repeat match goal with
         | |- context [(?a ?= ?b)%Z] => destruct (Z.compare_spec a b)
         | H : context [(?a ?= ?b)%Z] |- _ => destruct (Z.compare_spec a b)
         | |- context [PosDef.Pos.compare_cont Eq ?a ?b] =>
             change (PosDef.Pos.compare_cont Eq a b) with (Pos.compare a b);
             destruct (Pos.compare_spec a b)
         | H : context [PosDef.Pos.compare_cont Eq ?a ?b] |- _ =>
             change (PosDef.Pos.compare_cont Eq a b)
               with (Pos.compare a b) in H;
             destruct (Pos.compare_spec a b)
         end;
  subst; simpl in *; try discriminate; try reflexivity; try lia.

Ltac sf_cases a b :=
  destruct a as [[|]|[|]| |[|] ? ?], b as [[|]|[|]| |[|] ? ?]; simpl;
  intros; try discriminate; try reflexivity; sf_compare_cases.

Lemma SFleb_total (a b : spec_float) :
  SFeqb a a = true -> SFeqb b b = true ->
  SFltb a b = false -> SFleb b a = true.
Proof. unfold SFeqb, SFltb, SFleb. sf_cases a b. Qed.

Lemma SFleb_trans (a b c : spec_float) :
  SFleb a b = true -> SFleb b c = true -> SFleb a c = true.
Proof.
  unfold SFleb.
  destruct c as [[|]|[|]| |[|] ? ?]; sf_cases a b.
Qed.

Lemma SFltb_leb (a b : spec_float) : SFltb a b = true -> SFleb a b = true.
Proof.
  unfold SFltb, SFleb. destruct (SFcompare a b) as [[| |]|]; congruence.
Qed.

Lemma SFleb_eqb_right (a b : spec_float) :
  SFleb a b = true -> SFeqb b b = true.
Proof. unfold SFleb, SFeqb. sf_cases a b. Qed.

Lemma SFeqb_leb (a b : spec_float) :
  SFeqb a b = true -> SFleb a b = true /\ SFleb b a = true.
Proof. unfold SFleb, SFeqb. intros H. split; revert H; sf_cases a b. Qed.

Section DoubleOrder.

Variables a b c : float.

Lemma leb_refl_of_eqb : (a =? a) = true -> (a <=? a) = true.
Proof.
  rewrite FloatAxioms.eqb_spec, FloatAxioms.leb_spec.
  intros H. now apply SFeqb_leb.
Qed.

Lemma leb_eqb_right : (a <=? b) = true -> (b =? b) = true.
Proof.
  rewrite FloatAxioms.eqb_spec, FloatAxioms.leb_spec.
  apply SFleb_eqb_right.
Qed.

Lemma leb_trans : (a <=? b) = true -> (b <=? c) = true -> (a <=? c) = true.
Proof. rewrite !FloatAxioms.leb_spec. apply SFleb_trans. Qed.

Lemma ltb_leb : (a <? b) = true -> (a <=? b) = true.
Proof.
  rewrite FloatAxioms.ltb_spec, FloatAxioms.leb_spec. apply SFltb_leb.
Qed.

Lemma leb_total :
  (a =? a) = true -> (b =? b) = true -> (a <? b) = false ->
  (b <=? a) = true.
Proof.
  rewrite !FloatAxioms.eqb_spec, FloatAxioms.ltb_spec, FloatAxioms.leb_spec.
  apply SFleb_total.
Qed.

Lemma eqb_leb_sym : (a =? b) = true -> (b <=? a) = true.
Proof.
  rewrite FloatAxioms.eqb_spec, FloatAxioms.leb_spec.
  intros H. now apply SFeqb_leb.
Qed.

Lemma zeros_leb : is_neg_zero a = true -> is_pos_zero b = true ->
  (a <=? b) = true.
Proof.
  unfold is_neg_zero, is_pos_zero.
  rewrite !classify_spec, FloatAxioms.leb_spec.
  unfold SF64classify, SFclassify.
  destruct (Prim2SF a) as [[|]|[|]| |[|] ma ea],
           (Prim2SF b) as [[|]|[|]| |[|] mb eb];
    repeat match goal with
           | |- context [if ?t then _ else _] => destruct t
           end; simpl; intros; try discriminate; reflexivity.
Qed.

End DoubleOrder.

(** ** [Math.max], [indexOf] and the categorical draw *)

Lemma Math_max_step_spec (highest number : float) :
  is_number highest -> is_number number ->
  let m := Math_max_step highest number in
  is_number m /\ (highest <=? m) = true /\ (number <=? m) = true
  /\ (m = highest \/ m = number).
Proof.
  unfold is_number. intros Hh Hn. unfold Math_max_step, is_nan.
  rewrite Hh, Hn. simpl.
  destruct (is_pos_zero number && is_neg_zero highest) eqn:Hz.
  - apply andb_prop in Hz. destruct Hz as [Hp Hneg].
    repeat split; auto using zeros_leb, leb_refl_of_eqb.
  - destruct (highest <? number) eqn:Hlt.
    + repeat split; auto using ltb_leb, leb_refl_of_eqb.
    + repeat split; auto using leb_total, leb_refl_of_eqb.
Qed.

Lemma Math_max_fold (args : list float) :
  forall highest,
    is_number highest -> Forall is_number args ->
    let m := fold_left Math_max_step args highest in
    is_number m /\ (highest <=? m) = true
    /\ Forall (fun x => (x <=? m) = true) args
    /\ (m = highest \/ In m args).
Proof.
  induction args as [|x rest IH]; intros highest Hh Hargs; simpl.
  - repeat split; auto using leb_refl_of_eqb.
  - inversion Hargs as [|? ? Hx Hrest]; subst.
    destruct (Math_max_step_spec highest x Hh Hx) as (Hm & Hhm & Hxm & Hor).
    destruct (IH _ Hm Hrest) as (Hm' & Hle & Hall & Hin).
    split; [exact Hm'|].
    split; [eapply leb_trans; eassumption|].
    split; [constructor; [eapply leb_trans; eassumption | exact Hall]|].
    destruct Hin as [-> | Hin]; [|now right; right].
    destruct Hor as [-> | ->]; [now left | now right; left].
Qed.

Lemma nonNegative_is_number (p : float) : nonNegative p -> is_number p.
Proof. apply leb_eqb_right. Qed.

(** On a non-empty array of non-negative numbers [Math.max] returns one of
    the entries, and no entry is larger. *)
Lemma Math_max_nonNegative (probs : list float) :
  probs <> [] -> Forall nonNegative probs ->
  is_number (Math_max probs) /\ In (Math_max probs) probs
  /\ Forall (fun p => (p <=? Math_max probs) = true) probs.
Proof.
  intros Hne Hall.
  assert (Hnum : Forall is_number probs)
    by (eapply Forall_impl; [apply nonNegative_is_number | exact Hall]).
  destruct (Math_max_fold probs neg_infinity eq_refl Hnum)
    as (Hm & _ & Hle & Hin).
  fold (Math_max probs) in Hm, Hle, Hin.
  split; [exact Hm|]. split; [|exact Hle].
  destruct Hin as [Heq | Hin]; [|exact Hin].
  destruct probs as [|p rest]; [congruence|].
  inversion Hall as [|? ? Hp _]; subst.
  inversion Hle as [|? ? Hpm _]; subst.
  rewrite Heq in Hpm.
  pose proof (leb_trans _ _ _ Hp Hpm) as Habs.
  vm_compute in Habs. discriminate Habs.
Qed.

Lemma indexOfFrom_spec (a : list float) (v : float) :
  forall i0,
    (indexOfFrom a v i0 = (-1)%Z
     /\ forall x, In x a -> strict_eq x v = false)
    \/ exists k, indexOfFrom a v i0 = (i0 + Z.of_nat k)%Z
                 /\ (k < length a)%nat
                 /\ strict_eq (idx a k) v = true
                 /\ forall k', (k' < k)%nat -> strict_eq (idx a k') v = false.
Proof.
  induction a as [|x rest IH]; intros i0; simpl.
  - left. split; [reflexivity | intros x []].
  - destruct (strict_eq x v) eqn:Hx.
    + right. exists 0%nat. simpl.
      repeat split; [lia | lia | exact Hx | intros k' Hk'; lia].
    + destruct (IH (i0 + 1)%Z) as [[Hnone Hall] | (k & Hk & Hlen & Heq & Hfirst)].
      * left. split; [exact Hnone|].
        intros y [<- | Hy]; [exact Hx | now apply Hall].
      * right. exists (S k).
        repeat split; [lia | lia | exact Heq |].
        intros [|k'] Hk'; [exact Hx | apply Hfirst; lia].
Qed.

Section CategoricalFacts.

Variable rand : nat -> float.

Lemma categoricalLoop_spec (r : float) (probs : list float) :
  forall i0 c0,
    match categoricalLoop r probs i0 c0 with
    | Some i =>
        exists k, i = (i0 + Z.of_nat k)%Z /\ (k < length probs)%nat
                  /\ (r <? fold_left add (firstn (S k) probs) c0) = true
                  /\ forall k', (k' < k)%nat ->
                       (r <? fold_left add (firstn (S k') probs) c0) = false
    | None =>
        forall k, (k < length probs)%nat ->
                  (r <? fold_left add (firstn (S k) probs) c0) = false
    end.
Proof.
  induction probs as [|p rest IH]; intros i0 c0; simpl.
  - intros k Hk. lia.
  - destruct (r <? c0 + p) eqn:Hlt.
    + exists 0%nat. simpl.
      repeat split; [lia | lia | exact Hlt | intros k' Hk'; lia].
    + specialize (IH (i0 + 1)%Z (c0 + p)).
      destruct (categoricalLoop r rest (i0 + 1) (c0 + p)) as [i|].
      * destruct IH as (k & -> & Hlen & Hk & Hfirst).
        exists (S k). repeat split; [lia | lia | exact Hk |].
        intros [|k'] Hk'; [exact Hlt | apply Hfirst; lia].
      * intros [|k] Hk; [exact Hlt | apply IH; lia].
Qed.

End CategoricalFacts.

(** ** SequenceWindow *)

Lemma advance_length (w : window) (x : list float) :
  w <> [] -> length (advance w x) = length w.
Proof.
  destruct w as [|v w]; [congruence|]. intros _.
  unfold advance. simpl. rewrite length_app. simpl. lia.
Qed.

Lemma advance_not_nil (w : window) (x : list float) : advance w x <> [].
Proof. unfold advance. destruct (tl w); discriminate. Qed.

Lemma advance_skipn (w : window) (x : list float) :
  w <> [] -> advance w x = skipn 1 (w ++ [x]).
Proof. destruct w as [|v w]; [congruence|]. reflexivity. Qed.

Lemma advances_skipn (xs : list (list float)) :
  forall w : window,
    w <> [] -> fold_left advance xs w = skipn (length xs) (w ++ xs).
Proof.
  induction xs as [|x xs IH]; intros w Hw; simpl fold_left.
  - simpl. now rewrite app_nil_r.
  - rewrite IH by apply advance_not_nil.
    rewrite advance_skipn by exact Hw.
    destruct w as [|v w]; [congruence|].
    simpl. now rewrite <- app_assoc.
Qed.

(** What one advance and a run of advances do to a window of at least one
    entry. *)
Lemma advances_spec (w : window) (xs : list (list float)) :
  w <> [] ->
  let w' := fold_left advance xs w in
  (forall x, advance w x = tl w ++ [x]
             /\ length (advance w x) = length w
             /\ (forall i, (S i < length w)%nat ->
                           nth_error (advance w x) i = nth_error w (S i))
             /\ nth_error (advance w x) (length w - 1) = Some x)
  /\ length w' = length w
  /\ w' = skipn (length xs) (w ++ xs)
  /\ (forall i, nth_error w' i = nth_error (w ++ xs) (length xs + i))
  /\ (forall d, xs <> [] -> last w' d = last xs d).
Proof.
  intros Hw w'.
  assert (Hskip : w' = skipn (length xs) (w ++ xs))
    by (apply advances_skipn; exact Hw).
  split; [|split; [|split; [exact Hskip|split]]].
  - intros x. split; [reflexivity|].
    split; [now apply advance_length|].
    destruct w as [|v w]; [congruence|]. unfold advance. simpl.
    split.
    + intros i Hi. apply nth_error_app1. lia.
    + rewrite nth_error_app2 by lia.
      now replace (length w - 0 - length w)%nat with 0%nat by lia.
  - rewrite Hskip, length_skipn, length_app. lia.
  - intros i. rewrite Hskip. apply nth_error_skipn.
  - intros d Hxs. unfold w'.
    rewrite (app_removelast_last d Hxs), fold_left_app. simpl.
    unfold advance at 1. now rewrite !last_last.
Qed.

(** ** TemporalSmoother *)

Section SmootherFacts.

Variable Math_pow : float -> float -> float.

Let smoothPose' := smoothPose Math_pow.
Let historyLoop' := historyLoop Math_pow.
Let keypointLoop' := keypointLoop Math_pow.

Lemma nth_error_keypointLoop (history : list pose) (newPose : pose) :
  forall i0 i,
    nth_error (keypointLoop' history i0 newPose) i =
    option_map (fun kp => if isMissing kp then (0, 0)
                          else historyLoop' history 0 (i0 + i) kp)
               (nth_error newPose i).
Proof.
  induction newPose as [|kp rest IH]; intros i0 i.
  - now destruct i.
  - destruct i as [|i]; simpl.
    + now rewrite Nat.add_0_r.
    + unfold keypointLoop' in IH. rewrite IH.
      now replace (S i0 + i)%nat with (i0 + S i)%nat by lia.
Qed.

Lemma historyLoop_fold (history : list pose) (i : nat) :
  forall j value,
    historyLoop' history j i value =
    fold_left (historyStep Math_pow i)
      (combine (seq j (length history)) history) value.
Proof.
  induction history as [|historicalPose rest IH]; intros j value.
  - reflexivity.
  - simpl. unfold historyLoop' in IH.
    unfold historyStep at 2. simpl.
    destruct (nth_error historicalPose i) as [historical|];
      [destruct (isMissing historical)|]; apply IH.
Qed.

(** The output of [smoothPose] at one keypoint. *)
Lemma nth_error_smoothPose (history : list pose) (newPose : pose)
    (i : nat) (kp : keypoint) :
  nth_error newPose i = Some kp ->
  nth_error (smoothPose' history newPose) i =
  Some (match history with
        | [] => kp
        | _ :: _ => if isMissing kp then (0, 0)
                    else historyLoop' history 0 i kp
        end).
Proof.
  intros Hkp. unfold smoothPose', smoothPose.
  destruct history as [|h rest]; [exact Hkp|].
  pose proof (nth_error_keypointLoop (h :: rest) newPose 0 i) as H.
  unfold keypointLoop' in H. rewrite H, Hkp. reflexivity.
Qed.

(** C8.  A keypoint that comes in as the missing sentinel ([x === 0] and
    [y === 0]) goes out as the missing sentinel, whatever the history
    holds: the output is the pair (0, 0) when there is a history and the
    incoming pair itself when there is none; an incoming (0, 0) is always
    (0, 0) in the output. *)
Theorem smoothPose_missing_stays_missing (history : list pose)
    (newPose : pose) (i : nat) (kp : keypoint) :
  nth_error newPose i = Some kp ->
  isMissing kp = true ->
  exists out,
    nth_error (smoothPose' history newPose) i = Some out
    /\ isMissing out = true
    /\ (out = (0, 0) \/ out = kp)
    /\ (kp = (0, 0) -> out = (0, 0)).
Proof.
  intros Hkp Hmiss.
  rewrite (nth_error_smoothPose history newPose i kp Hkp).
  destruct history as [|h rest].
  - exists kp. repeat split; auto.
  - rewrite Hmiss. exists (0, 0). repeat split; auto.
Qed.

(** C4 (as amended).  A keypoint that is not missing is blended with the
    history entries in index order, from the most recently pushed entry
    (j = 0) to the oldest: entry j is skipped when it lacks the keypoint
    (missing, or out of range), and otherwise updates both coordinates by
    value * (1 - weight_j) + historical * weight_j with
    weight_j = 0.6 * Math.pow(0.5, j). *)
Theorem smoothPose_blends_most_recent_first (history : list pose)
    (newPose : pose) (i : nat) (kp : keypoint) :
  nth_error newPose i = Some kp ->
  isMissing kp = false ->
  nth_error (smoothPose' history newPose) i =
  Some (fold_left (historyStep Math_pow i)
          (combine (seq 0 (length history)) history) kp)
  /\ (forall j value historical,
        historyStep Math_pow i value (j, historical) =
        match nth_error historical i with
        | None => value
        | Some h =>
            if isMissing h then value
            else let weight := 0.6 * Math_pow 0.5 (number_of_nat j) in
                 (fst value * (1 - weight) + fst h * weight,
                  snd value * (1 - weight) + snd h * weight)
        end).
Proof.
  intros Hkp Hmiss. split; [|reflexivity].
  rewrite (nth_error_smoothPose history newPose i kp Hkp), Hmiss.
  destruct history as [|h rest]; [reflexivity|].
  now rewrite historyLoop_fold.
Qed.

Lemma pushHistory_bounded (newPose : pose) (poseHistory : list pose) :
  (length poseHistory <= MAX_HISTORY)%nat ->
  pushHistory newPose poseHistory = newPose :: firstn 4 poseHistory
  /\ (length (pushHistory newPose poseHistory) <= MAX_HISTORY)%nat.
Proof.
  unfold pushHistory, MAX_HISTORY. intros Hlen.
  destruct (Nat.ltb_spec 5 (length (newPose :: poseHistory))) as [Hgt|Hle].
  - simpl in Hgt. assert (Hfive : length poseHistory = 5%nat) by lia.
    rewrite removelast_firstn_len. simpl length. rewrite Hfive.
    change (Nat.pred 6) with 5%nat. rewrite firstn_cons.
    split; [reflexivity|].
    cbn [length]. rewrite length_firstn. lia.
  - simpl in Hle. split; [|simpl; lia].
    f_equal. symmetry. apply firstn_all2. lia.
Qed.

(** C3 (as amended).  The unsmoothed new pose is pushed onto the front of
    the history, and the history cut to 5 entries, before the pose is
    smoothed: the history [smoothPose] reads has the pose being smoothed
    at index 0, followed by the (at most 4) most recent poses of the
    earlier steps. *)
Theorem smoothStep_pushes_before_smoothing (poseHistory : list pose)
    (newPose : pose) :
  (length poseHistory <= MAX_HISTORY)%nat ->
  let consulted := newPose :: firstn 4 poseHistory in
  smoothStep Math_pow poseHistory newPose
  = (consulted, smoothPose' consulted newPose)
  /\ nth_error consulted 0 = Some newPose
  /\ (length consulted <= MAX_HISTORY)%nat.
Proof.
  intros Hlen consulted.
  destruct (pushHistory_bounded newPose poseHistory Hlen) as [Hpush Hle].
  unfold smoothStep. rewrite Hpush in *.
  repeat split. exact Hle.
Qed.

End SmootherFacts.

(** ** GenerationLoop *)

Lemma remove_nth_last {A} (l : list A) (x : A) :
  remove_nth (length l) (l ++ [x]) = l.
Proof.
  unfold remove_nth.
  rewrite firstn_app, firstn_all, Nat.sub_diag. simpl firstn.
  rewrite skipn_all2 by (rewrite length_app; simpl; lia).
  now rewrite !app_nil_r.
Qed.

Lemma nth_error_last {A} (l : list A) (x : A) :
  nth_error (l ++ [x]) (length l) = Some x.
Proof. rewrite nth_error_app2 by lia. now rewrite Nat.sub_diag. Qed.

Section LoopFacts.

Variables Math_exp Math_log Math_cos : float -> float.
Variable Math_pow : float -> float -> float.
Variable rand : nat -> float.

Let handle' := handle Math_exp Math_log Math_cos Math_pow rand.
Let run' := run Math_exp Math_log Math_cos Math_pow rand.
Let sampleNext' := sampleNext Math_exp Math_log Math_cos rand.
Let resumeGenerationStep' :=
  resumeGenerationStep Math_exp Math_log Math_cos Math_pow rand.

Lemma stopGeneration_fields (s : App) :
  isGenerating (stopGeneration s) = false
  /\ awaiting (stopGeneration s) = awaiting s
  /\ timers (stopGeneration s) = timers s
  /\ drawn (stopGeneration s) = drawn s
  /\ poseHistory (stopGeneration s) = poseHistory s
  /\ temperatureSlider (stopGeneration s) = temperatureSlider s
  /\ randomCalls (stopGeneration s) = randomCalls s
  /\ nextHandle (stopGeneration s) = nextHandle s.
Proof.
  destruct s as [? ? [id|] ? ? ? ? ? ? ? ? ? ? ?]; cbn; repeat split.
Qed.



(** A step that finds [isGenerating] false at its entry does nothing. *)
Lemma runGenerationStep_stopped (w : window) (s : App) :
  isGenerating s = false -> runGenerationStep w s = s.
Proof. intros H. unfold runGenerationStep. now rewrite H. Qed.

(** An empty window is never advanced: the step that holds one ends in its
    [catch] clause, before and after the inference call. *)
Lemma empty_window_faults (s : App) (settled : completion Prediction) :
  (isGenerating s = true -> runGenerationStep [] s = catchGenerationError s)
  /\ resumeGenerationStep' [] settled s = catchGenerationError s.
Proof.
  split.
  - intros H. unfold runGenerationStep. now rewrite H.
  - unfold resumeGenerationStep', resumeGenerationStep, try_catch, bind, ret.
    destruct settled as [results|e]; simpl;
      destruct s as [? ? [id|] ? ? ? ? ? ? ? ? ? ? ?]; reflexivity.
Qed.

Lemma resumeGenerationStep_fields (w : window)
    (settled : completion Prediction) (s : App) :
  awaiting (resumeGenerationStep' w settled s) = awaiting s
  /\ (poseHistory (resumeGenerationStep' w settled s) = poseHistory s
      \/ exists newPose,
           poseHistory (resumeGenerationStep' w settled s)
           = pushHistory newPose (poseHistory s)).
Proof.
  unfold resumeGenerationStep', resumeGenerationStep, try_catch, bind, ret.
  destruct settled as [results|e].
  - destruct (sampleNext Math_exp Math_log Math_cos rand w results
                (temperatureSlider s) (randomCalls s))
      as [[nextPose|e] n'].
    + split; [reflexivity|]. right.
      exists (reshapeKeypoints nextPose). reflexivity.
    + split; [|left];
        destruct s as [? ? [id|] ? ? ? ? ? ? ? ? ? ? ?]; reflexivity.
  - split; [|left];
      destruct s as [? ? [id|] ? ? ? ? ? ? ? ? ? ? ?]; reflexivity.
Qed.

Lemma runGenerationStep_fields (w : window) (s : App) :
  poseHistory (runGenerationStep w s) = poseHistory s
  /\ (awaiting (runGenerationStep w s) = awaiting s
      \/ (w <> [] /\ awaiting (runGenerationStep w s) = awaiting s ++ [w])).
Proof.
  unfold runGenerationStep.
  destruct (isGenerating s); simpl; [|now split; [|left]].
  destruct w as [|first rest].
  - split; [|left];
      destruct s as [? ? [id|] ? ? ? ? ? ? ? ? ? ? ?]; reflexivity.
  - split; [reflexivity|]. right. split; [discriminate | reflexivity].
Qed.

Lemma Forall_remove_nth {A} (P : A -> Prop) (k : nat) (l : list A) :
  Forall P l -> Forall P (remove_nth k l).
Proof.
  intros H. revert k.
  induction H as [|x rest Hx Hrest IH]; intros [|k]; unfold remove_nth;
    simpl; try constructor; auto.
  apply (IH k).
Qed.

Lemma wellFormed_step (history history' : list pose)
    (pending pending' : list window) (w : window) :
  (length history <= MAX_HISTORY)%nat ->
  Forall (fun w : window => w <> []) pending ->
  (history' = history \/ history' = []
   \/ exists newPose, history' = pushHistory newPose history) ->
  (pending' = pending \/ (w <> [] /\ pending' = pending ++ [w])) ->
  (length history' <= MAX_HISTORY)%nat
  /\ Forall (fun w : window => w <> []) pending'.
Proof.
  intros Hh Hp Hh' Hp'. split.
  - destruct Hh' as [-> | [-> | (newPose & ->)]];
      [exact Hh | unfold MAX_HISTORY; simpl; lia |].
    now apply pushHistory_bounded.
  - destruct Hp' as [-> | (Hw & ->)]; [exact Hp|].
    apply Forall_app. split; [exact Hp | now constructor].
Qed.

(** Every event keeps the page well formed. *)
Lemma handle_wellFormed (s : App) (e : event) :
  wellFormed s -> wellFormed (handle' s e).
Proof.
  intros [Hh Hp]. unfold wellFormed, handle', handle.
  destruct e as [| |t|k settled|k|k| |].
  - unfold generateClicked, startGeneration.
    destruct (session s); simpl; [|now split].
    destruct (isGenerating s) eqn:Hgen; [now split|].
    destruct (seedSequence s) as [seed|]; [|now split].
    simpl.
    destruct (runGenerationStep_fields seed
                (set_poseHistory [] (set_isGenerating true s)))
      as [Hph Haw].
    rewrite Hph.
    apply (wellFormed_step (poseHistory s) _ (awaiting s) _ seed Hh Hp);
      [right; left; reflexivity | exact Haw].
  - destruct (stopGeneration_fields s) as (_ & -> & _ & _ & -> & _).
    now split.
  - now split.
  - destruct (nth_error (awaiting s) k) as [w|]; [|now split].
    destruct (resumeGenerationStep_fields w settled
                (set_awaiting (remove_nth k (awaiting s)) s))
      as [Haw Hph].
    change (resumeGenerationStep Math_exp Math_log Math_cos Math_pow rand)
      with resumeGenerationStep'.
    rewrite Haw.
    apply (wellFormed_step (poseHistory s) _
             (remove_nth k (awaiting s)) _ w Hh);
      [now apply Forall_remove_nth | | now left].
    destruct Hph as [-> | (newPose & ->)];
      [now left | right; right; now exists newPose].
  - destruct (nth_error (timers s) k) as [w|]; now split.
  - destruct (nth_error (frames s) k) as [[id w]|]; [|now split].
    destruct (runGenerationStep_fields w
                (set_frames (remove_nth k (frames s)) s)) as [Hph Haw].
    rewrite Hph.
    apply (wellFormed_step (poseHistory s) _ (awaiting s) _ w Hh Hp);
      [left; reflexivity | exact Haw].
  - unfold redraw. destruct (currentSequence s); now split.
  - unfold redraw. destruct (currentSequence s); now split.
Qed.

(** From the initialized page on, the page is well formed after every
    sequence of events. *)
Lemma run_wellFormed (seed : window) (temperature : float)
    (es : list event) :
  wellFormed (run' (initialized seed temperature) es).
Proof.
  assert (Hgen : forall es s, wellFormed s -> wellFormed (run' s es)).
  { clear es. induction es as [|e es IH]; intros s Hs; [exact Hs|].
    apply IH. now apply handle_wellFormed. }
  apply Hgen. split; [unfold MAX_HISTORY; simpl; lia | constructor].
Qed.

Lemma handle_TimerFired (s : App) (k : nat) (w : window) :
  nth_error (timers s) k = Some w ->
  handle' s (TimerFired k)
  = timerCallback w (set_timers (remove_nth k (timers s)) s).
Proof. intros H. unfold handle', handle. now rewrite H. Qed.

Lemma handle_FrameFired (s : App) (k id : nat) (w : window) :
  nth_error (frames s) k = Some (id, w) ->
  handle' s (FrameFired k)
  = runGenerationStep w (set_frames (remove_nth k (frames s)) s).
Proof. intros H. unfold handle', handle. now rewrite H. Qed.


(** The only windows a step advances are those of at least one entry: a
    resumed step either schedules nothing, or it holds such a window and
    schedules its successor with that window advanced by the sample. *)
Lemma resumeGenerationStep_window (w : window)
    (settled : completion Prediction) (s : App) :
  timers (resumeGenerationStep' w settled s) = timers s
  \/ (w <> []
      /\ exists nextPose,
           timers (resumeGenerationStep' w settled s)
           = timers s ++ [advance w nextPose]).
Proof.
  unfold resumeGenerationStep', resumeGenerationStep, try_catch, bind, ret.
  destruct settled as [results|e].
  - destruct w as [|first rest].
    + left. simpl.
      destruct s as [? ? [id|] ? ? ? ? ? ? ? ? ? ? ?]; reflexivity.
    + destruct (sampleNext Math_exp Math_log Math_cos rand (first :: rest)
                  results (temperatureSlider s) (randomCalls s))
        as [[nextPose|e] n'].
      * right. split; [discriminate|]. now exists nextPose.
      * left. destruct s as [? ? [id|] ? ? ? ? ? ? ? ? ? ? ?]; reflexivity.
  - left. destruct s as [? ? [id|] ? ? ? ? ? ? ? ? ? ? ?]; reflexivity.
Qed.

(** C7.  Advancing a window drops entry 0 and appends the new vector.  A
    step advances its window only when the window has at least one entry
    (an empty one makes the step fail before), and for such a window: one
    advance moves every surviving entry one place down and puts the new
    vector last; after any number N of advances the length is the same, the
    window is the seed followed by the appended vectors with the first N
    entries removed, in the same order, and its last entry is the N-th
    appended vector. *)
Theorem advance_drops_oldest_appends_newest (w : window)
    (xs : list (list float)) :
  (forall s settled,
      timers (resumeGenerationStep' w settled s) = timers s
      \/ (w <> []
          /\ exists nextPose,
               timers (resumeGenerationStep' w settled s)
               = timers s ++ [advance w nextPose]
               /\ length (advance w nextPose) = length w))
  /\ (w <> [] ->
      let w' := fold_left advance xs w in
      (forall x, advance w x = tl w ++ [x]
                 /\ length (advance w x) = length w
                 /\ (forall i, (S i < length w)%nat ->
                               nth_error (advance w x) i = nth_error w (S i))
                 /\ nth_error (advance w x) (length w - 1) = Some x)
      /\ length w' = length w
      /\ w' = skipn (length xs) (w ++ xs)
      /\ (forall i, nth_error w' i = nth_error (w ++ xs) (length xs + i))
      /\ (forall d, xs <> [] -> last w' d = last xs d)).
Proof.
  split.
  - intros s settled.
    destruct (resumeGenerationStep_window w settled s)
      as [Hsame | (Hw & nextPose & Hadv)]; [now left|].
    right. split; [exact Hw|]. exists nextPose.
    split; [exact Hadv | now apply advance_length].
  - apply advances_spec.
Qed.

End LoopFacts.

(** ** The weights of the component draw *)

Lemma map_idx_seq (a : list float) :
  map (idx a) (seq 0 (length a)) = a.
Proof.
  induction a as [|x rest IH]; [reflexivity|].
  simpl. rewrite <- seq_shift, map_map. simpl. f_equal. exact IH.
Qed.

Section RealSoftmax.

Local Open Scope R_scope.

Lemma fold_left_Rplus_ge (l : list R) :
  Forall (fun x => 0 < x) l ->
  forall acc, acc <= fold_left Rplus l acc.
Proof.
  induction 1 as [|x rest Hx _ IH]; intros acc; simpl; [lra|].
  specialize (IH (acc + x)). lra.
Qed.

Lemma fold_left_Rplus_div (s : R) (l : list R) :
  forall acc,
    fold_left Rplus (map (fun w => w / s) l) (acc / s)
    = fold_left Rplus l acc / s.
Proof.
  induction l as [|x rest IH]; intros acc; simpl; [reflexivity|].
  rewrite <- IH. f_equal. unfold Rdiv. lra.
Qed.

(** Over the real numbers the softmax of at least one logit sums to 1,
    whatever value is subtracted before exponentiating. *)
Lemma softmax_real_sums_to_one (maximum : list R -> R) (logits : list R) :
  logits <> [] ->
  fold_left Rplus (softmax_over Rplus Rminus Rdiv 0 exp maximum logits) 0
  = 1.
Proof.
  intros Hne. unfold softmax_over, expLogits_over.
  set (exps := map (fun s => exp (s - maximum logits)) logits).
  assert (Hpos : Forall (fun x => 0 < x) exps).
  { unfold exps. apply Forall_forall. intros x Hx.
    apply in_map_iff in Hx. destruct Hx as (s & <- & _). apply exp_pos. }
  assert (Hsum : 0 < fold_left Rplus exps 0).
  { destruct logits as [|s rest]; [congruence|].
    unfold exps in *. simpl in *.
    inversion Hpos as [|? ? Hx Hrest]; subst.
    pose proof (fold_left_Rplus_ge _ Hrest (0 + exp (s - maximum (s :: rest)))).
    lra. }
  replace 0 with (0 / fold_left Rplus exps 0) at 1
    by (unfold Rdiv; lra).
  rewrite fold_left_Rplus_div. field. lra.
Qed.

End RealSoftmax.

Section WeightFacts.

Variable Math_exp : float -> float.

Let mixtureWeights' := mixtureWeights Math_exp.

Lemma mixtureWeights_length (pi : list float) (numMixtures : nat)
    (temperature : float) :
  length (mixtureWeights' pi numMixtures temperature) = numMixtures.
Proof.
  unfold mixtureWeights', mixtureWeights, softmax, softmax_over,
    expLogits_over, scaleLogits.
  destruct (negb _); now rewrite ?length_map, length_seq.
Qed.

(** C9 (as amended).  With [temperature === 1] the weights of the draw are
    the entries of [pi], copied as they are: no division, no
    exponential.  With any other temperature each entry is divided by the
    temperature, the largest quotient is subtracted, and every exponential
    is divided by the sum of the exponentials, added in index order from
    0.  Read over the real numbers, that vector sums to 1 as soon as there
    is one component. *)
Theorem mixtureWeights_by_temperature (pi : list float)
    (numMixtures : nat) (temperature : float) :
  length pi = numMixtures ->
  mixtureWeights' pi numMixtures 1 = pi
  /\ (strict_eq temperature 1 = false ->
      let scaledPi := map (fun w => w / temperature) pi in
      let maxLogit := Math_max scaledPi in
      let exps := map (fun s => Math_exp (s - maxLogit)) scaledPi in
      let sumExp := fold_left add exps 0 in
      mixtureWeights' pi numMixtures temperature
      = map (fun e => e / sumExp) exps)
  /\ length (mixtureWeights' pi numMixtures temperature) = numMixtures
  /\ (forall (maximum : list R -> R) (logits : list R),
        logits <> [] ->
        fold_left Rplus
          (softmax_over Rplus Rminus Rdiv 0%R exp maximum logits) 0%R
        = 1%R).
Proof.
  intros Hlen. subst numMixtures.
  split; [|split; [|split]].
  - unfold mixtureWeights', mixtureWeights.
    change (strict_eq 1 1.0) with true. simpl negb. cbv iota.
    apply map_idx_seq.
  - intros Hne. unfold mixtureWeights', mixtureWeights. rewrite Hne.
    simpl negb. cbv iota.
    unfold softmax, softmax_over, expLogits_over, scaleLogits.
    assert (Hscaled : map (fun i => idx pi i / temperature)
                        (seq 0 (length pi))
                      = map (fun w => w / temperature) pi).
    { rewrite <- (map_idx_seq pi) at 2. now rewrite map_map. }
    now rewrite Hscaled.
  - apply mixtureWeights_length.
  - apply softmax_real_sums_to_one.
Qed.

End WeightFacts.

(** ** The sampler with the engine's limits *)

Section LimitFacts.

Variables Math_exp Math_log Math_cos : float -> float.
Variable rand : nat -> float.
Variable argumentLimit : nat.

Let sampleFromMixture' := sampleFromMixture Math_exp Math_log Math_cos rand.
Let sampleFromCategorical_limited' :=
  sampleFromCategorical_limited rand argumentLimit.
Let mixtureWeights_limited' := mixtureWeights_limited Math_exp argumentLimit.
Let sampleFromMixture_limited' :=
  sampleFromMixture_limited Math_exp Math_log Math_cos rand argumentLimit.
Let sampleNext' := sampleNext Math_exp Math_log Math_cos rand.
Let sampleNext_limited' :=
  sampleNext_limited Math_exp Math_log Math_cos rand argumentLimit.

(** The categorical draw: the loop's index, or the fallback, whose spread
    call throws on an array longer than the engine takes. *)
Lemma sampleFromCategorical_limited_run (probs : list float) (n : nat) :
  sampleFromCategorical_limited' probs n
  = match categoricalLoop (rand n) probs 0%Z 0 with
    | Some i => (Normal i, S n)
    | None =>
        if (length probs <=? argumentLimit)%nat
        then (Normal (indexOf probs (Math_max probs)), S n)
        else (Throw RangeError, S n)
    end.
Proof.
  unfold sampleFromCategorical_limited', sampleFromCategorical_limited,
    bind, Math_random, spreadArguments.
  destruct (categoricalLoop (rand n) probs 0 0); [reflexivity|].
  now destruct (length probs <=? argumentLimit)%nat.
Qed.

Lemma mixtureWeights_limited_run (pi : list float) (numMixtures : nat)
    (temperature : float) (n : nat) :
  mixtureWeights_limited' pi numMixtures temperature n
  = if (isArrayLength numMixtures
        && (strict_eq temperature 1.0
            || (numMixtures <=? argumentLimit)%nat))%bool
    then (Normal (mixtureWeights Math_exp pi numMixtures temperature), n)
    else (Throw RangeError, n).
Proof.
  unfold mixtureWeights_limited', mixtureWeights_limited, mixtureWeights,
    bind, newArray, spreadArguments.
  destruct (isArrayLength numMixtures); [|reflexivity]. cbn [ret throw andb].
  destruct (strict_eq temperature 1.0); cbn [negb orb]; [reflexivity|].
  unfold scaleLogits at 1. rewrite length_map, length_seq.
  now destruct (numMixtures <=? argumentLimit)%nat.
Qed.

(** Whatever the sampler with the limits does, it either does what the
    sampler without them does, or it throws a [RangeError] and one of the
    sizes is beyond its limit. *)
Lemma sampleFromMixture_limited_outcome (pi mu sigma : list float)
    (outputSize numMixtures : nat) (temperature : float) (n : nat) :
  sampleFromMixture_limited' pi mu sigma outputSize numMixtures temperature n
  = sampleFromMixture' pi mu sigma outputSize numMixtures temperature n
  \/ (exists n',
        sampleFromMixture_limited' pi mu sigma outputSize numMixtures
          temperature n = (Throw RangeError, n'))
     /\ (isArrayLength numMixtures = false
         \/ isArrayLength outputSize = false
         \/ (argumentLimit < numMixtures)%nat).
Proof.
  unfold sampleFromMixture_limited', sampleFromMixture_limited, bind.
  fold mixtureWeights_limited'. rewrite mixtureWeights_limited_run.
  destruct (isArrayLength numMixtures) eqn:HM;
    [|right; split; [now exists n | now left]].
  cbn [andb].
  assert (Hlen : length (mixtureWeights Math_exp pi numMixtures temperature)
                 = numMixtures) by apply mixtureWeights_length.
  destruct (strict_eq temperature 1.0 || (numMixtures <=? argumentLimit)%nat)
    eqn:Hweights.
  - fold sampleFromCategorical_limited'.
    rewrite sampleFromCategorical_limited_run, Hlen.
    unfold sampleFromMixture', sampleFromMixture, sampleFromCategorical,
      categoricalChoice, Math_random, newArray, bind, ret.
    destruct (categoricalLoop (rand n)
                (mixtureWeights Math_exp pi numMixtures temperature) 0 0)
      as [i|].
    + destruct (isArrayLength outputSize) eqn:HD; [now left|].
      right. split; [now exists (S n) | now right; left].
    + destruct (Nat.leb_spec numMixtures argumentLimit) as [Hle | Hgt].
      * destruct (isArrayLength outputSize) eqn:HD; [now left|].
        right. split; [now exists (S n) | now right; left].
      * right. split; [now exists (S n) | now right; right].
  - apply orb_false_iff in Hweights as [_ Hgt].
    apply Nat.leb_gt in Hgt.
    right. split; [now exists n | now right; right].
Qed.

(** On what it returns, the sampler with the limits agrees with the sampler
    without them. *)
Lemma sampleFromMixture_limited_agrees (pi mu sigma : list float)
    (outputSize numMixtures : nat) (temperature : float) (n : nat)
    (sample : list float) (n' : nat) :
  sampleFromMixture_limited' pi mu sigma outputSize numMixtures temperature n
  = (Normal sample, n') ->
  sampleFromMixture' pi mu sigma outputSize numMixtures temperature n
  = (Normal sample, n').
Proof.
  intros Hrun.
  destruct (sampleFromMixture_limited_outcome pi mu sigma outputSize
              numMixtures temperature n) as [Heq | [(m & Hthrow) _]].
  - now rewrite <- Heq.
  - rewrite Hthrow in Hrun. discriminate Hrun.
Qed.

(** Within the limits the two are one. *)
Lemma sampleFromMixture_limited_within (pi mu sigma : list float)
    (outputSize numMixtures : nat) (temperature : float) (n : nat) :
  isArrayLength numMixtures = true ->
  isArrayLength outputSize = true ->
  (numMixtures <= argumentLimit)%nat ->
  sampleFromMixture_limited' pi mu sigma outputSize numMixtures temperature n
  = sampleFromMixture' pi mu sigma outputSize numMixtures temperature n.
Proof.
  intros HM HD Hle.
  destruct (sampleFromMixture_limited_outcome pi mu sigma outputSize
              numMixtures temperature n) as [Heq | [_ [H | [H | H]]]];
    [exact Heq | congruence | congruence | lia].
Qed.

Lemma sampleNext_limited_agrees (w : window) (results : Prediction)
    (temperature : float) (n : nat) (nextPose : list float) (n' : nat) :
  sampleNext_limited' w results temperature n = (Normal nextPose, n') ->
  sampleNext' w results temperature n = (Normal nextPose, n').
Proof.
  unfold sampleNext_limited', sampleNext_limited, sampleNext', sampleNext.
  destruct w as [|first rest]; [intros H; exact H|].
  apply sampleFromMixture_limited_agrees.
Qed.

(** C2 (as amended).  [sampleFromMixture] validates nothing about the
    mixture.  Whenever the number of components and the output size are
    array lengths and the components are no more than the engine takes as
    arguments, it returns a vector of [outputSize] entries: for all weights,
    means and standard deviations (negative ones included), for zero
    components and for output size zero.  The only error it throws is the
    engine's [RangeError], and only when one of the two sizes is beyond
    these limits. *)
Theorem sampleFromMixture_throws_only_on_size (pi mu sigma : list float)
    (outputSize numMixtures : nat) (temperature : float) (n : nat) :
  (isArrayLength numMixtures = true ->
   isArrayLength outputSize = true ->
   (numMixtures <= argumentLimit)%nat ->
   ~ fails (sampleFromMixture_limited' pi mu sigma outputSize numMixtures
              temperature n)
   /\ exists sample n',
        sampleFromMixture_limited' pi mu sigma outputSize numMixtures
          temperature n = (Normal sample, n')
        /\ length sample = outputSize)
  /\ (forall e n',
        sampleFromMixture_limited' pi mu sigma outputSize numMixtures
          temperature n = (Throw e, n') ->
        e = RangeError
        /\ (isArrayLength numMixtures = false
            \/ isArrayLength outputSize = false
            \/ (argumentLimit < numMixtures)%nat))
  /\ (forall sample n',
        sampleFromMixture_limited' pi mu sigma outputSize numMixtures
          temperature n = (Normal sample, n') ->
        length sample = outputSize).
Proof.
  destruct (sampleFromMixture_normal Math_exp Math_log Math_cos rand pi mu
              sigma outputSize numMixtures temperature n)
    as (sample & n' & Hrun & Hlen).
  fold sampleFromMixture' in Hrun.
  split; [|split].
  - intros HM HD Hle.
    rewrite (sampleFromMixture_limited_within pi mu sigma outputSize
               numMixtures temperature n HM HD Hle).
    split; [|now exists sample, n'].
    intros (e & m & He). rewrite Hrun in He. discriminate He.
  - intros e m He.
    destruct (sampleFromMixture_limited_outcome pi mu sigma outputSize
                numMixtures temperature n) as [Heq | [(m' & Hthrow) Hsize]].
    + rewrite Heq, Hrun in He. discriminate He.
    + rewrite Hthrow in He. injection He as <- _. now split.
  - intros sample0 m Hret.
    apply sampleFromMixture_limited_agrees in Hret.
    rewrite Hrun in Hret. now injection Hret as <- _.
Qed.

(** C6.  On a non-empty array of non-negative numbers the categorical draw
    returns the first index at which the running sum exceeds the drawn
    number, when there is one.  When no running sum does, the fallback
    [probs.indexOf(Math.max(...probs))] passes every entry of the array as
    an argument: it returns the first index holding the largest weight as
    long as the array is no longer than the engine takes as arguments, and
    on a longer array it throws a [RangeError]. *)
Theorem sampleFromCategorical_fallback_overflows (probs : list float)
    (n : nat) :
  probs <> [] ->
  Forall nonNegative probs ->
  (forall i : nat,
     (i < length probs)%nat ->
     (rand n <? cumulativeSum probs i) = true ->
     (forall k, (k < i)%nat -> (rand n <? cumulativeSum probs k) = false) ->
     sampleFromCategorical_limited' probs n = (Normal (Z.of_nat i), S n))
  /\ ((forall k, (k < length probs)%nat ->
                 (rand n <? cumulativeSum probs k) = false) ->
      ((length probs <= argumentLimit)%nat ->
       exists i : nat,
         sampleFromCategorical_limited' probs n
         = (Normal (Z.of_nat i), S n)
         /\ (i < length probs)%nat
         /\ Z.of_nat i = indexOf probs (Math_max probs)
         /\ strict_eq (idx probs i) (Math_max probs) = true
         /\ Forall (fun p => (p <=? idx probs i) = true) probs
         /\ forall k, (k < i)%nat ->
                      strict_eq (idx probs k) (Math_max probs) = false)
      /\ ((argumentLimit < length probs)%nat ->
          sampleFromCategorical_limited' probs n
          = (Throw RangeError, S n))).
Proof.
  intros Hne Hall.
  rewrite sampleFromCategorical_limited_run.
  pose proof (categoricalLoop_spec (rand n) probs 0%Z 0) as Hloop.
  fold (cumulativeSum probs) in Hloop.
  split.
  - intros i Hi Hexceeds Hfirst.
    destruct (categoricalLoop (rand n) probs 0 0) as [j|].
    + destruct Hloop as (k & -> & Hk & Hexceeds' & Hfirst').
      destruct (Nat.lt_trichotomy k i) as [Hlt | [-> | Hgt]];
        [|reflexivity|].
      * specialize (Hfirst k Hlt). unfold cumulativeSum in Hfirst.
        congruence.
      * specialize (Hfirst' i Hgt). unfold cumulativeSum in Hexceeds.
        congruence.
    + specialize (Hloop i Hi). unfold cumulativeSum in Hexceeds. congruence.
  - intros Hnone.
    destruct (categoricalLoop (rand n) probs 0 0) as [j|].
    { destruct Hloop as (k & _ & Hk & Hexceeds & _).
      specialize (Hnone k Hk). unfold cumulativeSum in Hnone. congruence. }
    split.
    + intros Hle. apply Nat.leb_le in Hle. rewrite Hle.
      destruct (Math_max_nonNegative probs Hne Hall) as (Hnum & Hin & Hmax).
      destruct (indexOfFrom_spec probs (Math_max probs) 0%Z)
        as [[_ Habs] | (k & Hk & Hlen & Heq & Hfirst)].
      * specialize (Habs _ Hin). unfold strict_eq in Habs.
        unfold is_number in Hnum. congruence.
      * exists k. unfold indexOf. rewrite Hk.
        split; [reflexivity|]. split; [exact Hlen|].
        split; [reflexivity|]. split; [exact Heq|]. split; [|exact Hfirst].
        eapply Forall_impl; [|exact Hmax].
        intros p Hp. eapply leb_trans; [exact Hp|].
        now apply eqb_leb_sym.
    + intros Hgt. apply Nat.leb_gt in Hgt. now rewrite Hgt.
Qed.

End LimitFacts.

(** * The statements on concrete inputs *)

Ltac differ_by test :=
  let H := fresh in
  intros H; apply (f_equal test) in H; vm_compute in H; discriminate H.

(** ** C1 *)

(** What the demo page holds once the stop button was clicked during the
    inference call and the call then resolved: the window was advanced, a
    pose was emitted after the seed pose, the history has an entry. *)
Example stop_while_awaiting_trace :
  let after := Demo.run Demo.started
                 [StopClicked; InferenceSettled 0 (Normal Demo.prediction)] in
  awaiting Demo.started = [Demo.seed]
  /\ timers Demo.started = [] /\ timers after = [[[3; 4]; [100; 200]]]
  /\ drawn Demo.started = [[(3, 4)]]
  /\ drawn after = [[(3, 4)]; [(100, 200)]]
  /\ poseHistory Demo.started = []
  /\ poseHistory after = [[(100, 200)]].
Proof. vm_compute. repeat split. Qed.



(** ** C2 *)

(** C2, as the specification states it, fails: with zero components, with
    output size zero, and with a negative standard deviation the mixture is
    malformed, and [sampleFromMixture] returns all the same: [NaN; NaN], the
    empty vector, and [98.82...; 200]. *)
Lemma sampleFromMixture_malformed_returns :
  ~ (fails (Demo.sampleFromMixture_limited [] [] [] 2%nat 0%nat 1 0%nat)
     <-> malformedMixture [] 2 0)
  /\ ~ (fails (Demo.sampleFromMixture_limited [1] [] [] 0%nat 1%nat 1 0%nat)
        <-> malformedMixture [] 0 1)
  /\ ~ (fails (Demo.sampleFromMixture_limited [1] [100; 200] [-1; 0]
                 2%nat 1%nat 1 0%nat)
        <-> malformedMixture [-1; 0] 2 1).
Proof.
  split; [|split]; intros [_ Himp].
  - destruct Himp as (e & n & He); [now left|].
    vm_compute in He. discriminate He.
  - destruct Himp as (e & n & He); [now right; left|].
    vm_compute in He. discriminate He.
  - destruct Himp as (e & n & He).
    + right; right. exists (-1). split; [now left | reflexivity].
    + vm_compute in He. discriminate He.
Qed.

(** ** C3 *)

(** C3, as the specification states it, fails: with the history holding the
    pose (10, 10) of the step before, the new pose (20, 20) is smoothed to
    (17, 17), against a history that already starts with (20, 20) itself;
    smoothed against the history of the earlier steps it would be
    (14, 14). *)
Lemma smoothStep_is_not_smoothThenPush :
  smoothStep Tabulated.Math_pow [[(10, 10)]] [(20, 20)]
  <> smoothThenPush Tabulated.Math_pow [[(10, 10)]] [(20, 20)].
Proof.
  differ_by (fun r : list pose * pose =>
               match snd r with
               | [(x, _)] => x =? 17
               | _ => false
               end).
Qed.

Lemma smoothStep_pushes_before_smoothing_witness :
  (length [[(10, 10)]] <= MAX_HISTORY)%nat
  /\ (let consulted := [(20, 20)] :: firstn 4 [[(10, 10)]] in
      smoothStep Tabulated.Math_pow [[(10, 10)]] [(20, 20)]
      = (consulted, smoothPose Tabulated.Math_pow consulted [(20, 20)])
      /\ nth_error consulted 0 = Some [(20, 20)]
      /\ (length consulted <= MAX_HISTORY)%nat).
Proof.
  split; [unfold MAX_HISTORY; simpl; lia|].
  apply (smoothStep_pushes_before_smoothing Tabulated.Math_pow
           [[(10, 10)]] [(20, 20)]).
  unfold MAX_HISTORY. simpl. lia.
Defined.

(** ** C4 *)

(** C4, as the specification states it, fails: against the history
    (20, 40) (most recent), (40, 80) the keypoint (10, 10) is smoothed to
    (23.2, 43.6), the entries being applied most recent first; applied
    oldest first they would give (19.6, 36.4). *)
Lemma smoothPose_is_not_oldest_first :
  nth_error (smoothPose Tabulated.Math_pow [[(20, 40)]; [(40, 80)]]
               [(10, 10)]) 0
  <> Some (historyLoop_oldest_first Tabulated.Math_pow
             [[(20, 40)]; [(40, 80)]] 0 0 (10, 10)).
Proof.
  differ_by (fun o : option keypoint =>
               match o with
               | Some (x, _) => x <? 20
               | None => false
               end).
Qed.

Lemma smoothPose_blends_most_recent_first_witness :
  nth_error [(10, 10)] 0 = Some (10, 10)
  /\ isMissing (10, 10) = false
  /\ nth_error (smoothPose Tabulated.Math_pow [[(20, 40)]; [(40, 80)]]
                  [(10, 10)]) 0
     = Some (fold_left (historyStep Tabulated.Math_pow 0)
               (combine (seq 0 2) [[(20, 40)]; [(40, 80)]]) (10, 10)).
Proof.
  split; [reflexivity|]. split; [reflexivity|].
  apply (smoothPose_blends_most_recent_first Tabulated.Math_pow
           [[(20, 40)]; [(40, 80)]] [(10, 10)] 0 (10, 10));
    reflexivity.
Defined.

(** ** C5 *)

(** With a random source that returns 0, the Gaussian draw of mean 100 and
    deviation 1 evaluates [Math.log(0)], which is -Infinity, and returns
    Infinity. *)
Example sampleFromGaussian_at_zero_draw :
  sampleFromGaussian Tabulated.Math_log Tabulated.Math_cos
    (Tabulated.cycle [0]) 100 1 0%nat
  = (Normal infinity, 2%nat).
Proof. reflexivity. Qed.

Lemma sampleFromGaussian_log_of_zero_witness :
  Tabulated.cycle [0] 0 = 0
  /\ sampleFromGaussian Tabulated.Math_log Tabulated.Math_cos
       (Tabulated.cycle [0]) 100 1 0%nat
     = (Normal (100 + 1 * (PrimFloat.sqrt (-2.0 * Tabulated.Math_log 0)
                           * Tabulated.Math_cos
                               (2.0 * Math_PI * Tabulated.cycle [0] 1))),
        2%nat).
Proof.
  split; [reflexivity|].
  apply (sampleFromGaussian_log_of_zero Tabulated.Math_log
           Tabulated.Math_cos (Tabulated.cycle [0]) 100 1 0).
  reflexivity.
Defined.

(** ** C6 *)

(** The weights (0.5, 0.25) and the draw 0.75: no running sum exceeds the
    draw, and the index returned is that of the largest weight. *)
Example sampleFromCategorical_fallback :
  sampleFromCategorical_limited (Tabulated.cycle [0.75])
    Tabulated.argumentLimit [0.5; 0.25] 0%nat
  = (Normal 0%Z, 1%nat)
  /\ categoricalLoop 0.75 [0.5; 0.25] 0%Z 0 = None.
Proof. split; vm_compute; reflexivity. Qed.

(** The running sums of an array of zeros are zero. *)
Lemma cumulativeSum_zeros (len k : nat) :
  cumulativeSum (repeat 0 len) k = 0.
Proof.
  unfold cumulativeSum. generalize (S k). clear k. intros m.
  revert len. induction m as [|m IH]; intros [|len]; try reflexivity.
  cbn [repeat firstn fold_left]. change (0 + 0) with 0. apply IH.
Qed.

(** An array of zeros with one entry more than the engine takes as
    arguments: it is not empty, its entries are not negative, no running
    sum exceeds the draw 0.25, and the fallback throws. *)
Lemma sampleFromCategorical_fallback_overflows_witness :
  let probs := repeat 0 (S Tabulated.argumentLimit) in
  probs <> []
  /\ Forall nonNegative probs
  /\ (forall k, (k < length probs)%nat ->
                (Demo.draws 0 <? cumulativeSum probs k) = false)
  /\ (Tabulated.argumentLimit < length probs)%nat
  /\ sampleFromCategorical_limited Demo.draws Tabulated.argumentLimit
       probs 0%nat
     = (Throw RangeError, 1%nat).
Proof.
  intros probs.
  assert (Hne : probs <> []) by discriminate.
  assert (Hall : Forall nonNegative probs).
  { apply Forall_forall. intros p Hp. apply repeat_spec in Hp.
    rewrite Hp. reflexivity. }
  assert (Hnone : forall k, (k < length probs)%nat ->
                    (Demo.draws 0 <? cumulativeSum probs k) = false).
  { intros k _. unfold probs. rewrite cumulativeSum_zeros. reflexivity. }
  assert (Hlong : (Tabulated.argumentLimit < length probs)%nat).
  { unfold probs. rewrite repeat_length. apply Nat.lt_succ_diag_r. }
  split; [exact Hne|]. split; [exact Hall|]. split; [exact Hnone|].
  split; [exact Hlong|].
  exact (proj2 (proj2 (sampleFromCategorical_fallback_overflows Demo.draws
                         Tabulated.argumentLimit probs 0 Hne Hall) Hnone)
           Hlong).
Defined.

(** ** C7 *)

Lemma advance_drops_oldest_appends_newest_witness :
  Demo.seed <> []
  /\ (let w' := fold_left advance [[5; 6]; [7; 8]; [9; 10]] Demo.seed in
      length w' = length Demo.seed
      /\ w' = [[7; 8]; [9; 10]]
      /\ last w' [] = [9; 10]).
Proof.
  split; [discriminate|].
  destruct (advance_drops_oldest_appends_newest Tabulated.Math_exp
              Tabulated.Math_log Tabulated.Math_cos Tabulated.Math_pow
              Demo.draws Demo.seed [[5; 6]; [7; 8]; [9; 10]])
    as (_ & Hadvances).
  destruct Hadvances as (_ & Hlen & Hskip & _ & Hlast).
  - discriminate.
  - split; [exact Hlen|]. split; [exact Hskip|].
    apply Hlast. discriminate.
Defined.

(** ** C8 *)

Lemma smoothPose_missing_stays_missing_witness :
  nth_error [(0, 0); (1, 1)] 0 = Some (0, 0)
  /\ isMissing (0, 0) = true
  /\ exists out,
       nth_error (smoothPose Tabulated.Math_pow [[(5, 5); (6, 6)]]
                    [(0, 0); (1, 1)]) 0 = Some out
       /\ isMissing out = true
       /\ (out = (0, 0) \/ out = (0, 0))
       /\ ((0, 0) = (0, 0) -> out = (0, 0)).
Proof.
  split; [reflexivity|]. split; [reflexivity|].
  apply (smoothPose_missing_stays_missing Tabulated.Math_pow
           [[(5, 5); (6, 6)]] [(0, 0); (1, 1)] 0 (0, 0));
    reflexivity.
Defined.

(** ** C9 *)

(** C9, as the specification states it, fails in its last part: at
    temperature 2, ten equal logits give ten weights 0.1, whose sum is
    0.99999999999999989 as the doubles add them and 1 + 2^-54 exactly; and
    with no component the vector is empty and its sum is 0. *)
Lemma softmax_weights_do_not_sum_to_one :
  strict_eq 2 1 = false
  /\ ~ sumsToOne (mixtureWeights Tabulated.Math_exp (repeat 0 10) 10 2)
  /\ ~ sumsToOne (mixtureWeights Tabulated.Math_exp [] 0 2).
Proof.
  split; [reflexivity|].
  split; intros [Hdouble | Hexact].
  - revert Hdouble. differ_by (fun x => x =? 1).
  - apply Qeq_bool_iff in Hexact. vm_compute in Hexact. discriminate Hexact.
  - revert Hdouble. differ_by (fun x => x =? 1).
  - apply Qeq_bool_iff in Hexact. vm_compute in Hexact. discriminate Hexact.
Qed.

Lemma mixtureWeights_by_temperature_witness :
  length [0.5; 0.5; 0.5] = 3%nat
  /\ mixtureWeights Tabulated.Math_exp [0.5; 0.5; 0.5] 3 1
     = [0.5; 0.5; 0.5]
  /\ (strict_eq 2 1 = false ->
      let scaledPi := map (fun w => w / 2) [0.5; 0.5; 0.5] in
      let maxLogit := Math_max scaledPi in
      let exps :=
        map (fun s => Tabulated.Math_exp (s - maxLogit)) scaledPi in
      let sumExp := fold_left add exps 0 in
      mixtureWeights Tabulated.Math_exp [0.5; 0.5; 0.5] 3 2
      = map (fun e => e / sumExp) exps)
  /\ length (mixtureWeights Tabulated.Math_exp [0.5; 0.5; 0.5] 3 2)
     = 3%nat
  /\ (forall (maximum : list R -> R) (logits : list R),
        logits <> [] ->
        fold_left Rplus
          (softmax_over Rplus Rminus Rdiv 0%R exp maximum logits) 0%R
        = 1%R).
Proof.
  split; [reflexivity|].
  apply (mixtureWeights_by_temperature Tabulated.Math_exp
           [0.5; 0.5; 0.5] 3 2).
  reflexivity.
Defined.


(** * Further properties of the code *)

(** ** [reshapeKeypoints] *)

Lemma reshapeKeypoints_facts (n : nat) :
  forall flat : list float,
    (length flat <= n)%nat ->
    length (reshapeKeypoints flat) = Nat.div2 (S (length flat))
    /\ (Nat.even (length flat) = true ->
        flattenKeypoints (reshapeKeypoints flat) = flat)
    /\ (forall i, (2 * i < length flat)%nat ->
          nth_error (reshapeKeypoints flat) i
          = Some (idx flat (2 * i), idx flat (2 * i + 1))).
Proof.
  induction n as [|n IH]; intros flat Hlen.
  - destruct flat; [|simpl in Hlen; lia].
    repeat split; simpl; intros; try reflexivity; lia.
  - destruct flat as [|x [|y rest]].
    + repeat split; simpl; intros; try reflexivity; lia.
    + repeat split; simpl; try discriminate.
      intros [|i] Hi; [reflexivity | lia].
    + destruct (IH rest) as (Hl & Hflat & Hnth); [simpl in Hlen; lia|].
      split; [|split].
      * change (reshapeKeypoints (x :: y :: rest))
          with ((x, y) :: reshapeKeypoints rest).
        cbn [length]. rewrite Hl. reflexivity.
      * intros Heven.
        change (reshapeKeypoints (x :: y :: rest))
          with ((x, y) :: reshapeKeypoints rest).
        unfold flattenKeypoints in *. cbn [flat_map fst snd app].
        f_equal. f_equal. apply Hflat. exact Heven.
      * intros [|i] Hi; [reflexivity|].
        change (reshapeKeypoints (x :: y :: rest))
          with ((x, y) :: reshapeKeypoints rest).
        cbn [nth_error]. rewrite Hnth by (cbn [length] in Hi; lia).
        unfold idx.
        replace (2 * S i)%nat with (S (S (2 * i))) by lia.
        replace (S (S (2 * i)) + 1)%nat with (S (S (2 * i + 1))) by lia.
        reflexivity.
Qed.

(** X1.  [reshapeKeypoints] loses nothing of a flat vector of even length:
    keypoint i is the pair (flat[2i], flat[2i+1]), there are length/2
    keypoints, and interleaving the pairs again gives the vector back.  (An
    odd last value is paired with an out-of-range read.) *)
Theorem reshapeKeypoints_lossless (flat : list float) :
  Nat.even (length flat) = true ->
  length (reshapeKeypoints flat) = (length flat / 2)%nat
  /\ flattenKeypoints (reshapeKeypoints flat) = flat
  /\ (forall i, (i < length flat / 2)%nat ->
        nth_error (reshapeKeypoints flat) i
        = Some (idx flat (2 * i), idx flat (2 * i + 1))).
Proof.
  intros Heven.
  destruct (reshapeKeypoints_facts (length flat) flat (le_n _))
    as (Hl & Hflat & Hnth).
  apply Nat.even_spec in Heven. destruct Heven as [k Hk].
  assert (Hdiv : (length flat / 2 = k)%nat)
    by (rewrite Hk, Nat.mul_comm; apply Nat.div_mul; lia).
  split; [|split].
  - rewrite Hl, Hdiv, Hk, Nat.div2_succ_double. reflexivity.
  - apply Hflat. apply Nat.even_spec. now exists k.
  - intros i Hi. apply Hnth. lia.
Qed.

Lemma reshapeKeypoints_lossless_witness :
  Nat.even (length [1; 2; 3; 4]) = true
  /\ length (reshapeKeypoints [1; 2; 3; 4]) = 2%nat
  /\ flattenKeypoints (reshapeKeypoints [1; 2; 3; 4]) = [1; 2; 3; 4].
Proof.
  split; [reflexivity|].
  destruct (reshapeKeypoints_lossless [1; 2; 3; 4] eq_refl)
    as (Hl & Hflat & _).
  split; [exact Hl | exact Hflat].
Defined.

(** ** The sample of [sampleFromMixture] *)

Lemma relative_index_inside (len pos : Z) :
  (0 <= pos <= len)%Z -> relative_index len pos = pos.
Proof. intros H. unfold relative_index. destruct (pos <? 0)%Z eqn:E; lia. Qed.

Lemma componentSlice_inside (a : list float) (c outputSize : nat) :
  ((c + 1) * outputSize <= length a)%nat ->
  componentSlice a (Z.of_nat c) outputSize
  = firstn outputSize (skipn (c * outputSize) a)
  /\ length (componentSlice a (Z.of_nat c) outputSize) = outputSize
  /\ (forall i, (i < outputSize)%nat ->
        idx (componentSlice a (Z.of_nat c) outputSize) i
        = idx a (c * outputSize + i)).
Proof.
  intros Hin.
  assert (Heq : componentSlice a (Z.of_nat c) outputSize
                = firstn outputSize (skipn (c * outputSize) a)).
  { unfold componentSlice, slice.
    rewrite !relative_index_inside by nia.
    replace (Z.to_nat ((Z.of_nat c + 1) * Z.of_nat outputSize
                       - Z.of_nat c * Z.of_nat outputSize))
      with outputSize by nia.
    replace (Z.to_nat (Z.of_nat c * Z.of_nat outputSize))
      with (c * outputSize)%nat by nia.
    reflexivity. }
  rewrite Heq. split; [reflexivity|]. split.
  - apply firstn_length_le. rewrite length_skipn. nia.
  - intros i Hi. unfold idx. rewrite nth_firstn, nth_skipn.
    destruct (Nat.ltb_spec i outputSize); [reflexivity | lia].
Qed.

(** X2.  For a component index c whose block lies inside the array, the
    slice [a.slice(c * D, (c + 1) * D)] has exactly D entries and its entry i
    is a[c * D + i]. *)
Theorem componentSlice_block (a : list float) (c outputSize : nat) :
  ((c + 1) * outputSize <= length a)%nat ->
  componentSlice a (Z.of_nat c) outputSize
  = firstn outputSize (skipn (c * outputSize) a)
  /\ length (componentSlice a (Z.of_nat c) outputSize) = outputSize
  /\ (forall i, (i < outputSize)%nat ->
        idx (componentSlice a (Z.of_nat c) outputSize) i
        = idx a (c * outputSize + i)).
Proof. apply componentSlice_inside. Qed.

Lemma componentSlice_block_witness :
  ((1 + 1) * 2 <= length [10; 20; 30; 40; 50; 60])%nat
  /\ componentSlice [10; 20; 30; 40; 50; 60] 1 2 = [30; 40].
Proof.
  split; [simpl; lia|].
  destruct (componentSlice_block [10; 20; 30; 40; 50; 60] 1 2)
    as (Heq & _); [simpl; lia|].
  exact Heq.
Defined.

Lemma idx_map_seq (f : nat -> float) (len i : nat) :
  (i < len)%nat -> idx (map f (seq 0 len)) i = f i.
Proof.
  intros Hi. unfold idx.
  erewrite nth_error_nth;
    [|rewrite nth_error_map, (nth_error_nth' _ 0%nat);
      [reflexivity | rewrite length_seq; exact Hi]].
  rewrite seq_nth by exact Hi. reflexivity.
Qed.

(** On a non-empty array of non-negative numbers the categorical choice is
    an index of the array, whatever the draw. *)
Lemma categoricalChoice_in_range (r : float) (probs : list float) :
  probs <> [] -> Forall nonNegative probs ->
  exists i : nat,
    categoricalChoice r probs = Z.of_nat i /\ (i < length probs)%nat.
Proof.
  intros Hne Hall. unfold categoricalChoice.
  pose proof (categoricalLoop_spec r probs 0%Z 0) as Hloop.
  destruct (categoricalLoop r probs 0 0) as [i|].
  - destruct Hloop as (k & -> & Hlen & _). now exists k.
  - destruct (Math_max_nonNegative probs Hne Hall) as (Hnum & Hin & _).
    destruct (indexOfFrom_spec probs (Math_max probs) 0%Z)
      as [[_ Hnone] | (k & Hk & Hlen & _)].
    + specialize (Hnone _ Hin). unfold strict_eq in Hnone.
      unfold is_number in Hnum. congruence.
    + exists k. unfold indexOf. now rewrite Hk.
Qed.

(** ** Zero deviation *)

Lemma is_zero_Prim2SF (x : float) :
  (x =? 0) = true <-> exists s, Prim2SF x = S754_zero s.
Proof.
  rewrite FloatAxioms.eqb_spec.
  change (Prim2SF 0) with (S754_zero false).
  destruct (Prim2SF x) as [s|s| |s m e]; simpl; split;
    try discriminate; try (intros [s' H]; discriminate H);
    try (destruct s; discriminate).
  - intros _. now exists s.
  - reflexivity.
Qed.

Lemma is_finite_Prim2SF (x : float) :
  is_finite x = true ->
  (exists s, Prim2SF x = S754_zero s)
  \/ exists s m e, Prim2SF x = S754_finite s m e.
Proof.
  unfold is_finite, is_nan, is_infinity.
  rewrite !FloatAxioms.eqb_spec, abs_spec.
  change (Prim2SF infinity) with (S754_infinity false).
  destruct (Prim2SF x) as [s|[|]| |s m e]; try (vm_compute; discriminate).
  - intros _. left. now exists s.
  - intros _. right. now exists s, m, e.
Qed.

(** A zero times a finite number is a zero. *)
Lemma mul_zero_finite (a b : float) :
  (a =? 0) = true -> is_finite b = true -> (a * b =? 0) = true.
Proof.
  intros Ha Hb. apply is_zero_Prim2SF in Ha. destruct Ha as [sa Ha].
  apply is_zero_Prim2SF. rewrite mul_spec, Ha. unfold SF64mul.
  destruct (is_finite_Prim2SF b Hb) as [[sb ->] | (sb & m & e & ->)];
    simpl; eauto.
Qed.

(** A zero is a binary32 value. *)
Lemma fround_zero (a : float) : (a =? 0) = true -> fround a = a.
Proof.
  intros Ha. apply is_zero_Prim2SF in Ha. destruct Ha as [sa Ha].
  unfold fround. now rewrite Ha.
Qed.

(** Adding a zero to a number gives a number [===] to it, and the very same
    number when it is not a zero itself. *)
Lemma add_zero_r (m z : float) :
  is_number m -> (z =? 0) = true ->
  (m + z =? m) = true /\ ((m =? 0) = false -> m + z = m).
Proof.
  unfold is_number. intros Hm Hz.
  apply is_zero_Prim2SF in Hz. destruct Hz as [sz Hz].
  assert (Hcases :
            SFeqb (SF64add (Prim2SF m) (S754_zero sz)) (Prim2SF m) = true
            /\ (SFeqb (Prim2SF m) (S754_zero false) = false ->
                SF64add (Prim2SF m) (S754_zero sz) = Prim2SF m)).
  { rewrite FloatAxioms.eqb_spec in Hm. unfold SF64add, SFeqb in *.
    destruct (Prim2SF m) as [[|]|[|]| |[|] mm em]; destruct sz; simpl in *;
      try discriminate; split; try reflexivity; try discriminate; auto;
      sf_compare_cases. }
  destruct Hcases as [Heq Hsame]. split.
  - now rewrite FloatAxioms.eqb_spec, add_spec, Hz.
  - intros Hnz. apply Prim2SF_inj. rewrite add_spec, Hz. apply Hsame.
    rewrite FloatAxioms.eqb_spec in Hnz. exact Hnz.
Qed.

Section SampleFacts.

Variables Math_exp Math_log Math_cos : float -> float.
Variable rand : nat -> float.

Let boxMuller' := boxMuller Math_log Math_cos.

(** The Gaussian draws of one sample, in index order: draw i uses the two
    values of the random source at positions 2i and 2i + 1 after the
    start. *)
Lemma gaussians_run (f g : nat -> float) (outputSize : nat) :
  forall a n,
    for_each (fun i => sampleFromGaussian Math_log Math_cos rand (f i) (g i))
      (seq a outputSize) n
    = (Normal (map (fun i => f i + g i
                             * boxMuller' (rand (n + 2 * (i - a)))
                                          (rand (n + 2 * (i - a) + 1)))
                 (seq a outputSize)),
       (n + 2 * outputSize)%nat).
Proof.
  induction outputSize as [|D IH]; intros a n.
  - simpl. unfold ret. now rewrite Nat.add_0_r.
  - cbn [seq for_each]. unfold bind at 1.
    rewrite sampleFromGaussian_draws.
    unfold bind at 1. rewrite IH. unfold ret. cbn [map].
    f_equal; [|lia]. f_equal. f_equal.
    + rewrite Nat.sub_diag. simpl. now rewrite !Nat.add_0_r, Nat.add_1_r.
    + apply map_ext_in. intros i Hi. apply in_seq in Hi.
      replace (S (S n) + 2 * (i - S a))%nat
        with (n + 2 * (i - a))%nat by lia.
      reflexivity.
Qed.

(** The sample of a well-formed mixture, entry by entry. *)
Lemma sampleFromMixture_formula (pi mu sigma : list float)
    (outputSize numMixtures : nat) (temperature : float) (n : nat) :
  (1 <= numMixtures)%nat ->
  Forall nonNegative (mixtureWeights Math_exp pi numMixtures temperature) ->
  length mu = (numMixtures * outputSize)%nat ->
  length sigma = (numMixtures * outputSize)%nat ->
  exists c : nat,
    (c < numMixtures)%nat
    /\ categoricalChoice (rand n)
         (mixtureWeights Math_exp pi numMixtures temperature) = Z.of_nat c
    /\ sampleFromMixture Math_exp Math_log Math_cos rand pi mu sigma
         outputSize numMixtures temperature n
       = (Normal
            (map (fun i =>
                    idx mu (c * outputSize + i)
                    + fround (idx sigma (c * outputSize + i) * temperature)
                      * boxMuller' (rand (n + 1 + 2 * i))
                                   (rand (n + 1 + 2 * i + 1)))
                 (seq 0 outputSize)),
          (n + 1 + 2 * outputSize)%nat).
Proof.
  intros HM Hnonneg Hmu Hsigma.
  set (weights := mixtureWeights Math_exp pi numMixtures temperature) in *.
  assert (Hlen : length weights = numMixtures)
    by apply mixtureWeights_length.
  assert (Hne : weights <> [])
    by (intros E; rewrite E in Hlen; simpl in Hlen; lia).
  destruct (categoricalChoice_in_range (rand n) weights Hne Hnonneg)
    as (c & Hc & Hlt).
  rewrite Hlen in Hlt.
  exists c. split; [exact Hlt|]. split; [exact Hc|].
  destruct (componentSlice_inside mu c outputSize) as (_ & Hlmu & Hmu');
    [nia|].
  destruct (componentSlice_inside sigma c outputSize) as (_ & Hlsig & Hsig');
    [nia|].
  unfold sampleFromMixture, bind. fold weights.
  rewrite sampleFromCategorical_draw, Hc.
  rewrite (gaussians_run
             (fun i => idx (componentSlice mu (Z.of_nat c) outputSize) i)
             (fun i => idx (scaleSigma
                              (componentSlice sigma (Z.of_nat c) outputSize)
                              temperature) i)).
  f_equal; [|lia]. f_equal.
  apply map_ext_in. intros i Hi. apply in_seq in Hi.
  rewrite Hmu' by lia.
  assert (Hscaled :
            idx (scaleSigma (componentSlice sigma (Z.of_nat c) outputSize)
                   temperature) i
            = fround (idx sigma (c * outputSize + i) * temperature)).
  { unfold scaleSigma, idx at 1.
    erewrite nth_error_nth;
      [|rewrite nth_error_map, (nth_error_nth' _ undefined_num);
        [reflexivity | lia]].
    cbn [option_map]. f_equal. f_equal. apply Hsig'. lia. }
  rewrite Hscaled.
  replace (S n + 2 * (i - 0))%nat with (n + 1 + 2 * i)%nat by lia.
  reflexivity.
Qed.

Variable argumentLimit : nat.

(** X3.  What [sampleFromMixture] returns on a well-formed mixture within
    the engine's limits (at least one component, the number of components
    and the output size array lengths, no more components than the engine
    takes as arguments, non-negative weights for the draw, M * D means and
    deviations): a component c below M is chosen with the first value of the
    random source, and entry i of the sample is
    mu[c*D + i] + fround(sigma[c*D + i] * temperature) * z_i, where z_i is
    the Box-Muller value of the random values 2i + 1 and 2i + 2 after the
    start; 1 + 2 D random values are consumed in all. *)
Theorem sampleFromMixture_sample (pi mu sigma : list float)
    (outputSize numMixtures : nat) (temperature : float) (n : nat) :
  (1 <= numMixtures)%nat ->
  isArrayLength numMixtures = true ->
  isArrayLength outputSize = true ->
  (numMixtures <= argumentLimit)%nat ->
  Forall nonNegative (mixtureWeights Math_exp pi numMixtures temperature) ->
  length mu = (numMixtures * outputSize)%nat ->
  length sigma = (numMixtures * outputSize)%nat ->
  exists c : nat,
    (c < numMixtures)%nat
    /\ categoricalChoice (rand n)
         (mixtureWeights Math_exp pi numMixtures temperature) = Z.of_nat c
    /\ sampleFromMixture_limited Math_exp Math_log Math_cos rand
         argumentLimit pi mu sigma outputSize numMixtures temperature n
       = (Normal
            (map (fun i =>
                    idx mu (c * outputSize + i)
                    + fround (idx sigma (c * outputSize + i) * temperature)
                      * boxMuller' (rand (n + 1 + 2 * i))
                                   (rand (n + 1 + 2 * i + 1)))
                 (seq 0 outputSize)),
          (n + 1 + 2 * outputSize)%nat).
Proof.
  intros HM Hcomponents Houtput Hspread Hweights Hmu Hsigma.
  destruct (sampleFromMixture_formula pi mu sigma outputSize numMixtures
              temperature n HM Hweights Hmu Hsigma)
    as (c & Hc & Hchoice & Hrun).
  exists c. split; [exact Hc|]. split; [exact Hchoice|].
  rewrite <- Hrun.
  now apply sampleFromMixture_limited_within.
Qed.

(** X4.  With zero deviations a well-formed mixture is sampled without
    noise: when every deviation is a zero, the temperature is finite and the
    Box-Muller values of the draws are finite, every entry of the sample is
    [===] to the mean of the chosen component, and is that very number
    unless the mean is a zero. *)
Theorem sampleFromMixture_zero_deviation (pi mu sigma : list float)
    (outputSize numMixtures : nat) (temperature : float) (n : nat) :
  (1 <= numMixtures)%nat ->
  Forall nonNegative (mixtureWeights Math_exp pi numMixtures temperature) ->
  length mu = (numMixtures * outputSize)%nat ->
  length sigma = (numMixtures * outputSize)%nat ->
  Forall is_number mu ->
  Forall (fun s => (s =? 0) = true) sigma ->
  is_finite temperature = true ->
  (forall i, (i < outputSize)%nat ->
     is_finite (boxMuller' (rand (n + 1 + 2 * i))
                           (rand (n + 1 + 2 * i + 1))) = true) ->
  exists (c : nat) (sample : list float),
    (c < numMixtures)%nat
    /\ sampleFromMixture Math_exp Math_log Math_cos rand pi mu sigma
         outputSize numMixtures temperature n
       = (Normal sample, (n + 1 + 2 * outputSize)%nat)
    /\ length sample = outputSize
    /\ forall i, (i < outputSize)%nat ->
         strict_eq (idx sample i) (idx mu (c * outputSize + i)) = true
         /\ ((idx mu (c * outputSize + i) =? 0) = false ->
             idx sample i = idx mu (c * outputSize + i)).
Proof.
  intros HM Hnonneg Hmu Hsigma Hnum Hzero Htemp Hz.
  destruct (sampleFromMixture_formula pi mu sigma outputSize numMixtures
              temperature n HM Hnonneg Hmu Hsigma)
    as (c & Hc & _ & Hrun).
  eexists c, _. split; [exact Hc|]. split; [exact Hrun|].
  split; [now rewrite length_map, length_seq|].
  intros i Hi.
  assert (Hk : (c * outputSize + i < numMixtures * outputSize)%nat) by nia.
  rewrite !idx_map_seq by exact Hi.
  set (m := idx mu (c * outputSize + i)).
  set (s := idx sigma (c * outputSize + i)).
  assert (Hm : is_number m).
  { rewrite Forall_forall in Hnum. apply Hnum. apply nth_In.
    now rewrite Hmu. }
  assert (Hs : (s =? 0) = true).
  { rewrite Forall_forall in Hzero. apply Hzero. apply nth_In.
    now rewrite Hsigma. }
  assert (Hst : (s * temperature =? 0) = true)
    by now apply mul_zero_finite.
  rewrite (fround_zero _ Hst).
  apply add_zero_r; [exact Hm|].
  apply mul_zero_finite; [exact Hst | now apply Hz].
Qed.

End SampleFacts.

Lemma sampleFromMixture_sample_witness :
  (1 <= 1)%nat
  /\ isArrayLength 1 = true
  /\ isArrayLength 2 = true
  /\ (1 <= Tabulated.argumentLimit)%nat
  /\ Forall nonNegative (mixtureWeights Tabulated.Math_exp [1] 1 1)
  /\ length [100; 200] = (1 * 2)%nat
  /\ length [0; 0] = (1 * 2)%nat
  /\ Demo.sampleFromMixture_limited [1] [100; 200] [0; 0] 2%nat 1%nat 1
       0%nat
     = (Normal [100; 200], 5%nat).
Proof.
  assert (Hw : Forall nonNegative (mixtureWeights Tabulated.Math_exp [1] 1 1))
    by (repeat constructor).
  assert (Hspread : (1 <= Tabulated.argumentLimit)%nat)
    by (unfold Tabulated.argumentLimit; lia).
  split; [lia|]. do 2 (split; [reflexivity|]). split; [exact Hspread|].
  split; [exact Hw|]. split; [reflexivity|]. split; [reflexivity|].
  destruct (sampleFromMixture_sample Tabulated.Math_exp Tabulated.Math_log
              Tabulated.Math_cos Demo.draws Tabulated.argumentLimit
              [1] [100; 200] [0; 0] 2 1 1 0
              (le_n 1) eq_refl eq_refl Hspread Hw eq_refl eq_refl)
    as (c & Hc & _ & Hrun).
  assert (c = 0%nat) as -> by lia.
  unfold Demo.sampleFromMixture_limited. rewrite Hrun. reflexivity.
Defined.

Lemma sampleFromMixture_zero_deviation_witness :
  (1 <= 1)%nat
  /\ Forall nonNegative (mixtureWeights Tabulated.Math_exp [1] 1 1)
  /\ length [100; 200] = (1 * 2)%nat
  /\ length [0; 0] = (1 * 2)%nat
  /\ Forall is_number [100; 200]
  /\ Forall (fun s => (s =? 0) = true) [0; 0]
  /\ is_finite 1 = true
  /\ (forall i, (i < 2)%nat ->
        is_finite (boxMuller Tabulated.Math_log Tabulated.Math_cos
                     (Demo.draws (0 + 1 + 2 * i))
                     (Demo.draws (0 + 1 + 2 * i + 1))) = true)
  /\ exists (c : nat) (sample : list float),
       (c < 1)%nat
       /\ Demo.sampleFromMixture [1] [100; 200] [0; 0] 2%nat 1%nat 1 0%nat
          = (Normal sample, 5%nat)
       /\ length sample = 2%nat.
Proof.
  assert (Hw : Forall nonNegative (mixtureWeights Tabulated.Math_exp [1] 1 1))
    by (repeat constructor).
  assert (Hnum : Forall is_number [100; 200]) by (repeat constructor).
  assert (Hzero : Forall (fun s => (s =? 0) = true) [0; 0])
    by (repeat constructor).
  assert (Hz : forall i, (i < 2)%nat ->
                 is_finite (boxMuller Tabulated.Math_log Tabulated.Math_cos
                              (Demo.draws (0 + 1 + 2 * i))
                              (Demo.draws (0 + 1 + 2 * i + 1))) = true).
  { intros [|[|i]] Hi; [reflexivity | reflexivity | lia]. }
  split; [lia|]. split; [exact Hw|].
  split; [reflexivity|]. split; [reflexivity|].
  split; [exact Hnum|]. split; [exact Hzero|].
  split; [reflexivity|]. split; [exact Hz|].
  destruct (sampleFromMixture_zero_deviation Tabulated.Math_exp
              Tabulated.Math_log Tabulated.Math_cos Demo.draws
              [1] [100; 200] [0; 0] 2 1 1 0
              (le_n 1) Hw eq_refl eq_refl Hnum Hzero eq_refl Hz)
    as (c & sample & Hc & Hrun & Hlen & _).
  now exists c, sample.
Defined.

(** ** The smoother and its history *)

Section SmootherMore.

Variable Math_pow : float -> float -> float.

Lemma keypointLoop_length (history : list pose) (newPose : pose) :
  forall i, length (keypointLoop Math_pow history i newPose) = length newPose.
Proof.
  induction newPose as [|kp rest IH]; intros i; simpl; [reflexivity|].
  now rewrite IH.
Qed.

(** A history entry is of no use to keypoint [i] when it lacks it: the pose
    is too short, or its keypoint [i] is the missing sentinel. *)
Lemma historyLoop_unusable (history : list pose) (i : nat) :
  (forall historicalPose, In historicalPose history ->
     match nth_error historicalPose i with
     | Some historical => isMissing historical = true
     | None => True
     end) ->
  forall j value, historyLoop Math_pow history j i value = value.
Proof.
  induction history as [|historicalPose rest IH]; intros Hun j value;
    [reflexivity|].
  simpl. pose proof (Hun historicalPose (or_introl eq_refl)) as Hhead.
  destruct (nth_error historicalPose i) as [historical|].
  - rewrite Hhead. apply IH. intros hp Hhp. apply Hun. now right.
  - apply IH. intros hp Hhp. apply Hun. now right.
Qed.

(** X5.  [smoothPose] returns as many keypoints as it is given, for every
    pose and every history, whatever the shapes of the poses in the
    history.  A keypoint that is not missing comes out exactly as it came
    in when no history entry has that keypoint (each one is too short or
    holds the missing sentinel there).  In the page the history starts with
    the pose itself; there, a keypoint that no earlier pose has is blended
    with itself, and with nothing else. *)
Theorem smoothPose_without_usable_history (history : list pose)
    (newPose : pose) :
  length (smoothPose Math_pow history newPose) = length newPose
  /\ (forall i kp,
        nth_error newPose i = Some kp ->
        isMissing kp = false ->
        (forall historicalPose, In historicalPose history ->
           match nth_error historicalPose i with
           | Some historical => isMissing historical = true
           | None => True
           end) ->
        nth_error (smoothPose Math_pow history newPose) i = Some kp)
  /\ (forall i kp,
        nth_error newPose i = Some kp ->
        isMissing kp = false ->
        (forall historicalPose, In historicalPose history ->
           match nth_error historicalPose i with
           | Some historical => isMissing historical = true
           | None => True
           end) ->
        nth_error (smoothPose Math_pow (newPose :: history) newPose) i
        = Some (blend (historyWeight Math_pow 0) kp kp)).
Proof.
  split; [|split].
  - unfold smoothPose. destruct history; [reflexivity|].
    apply keypointLoop_length.
  - intros i kp Hkp Hmiss Hun.
    rewrite (nth_error_smoothPose Math_pow history newPose i kp Hkp).
    destruct history as [|h rest]; [reflexivity|].
    rewrite Hmiss. f_equal. now apply historyLoop_unusable.
  - intros i kp Hkp Hmiss Hun.
    rewrite (nth_error_smoothPose Math_pow (newPose :: history) newPose i kp
               Hkp).
    rewrite Hmiss. f_equal. cbn [historyLoop]. rewrite Hkp, Hmiss.
    now apply historyLoop_unusable.
Qed.

End SmootherMore.

Lemma smoothPose_without_usable_history_witness :
  nth_error [(1, 1); (7, 9)] 1 = Some (7, 9)
  /\ isMissing (7, 9) = false
  /\ nth_error (smoothPose Tabulated.Math_pow [[(5, 5)]; [(3, 3); (0, 0)]]
                  [(1, 1); (7, 9)]) 1
     = Some (7, 9).
Proof.
  split; [reflexivity|]. split; [reflexivity|].
  apply (proj1 (proj2 (smoothPose_without_usable_history Tabulated.Math_pow
                         [[(5, 5)]; [(3, 3); (0, 0)]] [(1, 1); (7, 9)]))
           1%nat (7, 9)); [reflexivity | reflexivity |].
  intros hp [<- | [<- | []]]; reflexivity.
Defined.

Lemma firstn_app_firstn {A} (n : nat) (l1 l2 : list A) :
  firstn n (l1 ++ firstn n l2) = firstn n (l1 ++ l2).
Proof.
  rewrite !firstn_app, firstn_firstn. f_equal. f_equal. lia.
Qed.

Lemma pushes_bounded (poses : list pose) :
  forall history,
    (length history <= MAX_HISTORY)%nat ->
    fold_left (fun h p => pushHistory p h) poses history
    = firstn MAX_HISTORY (rev poses ++ history).
Proof.
  induction poses as [|p rest IH]; intros history Hlen.
  - cbn [fold_left rev app]. symmetry. now apply firstn_all2.
  - destruct (pushHistory_bounded p history Hlen) as [Hpush Hle].
    cbn [fold_left]. rewrite IH by exact Hle.
    rewrite Hpush. cbn [rev]. rewrite <- app_assoc. cbn [app].
    change (p :: firstn 4 history)
      with (firstn MAX_HISTORY (p :: history)).
    apply firstn_app_firstn.
Qed.

(** X6.  The history keeps the [MAX_HISTORY] = 5 most recently pushed poses,
    most recent first: after the poses p1 ... pn have been pushed, in this
    order, onto an empty history, the history is the first 5 entries of
    pn ... p1. *)
Theorem pushHistory_keeps_most_recent (poses : list pose) :
  fold_left (fun h p => pushHistory p h) poses []
  = firstn MAX_HISTORY (rev poses)
  /\ length (fold_left (fun h p => pushHistory p h) poses [])
     = Nat.min MAX_HISTORY (length poses).
Proof.
  assert (H : fold_left (fun h p => pushHistory p h) poses []
              = firstn MAX_HISTORY (rev poses)).
  { rewrite pushes_bounded by (unfold MAX_HISTORY; simpl; lia).
    now rewrite app_nil_r. }
  split; [exact H|].
  now rewrite H, length_firstn, length_rev.
Qed.

(** ** The generation loop: starting, failing, stopping, going on *)

Lemma In_remove_nth {A} (k : nat) (l : list A) (x : A) :
  In x (remove_nth k l) -> In x l.
Proof.
  unfold remove_nth. intros H. apply in_app_or in H.
  destruct H as [H | H].
  - rewrite <- (firstn_skipn k l). apply in_or_app. now left.
  - rewrite <- (firstn_skipn (S k) l). apply in_or_app. now right.
Qed.

Lemma length_remove_nth {A} (k : nat) (l : list A) (x : A) :
  nth_error l k = Some x -> S (length (remove_nth k l)) = length l.
Proof.
  intros H. unfold remove_nth.
  assert (Hk : (k < length l)%nat)
    by (apply nth_error_Some; congruence).
  rewrite length_app, length_firstn, length_skipn. lia.
Qed.

Lemma In_cancelAnimationFrame (id : nat) (pending : list (nat * window))
    (w : window) :
  In w (map snd (cancelAnimationFrame id pending)) ->
  In w (map snd pending).
Proof.
  unfold cancelAnimationFrame. rewrite !in_map_iff.
  intros (f & Hf & Hin). apply filter_In in Hin. exists f. tauto.
Qed.

Lemma In_pendingWindows (s : App) (w : window) :
  In w (pendingWindows s)
  <-> In w (awaiting s) \/ In w (timers s) \/ In w (map snd (frames s)).
Proof. unfold pendingWindows. now rewrite !in_app_iff. Qed.

Lemma advance_rectangular (W D : nat) (w : window) (nextPose : list float) :
  (1 <= W)%nat -> rectangular W D w -> length nextPose = length (hd [] w) ->
  rectangular W D (advance w nextPose).
Proof.
  intros HW [Hlen Hrows] Hnext.
  destruct w as [|first rest]; [simpl in Hlen; lia|].
  split.
  - rewrite advance_length by discriminate. exact Hlen.
  - unfold advance. simpl tl. apply Forall_app. split.
    + now inversion Hrows.
    + constructor; [|constructor]. rewrite Hnext. simpl.
      now inversion Hrows.
Qed.

Section LoopMore.

Variables Math_exp Math_log Math_cos : float -> float.
Variable Math_pow : float -> float -> float.
Variable rand : nat -> float.

Let handle' := handle Math_exp Math_log Math_cos Math_pow rand.
Let run' := run Math_exp Math_log Math_cos Math_pow rand.
Let resumeGenerationStep' :=
  resumeGenerationStep Math_exp Math_log Math_cos Math_pow rand.
Let sampleNext' := sampleNext Math_exp Math_log Math_cos rand.

(** What a resumed step does to the page: it applies the sample it draws,
    or it ends in its [catch] clause. *)
Lemma resume_effects (w : window) (settled : completion Prediction)
    (s : App) :
  let s' := resumeGenerationStep' w settled s in
  seedSequence s' = seedSequence s
  /\ session s' = session s
  /\ awaiting s' = awaiting s
  /\ (forall f, In f (frames s') -> In f (frames s))
  /\ ((exists nextPose,
         w <> []
         /\ (exists results, settled = Normal results)
         /\ length nextPose = length (hd [] w)
         /\ timers s' = timers s ++ [advance w nextPose]
         /\ isGenerating s' = isGenerating s
         /\ alerts s' = alerts s
         /\ frames s' = frames s
         /\ poseHistory s'
            = pushHistory (reshapeKeypoints nextPose) (poseHistory s)
         /\ drawn s'
            = drawn s ++ [smoothPose Math_pow (poseHistory s')
                            (reshapeKeypoints nextPose)]
         /\ exists results,
              settled = Normal results
              /\ sampleNext' w results (temperatureSlider s) (randomCalls s)
                 = (Normal nextPose, randomCalls s'))
      \/ ((w = [] \/ exists e, settled = Throw e)
          /\ timers s' = timers s
          /\ isGenerating s' = false
          /\ alerts s' = S (alerts s)
          /\ drawn s' = drawn s
          /\ poseHistory s' = poseHistory s
          /\ randomCalls s' = randomCalls s)).
Proof.
  unfold resumeGenerationStep', resumeGenerationStep, try_catch, bind, ret.
  destruct settled as [results|e].
  - destruct w as [|first rest].
    + destruct s as [? ? [id|] ? ? ? ? ? ? ? ? ? ? frs]; cbn;
        repeat split; auto;
        try (intros f Hf; apply filter_In in Hf; tauto);
        right; repeat split; auto.
    + cbn [sampleNext].
      destruct (sampleFromMixture_normal Math_exp Math_log Math_cos rand
                  (pi_data results) (mu_data results) (sigma_data results)
                  (length first) (mu_dims1 results) (temperatureSlider s)
                  (randomCalls s)) as (sample & n' & Hrun & Hlen).
      rewrite Hrun. cbn.
      repeat split; auto.
      left. exists sample. repeat split; auto; [discriminate | eauto |].
      exists results. split; [reflexivity|].
      unfold sampleNext', sampleNext. exact Hrun.
  - destruct s as [? ? [id|] ? ? ? ? ? ? ? ? ? ? frs]; cbn;
      repeat split; auto;
      try (intros f Hf; apply filter_In in Hf; tauto);
      right; repeat split; eauto.
Qed.

(** Where the windows of the page come from: every window pending after an
    event was pending before it, or is the seed, or is a window that was
    pending, advanced by a sample of the length of its rows. *)
Lemma handle_pending (s : App) (e : event) :
  seedSequence (handle' s e) = seedSequence s
  /\ forall w, In w (pendingWindows (handle' s e)) ->
       In w (pendingWindows s)
       \/ seedSequence s = Some w
       \/ exists w0 nextPose,
            In w0 (pendingWindows s) /\ w0 <> []
            /\ length nextPose = length (hd [] w0)
            /\ w = advance w0 nextPose.
Proof.
  unfold handle', handle.
  destruct e as [| |t|k settled|k|k| |].
  - unfold generateClicked, startGeneration, runGenerationStep,
      catchGenerationError, showError, stopGeneration.
    destruct s as [ses gen [id|] cur [[|first rest]|] ph tmp dr al rc aw tm
                     frs nh];
      destruct ses, gen; unfold pendingWindows; cbn -[In];
      (split; [reflexivity|]); intros w;
      rewrite ?in_app_iff; cbn [In];
      intuition (subst; eauto using In_cancelAnimationFrame).
  - unfold stopGeneration.
    destruct s as [ses gen [id|] cur sd ph tmp dr al rc aw tm frs nh];
      unfold pendingWindows; cbn -[In];
      (split; [reflexivity|]); intros w;
      rewrite ?in_app_iff;
      intuition (eauto using In_cancelAnimationFrame).
  - split; [reflexivity|]. intros w Hw. left. exact Hw.
  - destruct (nth_error (awaiting s) k) as [w0|] eqn:Hk;
      [|split; [reflexivity | now left]].
    pose proof (resume_effects w0 settled
                  (set_awaiting (remove_nth k (awaiting s)) s)) as Heff.
    cbv zeta in Heff.
    destruct Heff as (Hseed & _ & Haw & Hfr & Hcase).
    split; [exact Hseed|].
    assert (Hw0 : In w0 (pendingWindows s)).
    { apply In_pendingWindows. left. eapply nth_error_In. exact Hk. }
    intros w Hw. apply In_pendingWindows in Hw.
    fold resumeGenerationStep' in Hw. rewrite Haw in Hw.
    destruct Hw as [Hw | [Hw | Hw]].
    + left. apply In_pendingWindows. left.
      eapply In_remove_nth. exact Hw.
    + destruct Hcase as [(nextPose & Hne & _ & Hlen & Htm & _)
                        | (_ & Htm & _)];
        rewrite Htm in Hw.
      * apply in_app_or in Hw. destruct Hw as [Hw | [<- | []]].
        -- left. apply In_pendingWindows. right. left. exact Hw.
        -- right. right. now exists w0, nextPose.
      * left. apply In_pendingWindows. right. left. exact Hw.
    + left. apply In_pendingWindows. right. right.
      apply in_map_iff in Hw. destruct Hw as (f & <- & Hf).
      apply in_map. now apply Hfr.
  - destruct (nth_error (timers s) k) as [w0|] eqn:Hk;
      [|split; [reflexivity | now left]].
    split; [reflexivity|]. intros w Hw. left.
    apply In_pendingWindows in Hw. apply In_pendingWindows.
    cbn -[In] in Hw. rewrite map_app, in_app_iff in Hw. cbn [map snd In] in Hw.
    destruct Hw as [Hw | [Hw | [Hw | [<- | []]]]]; auto.
    + right. left. eapply In_remove_nth. exact Hw.
    + right. left. eapply nth_error_In. exact Hk.
  - destruct (nth_error (frames s) k) as [[id w0]|] eqn:Hk;
      [|split; [reflexivity | now left]].
    assert (Hw0 : In w0 (map snd (frames s))).
    { apply in_map_iff. exists (id, w0). split; [reflexivity|].
      eapply nth_error_In. exact Hk. }
    assert (Hrest : forall w, In w (map snd (remove_nth k (frames s))) ->
                              In w (map snd (frames s))).
    { intros w Hw. apply in_map_iff in Hw. destruct Hw as (f & <- & Hf).
      apply in_map. eapply In_remove_nth. exact Hf. }
    unfold runGenerationStep, catchGenerationError, showError,
      stopGeneration.
    destruct s as [ses gen [aid|] cur sd ph tmp dr al rc aw tm frs nh];
      destruct gen, w0 as [|first rest]; unfold pendingWindows;
      cbn -[In] in *;
      (split; [reflexivity|]); intros w;
      rewrite ?in_app_iff; cbn [In];
      intuition (subst; eauto using In_cancelAnimationFrame).
  - unfold redraw. destruct (currentSequence s);
      (split; [reflexivity|]); intros w Hw; left; exact Hw.
  - unfold redraw. destruct (currentSequence s);
      (split; [reflexivity|]); intros w Hw; left; exact Hw.
Qed.

(** X7.  The window keeps its shape for as long as the page runs: from the
    initialized page with a seed of W >= 1 flat vectors of D values each,
    after any sequence of events every window held by a suspended step or a
    pending callback still has W vectors of D values. *)
Theorem windows_stay_rectangular (W D : nat) (seed : window)
    (temperature : float) (es : list event) :
  (1 <= W)%nat ->
  rectangular W D seed ->
  Forall (rectangular W D)
    (pendingWindows (run' (initialized seed temperature) es)).
Proof.
  intros HW Hseed.
  assert (Hgen : forall es s,
             seedSequence s = Some seed ->
             (forall w, In w (pendingWindows s) -> rectangular W D w) ->
             forall w, In w (pendingWindows (run' s es)) ->
                       rectangular W D w).
  { clear es. induction es as [|e es IH]; intros s Hs Hall; [exact Hall|].
    destruct (handle_pending s e) as [Hseed' Hfrom].
    apply (IH (handle' s e)); [now rewrite Hseed'|].
    intros w Hw.
    destruct (Hfrom w Hw) as [Hold | [Hsd | (w0 & nextPose & Hw0 & _ & Hlen
                                               & ->)]].
    - now apply Hall.
    - rewrite Hs in Hsd. now injection Hsd as <-.
    - apply advance_rectangular; auto. }
  apply Forall_forall. apply (Hgen es (initialized seed temperature)).
  - reflexivity.
  - intros w [].
Qed.

(** X8.  A click on the generate button of an idle page with a loaded model
    and a non-empty seed starts exactly one step: the history is emptied and
    one step is suspended on the inference call with the seed as its window;
    nothing is drawn or sampled yet.  A further click while generating
    changes nothing. *)
Theorem generate_starts_one_step (s : App) (seed : window) :
  session s = true ->
  isGenerating s = false ->
  seedSequence s = Some seed ->
  seed <> [] ->
  let started := handle' s GenerateClicked in
  isGenerating started = true
  /\ poseHistory started = []
  /\ awaiting started = awaiting s ++ [seed]
  /\ timers started = timers s /\ frames started = frames s
  /\ drawn started = drawn s /\ randomCalls started = randomCalls s
  /\ alerts started = alerts s
  /\ handle' started GenerateClicked = started.
Proof.
  intros Hses Hgen Hseed Hne. unfold handle', handle, generateClicked,
    startGeneration, runGenerationStep.
  destruct s as [ses gen aid cur sd ph tmp dr al rc aw tm frs nh].
  cbn in Hses, Hgen, Hseed. subst ses gen sd.
  destruct seed as [|first rest]; [congruence|].
  cbn. repeat split.
Qed.

(** X9.  A click on the generate button that cannot start a step: without a
    loaded model an error is shown and nothing else changes; with a model
    but no seed nothing happens at all; with an empty seed the step fails at
    once, an error is shown and the page is idle again, its history
    emptied. *)
Theorem generate_without_model_or_seed (s : App) :
  isGenerating s = false ->
  (session s = false ->
   handle' s GenerateClicked = showError s)
  /\ (session s = true -> seedSequence s = None ->
      handle' s GenerateClicked = s)
  /\ (session s = true -> seedSequence s = Some [] ->
      let faulted := handle' s GenerateClicked in
      isGenerating faulted = false
      /\ alerts faulted = S (alerts s)
      /\ poseHistory faulted = []
      /\ awaiting faulted = awaiting s
      /\ timers faulted = timers s
      /\ drawn faulted = drawn s).
Proof.
  intros Hgen. unfold handle', handle, generateClicked, startGeneration,
    runGenerationStep, catchGenerationError, showError, stopGeneration.
  destruct s as [ses gen [aid|] cur sd ph tmp dr al rc aw tm frs nh];
    cbn in Hgen; subst gen; cbn;
    (split; [|split]); intros Hses; try intros Hsd; subst; cbn;
    repeat split.
Qed.

(** What an event does to a page that is not generating, when the event is
    not a click on the generate button. *)
Lemma handle_stopped (s : App) (e : event) :
  isGenerating s = false ->
  e <> GenerateClicked ->
  isGenerating (handle' s e) = false
  /\ (length (drawn (handle' s e)) + length (awaiting (handle' s e))
      <= length (drawn s) + length (awaiting s)
         + (if isRedraw e then 1 else 0))%nat
  /\ (length (awaiting (handle' s e)) <= length (awaiting s))%nat
  /\ (forall p, In p (drawn s) -> In p (drawn (handle' s e))).
Proof.
  intros Hgen Hne. unfold handle', handle.
  destruct e as [| |t|k settled|k|k| |]; [congruence| | | | | | |];
    cbn [isRedraw]; rewrite ?Nat.add_0_r.
  - destruct (stopGeneration_fields s) as (-> & -> & _ & -> & _).
    repeat split; auto.
  - cbn. repeat split; auto.
  - destruct (nth_error (awaiting s) k) as [w0|] eqn:Hk;
      [|repeat split; auto].
    pose proof (length_remove_nth k (awaiting s) w0 Hk) as Hlen.
    pose proof (resume_effects w0 settled
                  (set_awaiting (remove_nth k (awaiting s)) s)) as Heff.
    cbv zeta in Heff. fold resumeGenerationStep'.
    destruct Heff as (_ & _ & Haw & _ & Hcase).
    rewrite Haw. cbn [awaiting set_awaiting].
    destruct Hcase as [(nextPose & _ & _ & _ & _ & Hg & _ & _ & _ & Hdr & _)
                      | (_ & _ & Hg & _ & Hdr & _)];
      rewrite Hg, Hdr; cbn [isGenerating drawn set_awaiting];
      repeat split; auto; try lia.
    + rewrite length_app. cbn [length]. lia.
    + intros p Hp. apply in_or_app. now left.
  - destruct (nth_error (timers s) k) as [w0|]; cbn; repeat split; auto.
  - destruct (nth_error (frames s) k) as [[id w0]|];
      [|repeat split; auto].
    rewrite runGenerationStep_stopped by exact Hgen.
    cbn. repeat split; auto.
  - unfold redraw. destruct (currentSequence s) as [shown|];
      cbn [isGenerating drawn awaiting set_drawn];
      repeat split; auto; try lia.
    + rewrite length_app. cbn [length]. lia.
    + intros p Hp. apply in_or_app. now left.
  - unfold redraw. destruct (currentSequence s) as [shown|];
      cbn [isGenerating drawn awaiting set_drawn];
      repeat split; auto; try lia.
    + rewrite length_app. cbn [length]. lia.
    + intros p Hp. apply in_or_app. now left.
Qed.

(** X10.  Once stopped, the page samples only what was in flight: when
    [isGenerating] is false and the generate button is not clicked, then
    over any sequence of events (inference results and failures, timer and
    frame callbacks, stops, slider moves, resizes of the window and clicks
    on the mode button) the page stays stopped, no new inference is
    started, and every pose drawn so far stays drawn.  The page still
    draws: the resize and the mode handlers draw the current pose again
    without looking at [isGenerating], so the number of poses drawn from
    then on is at most the number of inference calls that were in flight
    plus the number of resize and mode events. *)
Theorem stopped_page_draws_in_flight_and_redraws (s : App)
    (es : list event) :
  isGenerating s = false ->
  Forall (fun e => e <> GenerateClicked) es ->
  isGenerating (run' s es) = false
  /\ (length (awaiting (run' s es)) <= length (awaiting s))%nat
  /\ (length (drawn (run' s es))
      <= length (drawn s) + length (awaiting s) + redraws es)%nat
  /\ (forall p, In p (drawn s) -> In p (drawn (run' s es))).
Proof.
  intros Hgen Hes.
  assert (H : isGenerating (run' s es) = false
              /\ (length (drawn (run' s es)) + length (awaiting (run' s es))
                  <= length (drawn s) + length (awaiting s) + redraws es)%nat
              /\ (length (awaiting (run' s es)) <= length (awaiting s))%nat
              /\ (forall p, In p (drawn s) -> In p (drawn (run' s es)))).
  { revert s Hgen. induction Hes as [|e es He _ IH]; intros s Hgen.
    - repeat split; auto. unfold redraws. cbn. lia.
    - destruct (handle_stopped s e Hgen He) as (Hg & Hsum & Haw & Hdr).
      destruct (IH (handle' s e) Hg) as (Hg' & Hsum' & Haw' & Hdr').
      assert (Hre : redraws (e :: es)
                    = ((if isRedraw e then 1 else 0) + redraws es)%nat).
      { unfold redraws. cbn [filter]. now destruct (isRedraw e). }
      unfold run', run, handle' in *. cbn [fold_left].
      split; [exact Hg'|]. split; [lia|]. split; [lia|].
      intros p Hp. apply Hdr'. now apply Hdr. }
  destruct H as (Hg & Hsum & Haw & Hdr).
  split; [exact Hg|]. split; [exact Haw|]. split; [lia | exact Hdr].
Qed.

(** X11.  When the inference call of a suspended step is rejected, the step
    ends in its [catch] clause: the loop is stopped, an error is shown, and
    nothing is sampled, drawn, pushed on the history or scheduled. *)
Theorem inference_failure_halts (s : App) (k : nat) (w : window)
    (e : jserror) :
  nth_error (awaiting s) k = Some w ->
  let faulted := handle' s (InferenceSettled k (Throw e)) in
  isGenerating faulted = false
  /\ alerts faulted = S (alerts s)
  /\ awaiting faulted = remove_nth k (awaiting s)
  /\ timers faulted = timers s
  /\ drawn faulted = drawn s
  /\ poseHistory faulted = poseHistory s
  /\ randomCalls faulted = randomCalls s.
Proof.
  intros Hk. unfold handle', handle. rewrite Hk.
  pose proof (resume_effects w (Throw e)
                (set_awaiting (remove_nth k (awaiting s)) s)) as Heff.
  cbv zeta in Heff. fold resumeGenerationStep'.
  destruct Heff as (_ & _ & Haw & _ & Hcase).
  destruct Hcase as [(nextPose & _ & (results & Habs) & _)
                    | (_ & Htm & Hg & Hal & Hdr & Hph & Hrc)];
    [discriminate Habs|].
  rewrite Haw, Htm, Hg, Hal, Hdr, Hph, Hrc. repeat split.
Qed.

(** One turn of the loop while generating: the inference resolves, the timer
    and the frame callback run, and the successor step is suspended on the
    inference call with the window advanced by the sample the step drew. *)
Lemma cycle_turn (s : App) (k : nat) (w : window) (results : Prediction) :
  isGenerating s = true ->
  nth_error (awaiting s) k = Some w ->
  w <> [] ->
  let s1 := handle' s (InferenceSettled k (Normal results)) in
  let s2 := handle' s1 (TimerFired (length (timers s))) in
  let s3 := handle' s2 (FrameFired (length (frames s))) in
  exists nextPose,
    length nextPose = length (hd [] w)
    /\ awaiting s3 = remove_nth k (awaiting s) ++ [advance w nextPose]
    /\ timers s3 = timers s
    /\ frames s3 = frames s
    /\ isGenerating s3 = true
    /\ poseHistory s3
       = pushHistory (reshapeKeypoints nextPose) (poseHistory s)
    /\ drawn s3
       = drawn s ++ [smoothPose Math_pow (poseHistory s3)
                       (reshapeKeypoints nextPose)]
    /\ animationFrameId s3 = Some (nextHandle s)
    /\ sampleNext' w results (temperatureSlider s) (randomCalls s)
       = (Normal nextPose, randomCalls s3).
Proof.
  intros Hgen Hk Hw s1 s2 s3.
  pose proof (resume_effects w (Normal results)
                (set_awaiting (remove_nth k (awaiting s)) s)) as Heff.
  cbv zeta in Heff.
  assert (Hs1 : s1 = resumeGenerationStep' w (Normal results)
                       (set_awaiting (remove_nth k (awaiting s)) s)).
  { unfold s1, handle', handle. now rewrite Hk. }
  rewrite <- Hs1 in Heff.
  assert (Hs2 : s2 = handle' s1 (TimerFired (length (timers s))))
    by reflexivity.
  assert (Hs3 : s3 = handle' s2 (FrameFired (length (frames s))))
    by reflexivity.
  clearbody s1 s2 s3.
  destruct Heff as (_ & _ & Haw & _ & Hcase).
  destruct Hcase as [(nextPose & _ & _ & Hlen & Htm & Hg & _ & Hfr & Hph
                      & Hdr & results' & Hres & Hsample)
                    | ([Habs | (e & Habs)] & _)];
    [|congruence | discriminate Habs].
  injection Hres as <-.
  cbn [awaiting timers isGenerating frames poseHistory drawn set_awaiting
       temperatureSlider randomCalls]
    in Haw, Htm, Hg, Hfr, Hph, Hdr, Hsample.
  exists nextPose. split; [exact Hlen|].
  unfold handle' in Hs2.
  rewrite (handle_TimerFired _ _ _ _ _ _ _ (advance w nextPose)) in Hs2
    by (rewrite Htm; apply nth_error_last).
  rewrite Htm, remove_nth_last in Hs2.
  assert (Hfr2 : frames s2
                 = frames s ++ [(nextHandle s1, advance w nextPose)]).
  { rewrite Hs2. unfold timerCallback.
    cbn [frames set_frames set_animationFrameId set_nextHandle set_timers].
    now rewrite Hfr. }
  unfold handle' in Hs3.
  rewrite (handle_FrameFired _ _ _ _ _ _ _ (nextHandle s1)
             (advance w nextPose)) in Hs3
    by (rewrite Hfr2; apply nth_error_last).
  rewrite Hfr2, remove_nth_last in Hs3.
  assert (Hnh : nextHandle s1 = nextHandle s).
  { rewrite Hs1. unfold resumeGenerationStep', resumeGenerationStep,
      try_catch, bind, ret.
    destruct w as [|first rest]; [congruence|]. cbn [sampleNext].
    destruct (sampleFromMixture_normal Math_exp Math_log Math_cos rand
                (pi_data results) (mu_data results) (sigma_data results)
                (length first) (mu_dims1 results)
                (temperatureSlider (set_awaiting
                                      (remove_nth k (awaiting s)) s))
                (randomCalls (set_awaiting
                                (remove_nth k (awaiting s)) s)))
      as (sample & n' & Hrun & _).
    rewrite Hrun. reflexivity. }
  rewrite Hs3, Hs2. unfold runGenerationStep, timerCallback.
  cbn [isGenerating set_frames set_animationFrameId set_nextHandle
       set_timers].
  rewrite Hg, Hgen. cbn [negb].
  destruct (advance w nextPose) as [|first rest] eqn:Hadv;
    [now apply advance_not_nil in Hadv|].
  cbn [awaiting timers frames isGenerating poseHistory drawn nextHandle
       animationFrameId set_awaiting set_frames set_animationFrameId
       set_nextHandle set_timers].
  rewrite Haw, Hg, Hnh, Hgen.
  repeat split; assumption.
Qed.

Variable argumentLimit : nat.

(** X12.  While the page is generating, one turn of the loop (the inference
    of a suspended step resolves, then its timer and its frame callback run)
    leaves the successor step suspended on the inference call with the
    window advanced by the sample: when the sampler, called on what the
    inference resolved to with the temperature of the slider, returns the
    vector [nextPose], then the window of the successor is the window of
    the step with its first entry dropped and [nextPose] appended, the pose
    pushed on the history is [nextPose] reshaped and the pose drawn is that
    pose smoothed; no timer or frame stays pending, and the random source
    stands where the sampler left it. *)
Theorem generating_loop_turns (s : App) (k : nat) (w : window)
    (results : Prediction) (nextPose : list float) (n' : nat) :
  isGenerating s = true ->
  nth_error (awaiting s) k = Some w ->
  sampleNext_limited Math_exp Math_log Math_cos rand argumentLimit
    w results (temperatureSlider s) (randomCalls s)
  = (Normal nextPose, n') ->
  let after := run' s [InferenceSettled k (Normal results);
                       TimerFired (length (timers s));
                       FrameFired (length (frames s))] in
  awaiting after = remove_nth k (awaiting s) ++ [advance w nextPose]
  /\ timers after = timers s
  /\ frames after = frames s
  /\ isGenerating after = true
  /\ poseHistory after
     = pushHistory (reshapeKeypoints nextPose) (poseHistory s)
  /\ drawn after
     = drawn s ++ [smoothPose Math_pow (poseHistory after)
                     (reshapeKeypoints nextPose)]
  /\ animationFrameId after = Some (nextHandle s)
  /\ randomCalls after = n'.
Proof.
  intros Hgen Hk Hsample.
  assert (Hw : w <> []).
  { intros ->. cbn in Hsample. discriminate Hsample. }
  apply sampleNext_limited_agrees in Hsample.
  destruct (cycle_turn s k w results Hgen Hk Hw)
    as (drawnPose & _ & Haw & Htm & Hfr & Hg & Hph & Hdr & Hid & Hrun).
  unfold sampleNext' in Hrun. rewrite Hsample in Hrun.
  injection Hrun as <- Hcalls.
  cbv zeta. unfold run', run. cbn [fold_left]. fold handle'.
  repeat split; try assumption. now symmetry.
Qed.


End LoopMore.

(** ** The renderer *)

Lemma boundingBox_all_missing (keypoints : pose) :
  Forall (fun kp => isMissing kp = true) keypoints ->
  forall box, fold_left extendBox keypoints box = box.
Proof.
  induction 1 as [|kp rest Hkp _ IH]; intros box; [reflexivity|].
  simpl. unfold extendBox at 2. rewrite Hkp. apply IH.
Qed.

Lemma normalizeKeypoint_missing (scale translateX translateY : float)
    (kp : keypoint) :
  isMissing (normalizeKeypoint scale translateX translateY kp) = false ->
  isMissing kp = false.
Proof.
  unfold normalizeKeypoint. destruct (isMissing kp); [|reflexivity].
  vm_compute. congruence.
Qed.

(** The two shapes of the result of [normalizeCoordinates]: the pose itself,
    or every keypoint mapped with one scale and one pair of translations. *)
Lemma normalizeCoordinates_cases (v : PoseVisualizer) (keypoints : pose) :
  normalizeCoordinates v keypoints = keypoints
  \/ exists scale translateX translateY,
       normalizeCoordinates v keypoints
       = map (normalizeKeypoint scale translateX translateY) keypoints.
Proof.
  unfold normalizeCoordinates. destruct keypoints as [|kp rest];
    [now left|].
  destruct (noValidKeypoint _); [now left|]. right. eauto.
Qed.

Lemma normalizeCoordinates_keeps_missing_aux (v : PoseVisualizer)
    (keypoints : pose) :
  forall i out,
    nth_error (normalizeCoordinates v keypoints) i = Some out ->
    exists kp, nth_error keypoints i = Some kp
               /\ (isMissing kp = true -> isMissing out = true)
               /\ (isMissing out = false -> isMissing kp = false).
Proof.
  intros i out Hout.
  destruct (normalizeCoordinates_cases v keypoints)
    as [Heq | (sc & tx & ty & Heq)]; rewrite Heq in Hout.
  - exists out. repeat split; auto.
  - rewrite nth_error_map in Hout.
    destruct (nth_error keypoints i) as [kp|]; [|discriminate].
    injection Hout as <-. exists kp. split; [reflexivity|].
    split; [|apply normalizeKeypoint_missing].
    intros Hm. unfold normalizeKeypoint. now rewrite Hm.
Qed.

(** X14.  [normalizeCoordinates] keeps the number of keypoints and keeps
    missing keypoints missing: a keypoint with [x === 0] and [y === 0] is
    again such a pair in the result, and a keypoint that is not missing in
    the result was not missing in the pose.  A pose all of whose keypoints
    are missing is returned as it is. *)
Theorem normalizeCoordinates_keeps_missing (v : PoseVisualizer)
    (keypoints : pose) :
  length (normalizeCoordinates v keypoints) = length keypoints
  /\ (forall i out,
        nth_error (normalizeCoordinates v keypoints) i = Some out ->
        exists kp, nth_error keypoints i = Some kp
                   /\ (isMissing kp = true -> isMissing out = true)
                   /\ (isMissing out = false -> isMissing kp = false))
  /\ (Forall (fun kp => isMissing kp = true) keypoints ->
      normalizeCoordinates v keypoints = keypoints).
Proof.
  split; [|split].
  - destruct (normalizeCoordinates_cases v keypoints)
      as [-> | (sc & tx & ty & ->)]; [reflexivity | apply length_map].
  - apply normalizeCoordinates_keeps_missing_aux.
  - intros Hall. unfold normalizeCoordinates.
    destruct keypoints as [|kp rest]; [reflexivity|].
    unfold boundingBox. now rewrite (boundingBox_all_missing _ Hall).
Qed.

(** X15.  In skeleton mode [drawPose] clears the canvas and then draws only
    what is present: every keypoint it draws is the normalized position of a
    keypoint of the pose that is not missing, and every connection it draws
    is one of the skeleton's connections between two keypoints of the pose
    that are both in range and not missing.  An empty pose draws nothing,
    not even the clearing. *)
Theorem drawPose_skeleton_draws_present_only (v : PoseVisualizer)
    (keypoints : pose) :
  _visualizationMode v = "skeleton"%string ->
  let calls := drawPose v keypoints true in
  let normalized := normalizeCoordinates v keypoints in
  (keypoints = [] -> calls = [])
  /\ (keypoints <> [] ->
      exists rest, calls = Clear (width v) (height v) :: rest
                   /\ forall w h, ~ In (Clear w h) rest)
  /\ (forall x y, In (DrawKeypoint x y) calls ->
        exists i kp, nth_error keypoints i = Some kp
                     /\ isMissing kp = false
                     /\ nth_error normalized i = Some (x, y))
  /\ (forall x1 y1 x2 y2, In (DrawConnection x1 y1 x2 y2) calls ->
        exists i j kp1 kp2,
          In (i, j) connections
          /\ nth_error keypoints i = Some kp1 /\ isMissing kp1 = false
          /\ nth_error keypoints j = Some kp2 /\ isMissing kp2 = false
          /\ nth_error normalized i = Some (x1, y1)
          /\ nth_error normalized j = Some (x2, y2)).
Proof.
  intros Hmode calls normalized.
  pose proof (normalizeCoordinates_keeps_missing_aux v keypoints) as Hback.
  assert (Hcalls : keypoints <> [] ->
                   calls = Clear (width v) (height v)
                           :: drawSkeleton normalized).
  { intros Hne. unfold calls, drawPose. rewrite Hmode.
    destruct keypoints; [congruence | reflexivity]. }
  assert (Hkey : forall x y, In (DrawKeypoint x y) (drawSkeleton normalized)
                 -> exists i kp, nth_error keypoints i = Some kp
                                 /\ isMissing kp = false
                                 /\ nth_error normalized i = Some (x, y)).
  { intros x y Hin. unfold drawSkeleton in Hin.
    apply in_app_or in Hin. destruct Hin as [Hin | Hin].
    - apply in_flat_map in Hin. destruct Hin as (c & _ & Hc).
      unfold drawConnectionOf in Hc.
      destruct (nth_error normalized (fst c)) as [p1|]; [|contradiction].
      destruct (nth_error normalized (snd c)) as [p2|]; [|contradiction].
      destruct (isMissing p1); [contradiction|].
      destruct (isMissing p2); [contradiction|].
      destruct Hc as [Hc | []]. discriminate Hc.
    - apply in_flat_map in Hin. destruct Hin as (out & Hout & Hc).
      unfold drawKeypointOf in Hc.
      destruct (isMissing out) eqn:Hm; [contradiction|].
      destruct Hc as [Hc | []]. injection Hc as <- <-.
      apply In_nth_error in Hout. destruct Hout as [i Hi].
      destruct (Hback i out Hi) as (kp & Hkp & _ & Hsame).
      exists i, kp. split; [exact Hkp|]. split; [now apply Hsame|].
      rewrite Hi. now destruct out. }
  assert (Hcon : forall x1 y1 x2 y2,
             In (DrawConnection x1 y1 x2 y2) (drawSkeleton normalized) ->
             exists i j kp1 kp2,
               In (i, j) connections
               /\ nth_error keypoints i = Some kp1 /\ isMissing kp1 = false
               /\ nth_error keypoints j = Some kp2 /\ isMissing kp2 = false
               /\ nth_error normalized i = Some (x1, y1)
               /\ nth_error normalized j = Some (x2, y2)).
  { intros x1 y1 x2 y2 Hin. unfold drawSkeleton in Hin.
    apply in_app_or in Hin. destruct Hin as [Hin | Hin].
    - apply in_flat_map in Hin. destruct Hin as ([i j] & Hij & Hc).
      unfold drawConnectionOf in Hc. cbn [fst snd] in Hc.
      destruct (nth_error normalized i) as [p1|] eqn:H1; [|contradiction].
      destruct (nth_error normalized j) as [p2|] eqn:H2; [|contradiction].
      destruct (isMissing p1) eqn:Hm1; [contradiction|].
      destruct (isMissing p2) eqn:Hm2; [contradiction|].
      destruct Hc as [Hc | []]. injection Hc as <- <- <- <-.
      destruct (Hback i p1 H1) as (kp1 & Hkp1 & _ & Hs1).
      destruct (Hback j p2 H2) as (kp2 & Hkp2 & _ & Hs2).
      exists i, j, kp1, kp2.
      repeat split; try assumption; auto;
        [now destruct p1 | now destruct p2].
    - apply in_flat_map in Hin. destruct Hin as (out & _ & Hc).
      unfold drawKeypointOf in Hc.
      destruct (isMissing out); [contradiction|].
      destruct Hc as [Hc | []]. discriminate Hc. }
  split; [intros ->; reflexivity|].
  split; [|split].
  - intros Hne. exists (drawSkeleton normalized).
    split; [now apply Hcalls|].
    intros w h Hin. unfold drawSkeleton in Hin.
    apply in_app_or in Hin. destruct Hin as [Hin | Hin];
      apply in_flat_map in Hin; destruct Hin as (c & _ & Hc).
    + unfold drawConnectionOf in Hc.
      destruct (nth_error normalized (fst c)) as [p1|]; [|contradiction].
      destruct (nth_error normalized (snd c)) as [p2|]; [|contradiction].
      destruct (isMissing p1); [contradiction|].
      destruct (isMissing p2); [contradiction|].
      destruct Hc as [Hc | []]. discriminate Hc.
    + unfold drawKeypointOf in Hc.
      destruct (isMissing c); [contradiction|].
      destruct Hc as [Hc | []]. discriminate Hc.
  - intros x y Hin. destruct keypoints as [|kp0 rest0] eqn:Hk;
      [contradiction|].
    rewrite Hcalls in Hin by discriminate.
    destruct Hin as [Hin | Hin]; [discriminate Hin|]. now apply Hkey.
  - intros x1 y1 x2 y2 Hin. destruct keypoints as [|kp0 rest0] eqn:Hk;
      [contradiction|].
    rewrite Hcalls in Hin by discriminate.
    destruct Hin as [Hin | Hin]; [discriminate Hin|]. now apply Hcon.
Qed.

(** A keypoint call of [drawPose], in whatever mode, stands for a keypoint
    of the pose that is not missing. *)
Lemma drawPose_keypoint_present (v : PoseVisualizer) (keypoints : pose)
    (x y : float) :
  In (DrawKeypoint x y) (drawPose v keypoints true) ->
  exists i kp, nth_error keypoints i = Some kp
               /\ isMissing kp = false
               /\ nth_error (normalizeCoordinates v keypoints) i
                  = Some (x, y).
Proof.
  unfold drawPose. destruct keypoints as [|kp0 rest0] eqn:Hk;
    [contradiction|].
  rewrite <- Hk. intros [Hin | Hin]; [discriminate Hin|].
  destruct (String.eqb (_visualizationMode v) "skeleton").
  - unfold drawSkeleton in Hin.
    apply in_app_or in Hin. destruct Hin as [Hin | Hin];
      apply in_flat_map in Hin; destruct Hin as (c & Hc0 & Hc).
    + unfold drawConnectionOf in Hc.
      destruct (nth_error _ (fst c)) as [p1|]; [|contradiction].
      destruct (nth_error _ (snd c)) as [p2|]; [|contradiction].
      destruct (isMissing p1); [contradiction|].
      destruct (isMissing p2); [contradiction|].
      destruct Hc as [Hc | []]. discriminate Hc.
    + unfold drawKeypointOf in Hc.
      destruct (isMissing c) eqn:Hm; [contradiction|].
      destruct Hc as [Hc | []]. injection Hc as <- <-.
      apply In_nth_error in Hc0. destruct Hc0 as [i Hi].
      destruct (normalizeCoordinates_keeps_missing_aux v keypoints i c Hi)
        as (kp & Hkp & _ & Hsame).
      exists i, kp. split; [exact Hkp|]. split; [now apply Hsame|].
      rewrite Hi. now destruct c.
  - destruct (String.eqb (_visualizationMode v) "sprite");
      [destruct Hin as [Hin | []]; discriminate Hin | contradiction].
Qed.

Section PipelineFacts.

Variable Math_pow : float -> float -> float.

Lemma smoothPose_back (history : list pose) (newPose : pose) (i : nat)
    (out : keypoint) :
  nth_error (smoothPose Math_pow history newPose) i = Some out ->
  exists kp, nth_error newPose i = Some kp
             /\ (isMissing out = false -> isMissing kp = false).
Proof.
  intros Hout.
  assert (Hlen : length (smoothPose Math_pow history newPose)
                 = length newPose).
  { unfold smoothPose. destruct history; [reflexivity|].
    apply keypointLoop_length. }
  assert (Hi : (i < length newPose)%nat).
  { rewrite <- Hlen. apply nth_error_Some. congruence. }
  destruct (nth_error newPose i) as [kp|] eqn:Hkp;
    [|apply nth_error_None in Hkp; lia].
  exists kp. split; [reflexivity|].
  rewrite (nth_error_smoothPose Math_pow history newPose i kp Hkp) in Hout.
  injection Hout as <-.
  destruct history as [|h rest]; [auto|].
  destruct (isMissing kp); [|reflexivity].
  vm_compute. congruence.
Qed.

(** X16.  A keypoint that is missing in the sampled pose is never drawn:
    every keypoint call that [drawPose] makes for the smoothed pose stands
    for a keypoint of the pose that went into [smoothPose] which is not
    missing, whatever the history holds. *)
Theorem missing_keypoint_is_never_drawn (v : PoseVisualizer)
    (history : list pose) (newPose : pose) (x y : float) :
  let smoothedPose := smoothPose Math_pow history newPose in
  In (DrawKeypoint x y) (drawPose v smoothedPose true) ->
  exists i kp,
    nth_error newPose i = Some kp
    /\ isMissing kp = false
    /\ nth_error (normalizeCoordinates v smoothedPose) i = Some (x, y).
Proof.
  intros smoothedPose Hin.
  destruct (drawPose_keypoint_present v smoothedPose x y Hin)
    as (i & out & Hout & Hm & Hnorm).
  destruct (smoothPose_back history newPose i out Hout) as (kp & Hkp & Hback).
  exists i, kp. split; [exact Hkp|]. split; [now apply Hback | exact Hnorm].
Qed.

End PipelineFacts.

(** ** The mode button *)

Lemma vizModeClicked_index (currentSequence : option pose) (b : ModeButton) :
  (currentModeIndex b < 2)%nat ->
  let b' := fst (vizModeClicked currentSequence b) in
  currentModeIndex b' = (1 - currentModeIndex b)%nat
  /\ width (visualizer b') = width (visualizer b)
  /\ height (visualizer b') = height (visualizer b)
  /\ _visualizationMode (visualizer b')
     = nth (currentModeIndex b') visualizationModes ""%string
  /\ vizModeLabel b'
     = ("Mode: " ++ capitalize (_visualizationMode (visualizer b')))%string.
Proof.
  intros Hidx. destruct b as [index [w h mode] label]. cbn in Hidx.
  destruct index as [|[|index]]; [| |lia]; cbn; repeat split.
Qed.

(** X17.  The mode button alternates between the two modes, and its label
    names the mode of the visualizer after every click; but the page starts
    in mode 'skeleton' with the script's index at 'sprite', so the first
    click leaves the mode at 'skeleton': after n >= 1 clicks the mode is
    'skeleton' when n is odd and 'sprite' when n is even. *)
Theorem mode_button_alternates (w h : float) (currentSequence : option pose)
    (n : nat) :
  let b := modeClicks n currentSequence (initialModeButton w h) in
  _visualizationMode (visualizer b)
  = (if (n =? 0)%nat then "skeleton"
     else if Nat.odd n then "skeleton" else "sprite")%string
  /\ vizModeLabel b
     = ("Mode: " ++ capitalize (_visualizationMode (visualizer b)))%string
  /\ width (visualizer b) = w /\ height (visualizer b) = h.
Proof.
  assert (H : forall n,
             let b := modeClicks (S n) currentSequence
                        (initialModeButton w h) in
             currentModeIndex b = (if Nat.odd (S n) then 0 else 1)%nat
             /\ _visualizationMode (visualizer b)
                = nth (currentModeIndex b) visualizationModes ""%string
             /\ vizModeLabel b
                = ("Mode: "
                   ++ capitalize (_visualizationMode (visualizer b)))%string
             /\ width (visualizer b) = w /\ height (visualizer b) = h).
  { clear n. induction n as [|n IH].
    - cbn. repeat split.
    - cbv zeta in IH. destruct IH as (Hidx & _ & _ & Hw & Hh).
      set (b := modeClicks (S n) currentSequence (initialModeButton w h))
        in *.
      change (modeClicks (S (S n)) currentSequence (initialModeButton w h))
        with (fst (vizModeClicked currentSequence b)).
      destruct (vizModeClicked_index currentSequence b)
        as (Hi' & Hw' & Hh' & Hm' & Hl').
      { rewrite Hidx. destruct (Nat.odd (S n)); lia. }
      cbv zeta. rewrite Hw', Hh', Hw, Hh.
      split; [|repeat split; assumption].
      rewrite Hi', Hidx. rewrite (Nat.odd_succ (S n)), <- Nat.negb_odd.
      now destruct (Nat.odd (S n)). }
  destruct n as [|n]; [cbn; repeat split|].
  destruct (H n) as (Hidx & Hmode & Hlabel & Hw & Hh).
  cbv zeta. split; [|repeat split; assumption].
  rewrite Hmode, Hidx. change (S n =? 0)%nat with false. cbv iota.
  now destruct (Nat.odd (S n)).
Qed.

(** ** NaN and the bounding box *)

Lemma is_nan_eq (x : float) : is_nan x = true -> x = nan.
Proof.
  unfold is_nan. rewrite FloatAxioms.eqb_spec. intros H.
  apply Prim2SF_inj. change (Prim2SF nan) with S754_nan.
  destruct (Prim2SF x) as [[|]|[|]| |[|] m e]; unfold SFeqb in H; simpl in H;
    try discriminate; try reflexivity;
    rewrite ?Z.compare_refl, ?Pos.compare_cont_refl in H; discriminate.
Qed.

Ltac nan_arith spec :=
  intros; apply Prim2SF_inj; rewrite spec;
  change (Prim2SF nan) with S754_nan;
  match goal with
  | |- context [Prim2SF ?x] => destruct (Prim2SF x) as [[|]|[|]| |[|] ? ?]
  end; reflexivity.

Lemma mul_nan_r (x : float) : x * nan = nan.
Proof. nan_arith mul_spec. Qed.

Lemma add_nan_r (x : float) : x + nan = nan.
Proof. nan_arith add_spec. Qed.

Lemma sub_nan_r (x : float) : x - nan = nan.
Proof. nan_arith sub_spec. Qed.

Lemma sub_nan_l (x : float) : nan - x = nan.
Proof. nan_arith sub_spec. Qed.

Lemma div_nan_r (x : float) : x / nan = nan.
Proof. nan_arith div_spec. Qed.

Lemma div_nan_l (x : float) : nan / x = nan.
Proof. nan_arith div_spec. Qed.

(** [Math.min] and [Math.max] of two arguments. *)
Lemma Math_min_two (a b : float) :
  Math_min [a; b] = if is_nan a then nan else Math_min_step a b.
Proof.
  unfold Math_min. cbn [fold_left].
  destruct (is_nan a) eqn:Ha.
  - unfold Math_min_step at 2. rewrite Ha, orb_true_r.
    unfold Math_min_step. reflexivity.
  - f_equal. unfold Math_min_step. rewrite Ha.
    change (is_nan infinity) with false. cbn [orb].
    change (is_pos_zero infinity) with false. rewrite andb_false_r.
    destruct (a <? infinity) eqn:Hlt; [reflexivity|].
    symmetry. apply Prim2SF_inj.
    unfold is_nan in Ha. rewrite FloatAxioms.eqb_spec in Ha.
    rewrite FloatAxioms.ltb_spec in Hlt.
    change (Prim2SF infinity) with (S754_infinity false) in *.
    destruct (Prim2SF a) as [[|]|[|]| |[|] m e]; simpl in *;
      try discriminate; reflexivity.
Qed.

Lemma Math_max_two (a b : float) :
  Math_max [a; b] = if is_nan a then nan else Math_max_step a b.
Proof.
  unfold Math_max. cbn [fold_left].
  destruct (is_nan a) eqn:Ha.
  - unfold Math_max_step at 2. rewrite Ha, orb_true_r.
    unfold Math_max_step. reflexivity.
  - f_equal. unfold Math_max_step. rewrite Ha.
    change (is_nan neg_infinity) with false. cbn [orb].
    change (is_neg_zero neg_infinity) with false. rewrite andb_false_r.
    destruct (neg_infinity <? a) eqn:Hlt; [reflexivity|].
    symmetry. apply Prim2SF_inj.
    unfold is_nan in Ha. rewrite FloatAxioms.eqb_spec in Ha.
    rewrite FloatAxioms.ltb_spec in Hlt.
    change (Prim2SF neg_infinity) with (S754_infinity true) in *.
    destruct (Prim2SF a) as [[|]|[|]| |[|] m e]; simpl in *;
      try discriminate; reflexivity.
Qed.

Lemma Math_min_nan (a b : float) :
  is_nan a = true \/ is_nan b = true -> Math_min [a; b] = nan.
Proof.
  rewrite Math_min_two. intros [Ha | Hb]; [now rewrite Ha|].
  destruct (is_nan a) eqn:Ha; [reflexivity|].
  unfold Math_min_step. now rewrite Ha, Hb.
Qed.

Lemma Math_max_nan (a b : float) :
  is_nan a = true \/ is_nan b = true -> Math_max [a; b] = nan.
Proof.
  rewrite Math_max_two. intros [Ha | Hb]; [now rewrite Ha|].
  destruct (is_nan a) eqn:Ha; [reflexivity|].
  unfold Math_max_step. now rewrite Ha, Hb.
Qed.

Lemma Math_min_not_infinity (a b : float) :
  (a =? infinity) = false \/ is_infinity b = false ->
  (Math_min [a; b] =? infinity) = false.
Proof.
  rewrite Math_min_two. unfold Math_min_step, is_nan, is_neg_zero,
    is_pos_zero, is_infinity.
  rewrite !FloatAxioms.eqb_spec, FloatAxioms.ltb_spec, abs_spec,
    !classify_spec.
  change (Prim2SF infinity) with (S754_infinity false).
  intros H.
  destruct (Prim2SF a) as [[|]|[|]| |[|] ma ea] eqn:Ea;
    destruct (Prim2SF b) as [[|]|[|]| |[|] mb eb] eqn:Eb;
    cbn in H |- *;
    repeat match goal with
           | |- context [if ?c then _ else _] => destruct c eqn:?
           end;
    rewrite ?FloatAxioms.eqb_spec, ?Ea, ?Eb; try reflexivity;
    try (destruct H; discriminate).
Qed.

Lemma Math_max_not_neg_infinity (a b : float) :
  (a =? neg_infinity) = false \/ is_infinity b = false ->
  (Math_max [a; b] =? neg_infinity) = false.
Proof.
  rewrite Math_max_two. unfold Math_max_step, is_nan, is_neg_zero,
    is_pos_zero, is_infinity.
  rewrite !FloatAxioms.eqb_spec, FloatAxioms.ltb_spec, abs_spec,
    !classify_spec.
  change (Prim2SF infinity) with (S754_infinity false).
  change (Prim2SF neg_infinity) with (S754_infinity true).
  intros H.
  destruct (Prim2SF a) as [[|]|[|]| |[|] ma ea] eqn:Ea;
    destruct (Prim2SF b) as [[|]|[|]| |[|] mb eb] eqn:Eb;
    cbn in H |- *;
    repeat match goal with
           | |- context [if ?c then _ else _] => destruct c eqn:?
           end;
    rewrite ?FloatAxioms.eqb_spec, ?Ea, ?Eb; try reflexivity;
    try (destruct H; discriminate).
Qed.

(** A box one of whose extents is NaN on both sides and none of whose
    sides is the infinity it started from. *)
Lemma extendBox_keeps_nan (box : Box) (kp : keypoint) :
  noValidKeypoint box = false ->
  (is_nan (minX box) && is_nan (maxX box)
   || is_nan (minY box) && is_nan (maxY box))%bool = true ->
  noValidKeypoint (extendBox box kp) = false
  /\ (is_nan (minX (extendBox box kp)) && is_nan (maxX (extendBox box kp))
      || is_nan (minY (extendBox box kp)) && is_nan (maxY (extendBox box kp))
     )%bool = true.
Proof.
  intros Hvalid Hnan. unfold extendBox.
  destruct (isMissing kp); [now split|].
  unfold noValidKeypoint, strict_eq in *. cbn [minX minY maxX maxY].
  apply orb_false_iff in Hvalid as [Hvalid H4].
  apply orb_false_iff in Hvalid as [Hvalid H3].
  apply orb_false_iff in Hvalid as [H1 H2].
  split.
  - rewrite !Math_min_not_infinity, !Math_max_not_neg_infinity by now left.
    reflexivity.
  - apply orb_true_iff in Hnan as [H | H];
      apply andb_true_iff in H as [Hlo Hhi]; apply orb_true_iff;
      [left | right];
      rewrite Math_min_nan, Math_max_nan by (now left); reflexivity.
Qed.

Lemma extendBox_takes_nan (box : Box) (kp : keypoint) :
  (is_nan (fst kp) || is_nan (snd kp))%bool = true ->
  is_infinity (fst kp) = false -> is_infinity (snd kp) = false ->
  noValidKeypoint (extendBox box kp) = false
  /\ (is_nan (minX (extendBox box kp)) && is_nan (maxX (extendBox box kp))
      || is_nan (minY (extendBox box kp)) && is_nan (maxY (extendBox box kp))
     )%bool = true.
Proof.
  intros Hnan Hx Hy. unfold extendBox.
  assert (Hpresent : isMissing kp = false).
  { unfold isMissing, strict_eq.
    apply orb_true_iff in Hnan as [H | H]; apply is_nan_eq in H; rewrite H.
    - reflexivity.
    - apply andb_false_r. }
  rewrite Hpresent.
  unfold noValidKeypoint, strict_eq. cbn [minX minY maxX maxY]. split.
  - rewrite !Math_min_not_infinity, !Math_max_not_neg_infinity by now right.
    reflexivity.
  - apply orb_true_iff in Hnan as [H | H]; apply orb_true_iff;
      [left | right];
      rewrite Math_min_nan, Math_max_nan by (now right); reflexivity.
Qed.

Lemma boundingBox_keeps_nan (keypoints : pose) :
  forall box,
  noValidKeypoint box = false ->
  (is_nan (minX box) && is_nan (maxX box)
   || is_nan (minY box) && is_nan (maxY box))%bool = true ->
  noValidKeypoint (fold_left extendBox keypoints box) = false
  /\ (is_nan (minX (fold_left extendBox keypoints box))
      && is_nan (maxX (fold_left extendBox keypoints box))
      || is_nan (minY (fold_left extendBox keypoints box))
         && is_nan (maxY (fold_left extendBox keypoints box)))%bool = true.
Proof.
  induction keypoints as [|kp rest IH]; intros box Hvalid Hnan;
    [now split|].
  cbn [fold_left].
  destruct (extendBox_keeps_nan box kp Hvalid Hnan) as [Hv Hn].
  now apply IH.
Qed.

Lemma boundingBox_takes_nan (keypoints : pose) (bad : keypoint) :
  In bad keypoints ->
  (is_nan (fst bad) || is_nan (snd bad))%bool = true ->
  is_infinity (fst bad) = false -> is_infinity (snd bad) = false ->
  forall box,
  noValidKeypoint (fold_left extendBox keypoints box) = false
  /\ (is_nan (minX (fold_left extendBox keypoints box))
      && is_nan (maxX (fold_left extendBox keypoints box))
      || is_nan (minY (fold_left extendBox keypoints box))
         && is_nan (maxY (fold_left extendBox keypoints box)))%bool = true.
Proof.
  intros Hin Hnan Hx Hy.
  induction keypoints as [|kp rest IH]; intros box; [destruct Hin|].
  cbn [fold_left]. destruct Hin as [-> | Hin].
  - destruct (extendBox_takes_nan box bad Hnan Hx Hy) as [Hv Hn].
    now apply boundingBox_keeps_nan.
  - now apply IH.
Qed.

Lemma fitScale_nan (v : PoseVisualizer) (box : Box) :
  (is_nan (minX box) && is_nan (maxX box)
   || is_nan (minY box) && is_nan (maxY box))%bool = true ->
  fitScale v box = nan.
Proof.
  intros Hnan. unfold fitScale. cbv zeta.
  apply Math_min_nan.
  apply orb_true_iff in Hnan as [H | H];
    apply andb_true_iff in H as [Hlo Hhi];
    apply is_nan_eq in Hlo; [left | right];
    rewrite Hlo, sub_nan_r, div_nan_r; reflexivity.
Qed.

(** X18.  Not-a-number spreads over the whole pose: when one keypoint of the
    pose has a NaN coordinate (and no infinite one), [normalizeCoordinates]
    maps every keypoint that is not missing to (NaN, NaN), and the missing
    ones to (0, 0). *)
Theorem normalizeCoordinates_nan_spreads (v : PoseVisualizer)
    (keypoints : pose) (bad : keypoint) :
  In bad keypoints ->
  (is_nan (fst bad) || is_nan (snd bad))%bool = true ->
  is_infinity (fst bad) = false -> is_infinity (snd bad) = false ->
  normalizeCoordinates v keypoints
  = map (fun kp => if isMissing kp then (0, 0) else (nan, nan)) keypoints.
Proof.
  intros Hin Hnan Hx Hy.
  destruct (boundingBox_takes_nan keypoints bad Hin Hnan Hx Hy emptyBox)
    as [Hvalid Hbox].
  fold (boundingBox keypoints) in Hvalid, Hbox.
  unfold normalizeCoordinates.
  destruct keypoints as [|kp rest]; [destruct Hin|].
  rewrite Hvalid. apply map_ext. intros p.
  unfold fitTranslateX, fitTranslateY. cbv zeta.
  rewrite (fitScale_nan v _ Hbox), !mul_nan_r.
  unfold normalizeKeypoint. destruct (isMissing p); [reflexivity|].
  now rewrite !sub_nan_r, !add_nan_r.
Qed.

(** ** A box without extent *)

Lemma sub_diag_finite (x : float) : is_finite x = true -> x - x = 0.
Proof.
  intros H. apply Prim2SF_inj. rewrite sub_spec.
  change (Prim2SF 0) with (S754_zero false).
  destruct (is_finite_Prim2SF x H) as [[s ->] | (s & m & e & ->)].
  - now destruct s.
  - unfold SFsub. cbn. rewrite Z.min_id.
    destruct s; cbn; rewrite ?Z.add_opp_diag_r, ?Z.add_opp_diag_l;
      try rewrite Z.pos_sub_diag; reflexivity.
Qed.

Lemma is_finite_parts (x : float) :
  is_finite x = true -> is_nan x = false /\ is_infinity x = false.
Proof.
  unfold is_finite. intros H. apply negb_true_iff in H.
  now apply orb_false_iff in H.
Qed.

Lemma Math_min_idem (x : float) : is_nan x = false -> Math_min [x; x] = x.
Proof.
  intros H. rewrite Math_min_two, H. unfold Math_min_step.
  rewrite H. cbn [orb].
  now destruct (is_neg_zero x && is_pos_zero x)%bool, (x <? x).
Qed.

Lemma Math_max_idem (x : float) : is_nan x = false -> Math_max [x; x] = x.
Proof.
  intros H. rewrite Math_max_two, H. unfold Math_max_step.
  rewrite H. cbn [orb].
  now destruct (is_pos_zero x && is_neg_zero x)%bool, (x <? x).
Qed.

Lemma Math_min_first (x : float) :
  is_finite x = true -> Math_min [infinity; x] = x.
Proof.
  intros H. rewrite Math_min_two. change (is_nan infinity) with false.
  cbv iota. unfold Math_min_step. change (is_nan infinity) with false.
  change (is_pos_zero infinity) with false.
  destruct (is_finite_parts x H) as [Hn _]. rewrite Hn, andb_false_r.
  cbn [orb].
  replace (x <? infinity) with true; [reflexivity|].
  symmetry. rewrite FloatAxioms.ltb_spec.
  change (Prim2SF infinity) with (S754_infinity false).
  destruct (is_finite_Prim2SF x H) as [[s ->] | (s & m & e & ->)];
    [reflexivity | now destruct s].
Qed.

Lemma Math_max_first (x : float) :
  is_finite x = true -> Math_max [neg_infinity; x] = x.
Proof.
  intros H. rewrite Math_max_two. change (is_nan neg_infinity) with false.
  cbv iota. unfold Math_max_step. change (is_nan neg_infinity) with false.
  change (is_neg_zero neg_infinity) with false.
  destruct (is_finite_parts x H) as [Hn _]. rewrite Hn, andb_false_r.
  cbn [orb].
  replace (neg_infinity <? x) with true; [reflexivity|].
  symmetry. rewrite FloatAxioms.ltb_spec.
  change (Prim2SF neg_infinity) with (S754_infinity true).
  destruct (is_finite_Prim2SF x H) as [[s ->] | (s & m & e & ->)];
    [reflexivity | now destruct s].
Qed.

Lemma is_finite_not_infinity (x : float) :
  is_finite x = true ->
  (x =? infinity) = false /\ (x =? neg_infinity) = false.
Proof.
  intros H. rewrite !FloatAxioms.eqb_spec.
  change (Prim2SF infinity) with (S754_infinity false).
  change (Prim2SF neg_infinity) with (S754_infinity true).
  destruct (is_finite_Prim2SF x H) as [[s ->] | (s & m & e & ->)];
    now split.
Qed.

(** The box of a pose all of whose present keypoints are one point. *)
Lemma boundingBox_one_point (keypoints : pose) (kp : keypoint) :
  is_finite (fst kp) = true -> is_finite (snd kp) = true ->
  (forall other, In other keypoints -> isMissing other = false ->
                 other = kp) ->
  forall box,
  box = emptyBox
  \/ box = {| minX := fst kp; minY := snd kp;
              maxX := fst kp; maxY := snd kp |} ->
  (fold_left extendBox keypoints box = box
   /\ forall other, In other keypoints -> isMissing other = true)
  \/ fold_left extendBox keypoints box
     = {| minX := fst kp; minY := snd kp; maxX := fst kp; maxY := snd kp |}.
Proof.
  intros Hx Hy.
  destruct (is_finite_parts _ Hx) as [Hxn _].
  destruct (is_finite_parts _ Hy) as [Hyn _].
  induction keypoints as [|p rest IH]; intros Hsame box Hbox.
  - left. split; [reflexivity | intros other []].
  - cbn [fold_left].
    assert (Hrest : forall other, In other rest ->
                      isMissing other = false -> other = kp)
      by (intros other Hin; apply Hsame; now right).
    destruct (isMissing p) eqn:Hp.
    + replace (extendBox box p) with box by (unfold extendBox; now rewrite Hp).
      destruct (IH Hrest box Hbox) as [[Heq Hall] | Heq]; [left | now right].
      split; [exact Heq|]. intros other [<- | Hin]; [exact Hp | now apply Hall].
    + right. pose proof (Hsame p (or_introl eq_refl) Hp) as Heq. subst p.
      assert (Hpoint : extendBox box kp
                = {| minX := fst kp; minY := snd kp;
                     maxX := fst kp; maxY := snd kp |}).
      { unfold extendBox. rewrite Hp. destruct Hbox as [-> | ->];
          cbn [minX minY maxX maxY emptyBox].
        - now rewrite !Math_min_first, !Math_max_first.
        - now rewrite !Math_min_idem, !Math_max_idem. }
      rewrite Hpoint.
      destruct (IH Hrest _ (or_intror eq_refl)) as [[Heq _] | Heq];
        exact Heq.
Qed.

Lemma Math_min_choice (a b : float) :
  Math_min [a; b] = nan \/ Math_min [a; b] = a \/ Math_min [a; b] = b.
Proof.
  rewrite Math_min_two. unfold Math_min_step.
  destruct (is_nan a); [now left|]. cbn [orb].
  destruct (is_nan b); [now left|].
  destruct (is_neg_zero b && is_pos_zero a)%bool; [now right; right|].
  destruct (b <? a); [now right; right | now right; left].
Qed.

Lemma zero_mul_div_zero (a : float) : 0 * (a / 0) = nan.
Proof.
  apply Prim2SF_inj. rewrite mul_spec, div_spec.
  change (Prim2SF 0) with (S754_zero false).
  change (Prim2SF nan) with S754_nan.
  now destruct (Prim2SF a) as [[|]|[|]| |[|] m e].
Qed.

(** X19.  A pose without extent cannot be fitted: when the keypoints that
    are not missing all are one and the same finite point (a pose with a
    single detected keypoint, for one), the bounding box has width and height
    0, the scale is a division by zero, and [normalizeCoordinates] maps every
    keypoint that is not missing to (NaN, NaN), whatever the size of the
    canvas. *)
Theorem normalizeCoordinates_one_point (v : PoseVisualizer)
    (keypoints : pose) (kp : keypoint) :
  In kp keypoints -> isMissing kp = false ->
  is_finite (fst kp) = true -> is_finite (snd kp) = true ->
  (forall other, In other keypoints -> isMissing other = false ->
                 other = kp) ->
  normalizeCoordinates v keypoints
  = map (fun p => if isMissing p then (0, 0) else (nan, nan)) keypoints.
Proof.
  intros Hin Hpresent Hx Hy Hsame.
  destruct (boundingBox_one_point keypoints kp Hx Hy Hsame emptyBox
              (or_introl eq_refl)) as [[_ Hall] | Hbox].
  { rewrite (Hall kp Hin) in Hpresent. discriminate. }
  fold (boundingBox keypoints) in Hbox.
  unfold normalizeCoordinates.
  destruct keypoints as [|p rest]; [destruct Hin|].
  rewrite Hbox.
  assert (Hvalid : noValidKeypoint
            {| minX := fst kp; minY := snd kp;
               maxX := fst kp; maxY := snd kp |} = false).
  { unfold noValidKeypoint, strict_eq. cbn [minX minY maxX maxY].
    destruct (is_finite_not_infinity _ Hx) as [-> ->].
    destruct (is_finite_not_infinity _ Hy) as [-> ->]. reflexivity. }
  rewrite Hvalid. apply map_ext. intros q.
  unfold fitTranslateX, fitTranslateY, fitScale. cbv zeta.
  cbn [minX minY maxX maxY].
  rewrite !(sub_diag_finite _ Hx), !(sub_diag_finite _ Hy).
  assert (Hzx : 0 * Math_min [width v * 0.8 / 0; height v * 0.8 / 0] = nan).
  { destruct (Math_min_choice (width v * 0.8 / 0) (height v * 0.8 / 0))
      as [-> | [-> | ->]];
      [apply mul_nan_r | apply zero_mul_div_zero | apply zero_mul_div_zero]. }
  rewrite Hzx, !sub_nan_r, !div_nan_l, !sub_nan_l.
  unfold normalizeKeypoint. destruct (isMissing q); [reflexivity|].
  now rewrite !add_nan_r.
Qed.

(** ** The page stays well formed *)

Section LoopInvariant.

Variables Math_exp Math_log Math_cos : float -> float.
Variable Math_pow : float -> float -> float.
Variable rand : nat -> float.

(** X20.  The history never outgrows its bound and no suspended step holds
    an empty window: a page whose history has at most [MAX_HISTORY] poses and
    whose suspended steps all hold a window of at least one entry is again
    such a page after any sequence of events. *)
Theorem page_stays_well_formed (s : App) (es : list event) :
  wellFormed s ->
  wellFormed (run Math_exp Math_log Math_cos Math_pow rand s es).
Proof.
  revert s. induction es as [|e es IH]; intros s Hs; [exact Hs|].
  unfold run. cbn [fold_left]. apply IH. now apply handle_wellFormed.
Qed.

End LoopInvariant.

(** * The further properties on concrete inputs *)

Lemma windows_stay_rectangular_witness :
  (1 <= 2)%nat
  /\ rectangular 2 2 Demo.seed
  /\ Forall (rectangular 2 2)
       (pendingWindows
          (Demo.run (initialized Demo.seed 1)
             [GenerateClicked; InferenceSettled 0 (Normal Demo.prediction)])).
Proof.
  assert (Hseed : rectangular 2 2 Demo.seed)
    by (split; [reflexivity | repeat constructor]).
  split; [lia|]. split; [exact Hseed|].
  apply (windows_stay_rectangular Tabulated.Math_exp Tabulated.Math_log
           Tabulated.Math_cos Tabulated.Math_pow Demo.draws 2 2 Demo.seed 1);
    [lia | exact Hseed].
Defined.

Lemma generate_starts_one_step_witness :
  session (initialized Demo.seed 1) = true
  /\ isGenerating (initialized Demo.seed 1) = false
  /\ seedSequence (initialized Demo.seed 1) = Some Demo.seed
  /\ Demo.seed <> []
  /\ isGenerating (Demo.handle (initialized Demo.seed 1) GenerateClicked)
     = true
  /\ awaiting (Demo.handle (initialized Demo.seed 1) GenerateClicked)
     = [Demo.seed].
Proof.
  assert (Hne : Demo.seed <> []) by discriminate.
  destruct (generate_starts_one_step Tabulated.Math_exp Tabulated.Math_log
              Tabulated.Math_cos Tabulated.Math_pow Demo.draws
              (initialized Demo.seed 1) Demo.seed eq_refl eq_refl eq_refl Hne)
    as (Hgen & _ & Haw & _).
  do 3 (split; [reflexivity|]). split; [exact Hne|].
  split; [exact Hgen | exact Haw].
Defined.

Lemma generate_without_model_or_seed_witness :
  isGenerating (initialized [] 1) = false
  /\ session (initialized [] 1) = true
  /\ seedSequence (initialized [] 1) = Some []
  /\ isGenerating (Demo.handle (initialized [] 1) GenerateClicked) = false
  /\ alerts (Demo.handle (initialized [] 1) GenerateClicked) = 1%nat.
Proof.
  destruct (generate_without_model_or_seed Tabulated.Math_exp
              Tabulated.Math_log Tabulated.Math_cos Tabulated.Math_pow
              Demo.draws (initialized [] 1) eq_refl)
    as (_ & _ & Hempty).
  destruct (Hempty eq_refl eq_refl) as (Hgen & Hal & _).
  do 3 (split; [reflexivity|]). split; [exact Hgen | exact Hal].
Defined.

Lemma stopped_page_draws_in_flight_and_redraws_witness :
  let s := Demo.run Demo.started [StopClicked] in
  let es := [WindowResized;
             InferenceSettled 0 (Normal Demo.prediction);
             TimerFired 0; FrameFired 0; VizModeClicked] in
  isGenerating s = false
  /\ Forall (fun e => e <> GenerateClicked) es
  /\ isGenerating (Demo.run s es) = false
  /\ (length (awaiting (Demo.run s es)) <= length (awaiting s))%nat
  /\ (length (drawn (Demo.run s es))
      <= length (drawn s) + length (awaiting s) + redraws es)%nat
  /\ (forall p, In p (drawn s) -> In p (drawn (Demo.run s es))).
Proof.
  intros s es.
  assert (Hes : Forall (fun e => e <> GenerateClicked) es)
    by (repeat constructor; discriminate).
  split; [reflexivity|]. split; [exact Hes|].
  apply (stopped_page_draws_in_flight_and_redraws Tabulated.Math_exp
           Tabulated.Math_log Tabulated.Math_cos Tabulated.Math_pow
           Demo.draws s es); [reflexivity | exact Hes].
Defined.

(** On that page the bound is met: one pose was drawn when the page was
    loaded, one comes from the call in flight, and each of the two redraws
    adds one. *)
Example stopped_page_redraws :
  let s := Demo.run Demo.started [StopClicked] in
  let es := [WindowResized;
             InferenceSettled 0 (Normal Demo.prediction);
             TimerFired 0; FrameFired 0; VizModeClicked] in
  drawn s = [[(3, 4)]]
  /\ drawn (Demo.run s es)
     = [[(3, 4)]; [(3, 4)]; [(100, 200)]; [(100, 200)]].
Proof. vm_compute. split; reflexivity. Qed.

Lemma inference_failure_halts_witness :
  nth_error (awaiting Demo.started) 0 = Some Demo.seed
  /\ isGenerating
       (Demo.handle Demo.started (InferenceSettled 0 (Throw InferenceFailure)))
     = false
  /\ alerts
       (Demo.handle Demo.started (InferenceSettled 0 (Throw InferenceFailure)))
     = 1%nat
  /\ drawn
       (Demo.handle Demo.started (InferenceSettled 0 (Throw InferenceFailure)))
     = drawn Demo.started.
Proof.
  destruct (inference_failure_halts Tabulated.Math_exp Tabulated.Math_log
              Tabulated.Math_cos Tabulated.Math_pow Demo.draws Demo.started
              0 Demo.seed InferenceFailure eq_refl)
    as (Hgen & Hal & _ & _ & Hdr & _).
  split; [reflexivity|]. split; [exact Hgen|]. split; [exact Hal | exact Hdr].
Defined.

Lemma generating_loop_turns_witness :
  let after := Demo.run Demo.started
                 [InferenceSettled 0 (Normal Demo.prediction);
                  TimerFired 0; FrameFired 0] in
  isGenerating Demo.started = true
  /\ nth_error (awaiting Demo.started) 0 = Some Demo.seed
  /\ sampleNext_limited Tabulated.Math_exp Tabulated.Math_log
       Tabulated.Math_cos Demo.draws Tabulated.argumentLimit
       Demo.seed Demo.prediction (temperatureSlider Demo.started)
       (randomCalls Demo.started)
     = (Normal [100; 200], 5%nat)
  /\ awaiting after = [advance Demo.seed [100; 200]]
  /\ poseHistory after = [[(100, 200)]]
  /\ drawn after = drawn Demo.started ++ [[(100, 200)]]
  /\ randomCalls after = 5%nat.
Proof.
  intros after.
  assert (Hsample : sampleNext_limited Tabulated.Math_exp Tabulated.Math_log
                      Tabulated.Math_cos Demo.draws Tabulated.argumentLimit
                      Demo.seed Demo.prediction
                      (temperatureSlider Demo.started)
                      (randomCalls Demo.started)
                    = (Normal [100; 200], 5%nat))
    by (vm_compute; reflexivity).
  destruct (generating_loop_turns Tabulated.Math_exp Tabulated.Math_log
              Tabulated.Math_cos Tabulated.Math_pow Demo.draws
              Tabulated.argumentLimit Demo.started 0 Demo.seed
              Demo.prediction [100; 200] 5 eq_refl eq_refl Hsample)
    as (Haw & _ & _ & _ & Hph & Hdr & _ & Hcalls).
  do 2 (split; [reflexivity|]). split; [exact Hsample|].
  split; [exact Haw|]. split; [exact Hph|]. split; [exact Hdr | exact Hcalls].
Defined.


Lemma drawPose_skeleton_draws_present_only_witness :
  let v := {| width := 800; height := 600;
              _visualizationMode := "skeleton" |} in
  let keypoints := [(0, 0); (100, 200); (300, 400)] in
  _visualizationMode v = "skeleton"%string
  /\ In (DrawKeypoint 160 60) (drawPose v keypoints true)
  /\ exists i kp,
       nth_error keypoints i = Some kp
       /\ isMissing kp = false
       /\ nth_error (normalizeCoordinates v keypoints) i = Some (160, 60).
Proof.
  intros v keypoints.
  assert (Hin : In (DrawKeypoint 160 60) (drawPose v keypoints true))
    by (vm_compute; do 2 right; left; reflexivity).
  split; [reflexivity|]. split; [exact Hin|].
  apply (proj1 (proj2 (proj2
           (drawPose_skeleton_draws_present_only v keypoints eq_refl)))
           160 60 Hin).
Defined.

Lemma missing_keypoint_is_never_drawn_witness :
  let v := {| width := 800; height := 600;
              _visualizationMode := "skeleton" |} in
  let newPose := [(0, 0); (100, 200); (300, 400)] in
  let smoothedPose := smoothPose Tabulated.Math_pow [newPose] newPose in
  In (DrawKeypoint 160 60) (drawPose v smoothedPose true)
  /\ exists i kp,
       nth_error newPose i = Some kp
       /\ isMissing kp = false
       /\ nth_error (normalizeCoordinates v smoothedPose) i = Some (160, 60).
Proof.
  intros v newPose smoothedPose.
  assert (Hin : In (DrawKeypoint 160 60) (drawPose v smoothedPose true))
    by (vm_compute; do 2 right; left; reflexivity).
  split; [exact Hin|].
  apply (missing_keypoint_is_never_drawn Tabulated.Math_pow v [newPose]
           newPose 160 60 Hin).
Defined.

Lemma normalizeCoordinates_nan_spreads_witness :
  let v := {| width := 800; height := 600;
              _visualizationMode := "skeleton" |} in
  let keypoints := [(0, 0); (nan, 5); (100, 200); (300, 400)] in
  In (nan, 5) keypoints
  /\ (is_nan nan || is_nan 5)%bool = true
  /\ is_infinity nan = false /\ is_infinity 5 = false
  /\ normalizeCoordinates v keypoints
     = [(0, 0); (nan, nan); (nan, nan); (nan, nan)].
Proof.
  intros v keypoints.
  assert (Hin : In (nan, 5) keypoints) by (right; left; reflexivity).
  split; [exact Hin|]. do 3 (split; [reflexivity|]).
  apply (normalizeCoordinates_nan_spreads v keypoints (nan, 5) Hin
           eq_refl eq_refl eq_refl).
Defined.

Lemma normalizeCoordinates_one_point_witness :
  let v := {| width := 800; height := 600;
              _visualizationMode := "skeleton" |} in
  let keypoints := [(0, 0); (100, 200); (0, 0); (100, 200)] in
  In (100, 200) keypoints
  /\ isMissing (100, 200) = false
  /\ is_finite 100 = true /\ is_finite 200 = true
  /\ (forall other, In other keypoints -> isMissing other = false ->
                    other = (100, 200))
  /\ normalizeCoordinates v keypoints
     = [(0, 0); (nan, nan); (0, 0); (nan, nan)].
Proof.
  intros v keypoints.
  assert (Hin : In (100, 200) keypoints) by (right; left; reflexivity).
  assert (Hsame : forall other, In other keypoints ->
                    isMissing other = false -> other = (100, 200)).
  { intros other [<- | [<- | [<- | [<- | []]]]] Hpresent;
      try reflexivity; vm_compute in Hpresent; discriminate Hpresent. }
  split; [exact Hin|]. do 3 (split; [reflexivity|]).
  split; [exact Hsame|].
  apply (normalizeCoordinates_one_point v keypoints (100, 200) Hin
           eq_refl eq_refl eq_refl Hsame).
Defined.

Lemma page_stays_well_formed_witness :
  wellFormed Demo.started
  /\ wellFormed
       (Demo.run Demo.started
          [InferenceSettled 0 (Normal Demo.prediction);
           TimerFired 0; FrameFired 0]).
Proof.
  assert (Hs : wellFormed Demo.started).
  { split; [vm_compute; lia | repeat constructor; discriminate]. }
  split; [exact Hs|].
  apply (page_stays_well_formed Tabulated.Math_exp Tabulated.Math_log
           Tabulated.Math_cos Tabulated.Math_pow Demo.draws Demo.started _ Hs).
Defined.
